(** * git-code-golf: path layout, state aggregation and tree reconciliation

    A shallow embedding of [git-code-golf.py] (POSIX conventions: [os.sep] is
    the slash and [os.linesep] the line feed).

    - Python dictionaries whose iteration order is observable ([state]) are
      insertion-ordered association lists; dictionaries that are only looked
      up ([LANGUAGE_NAMES_EXTENSIONS], [codes_per_solution], [needed]) are
      [gmap]s, Python sets are [gset]s.
    - Exceptions are values of [exn]; code that may raise lives in the
      [result] monad, code that also mutates the file system in [io].
    - The directory tree below the output directory is a [node]; a path is
      kept as the list of its segments below the output directory, and
      [path_str] gives back the string that [os.path.join] builds.
      Symbolic links are not modelled, and the empty segment and the two
      dot segments are names like any other: the statements about applied
      change sets are about target paths made of ordinary names.
    - The export (network), the confirmation prompt and the commit
      (subprocess) are outside the embedding; [main] is the part between
      them. *)

From Stdlib Require Import String Ascii.
From stdpp Require Import gmap strings list fin_maps sorting.

Set Default Proof Using "Type".
#[local] Set Warnings "-register-all,-clear-no-such-hyp".

(** ** Exceptions and the [result] monad *)

Inductive exn :=
| KeyError (key : list string)
| Exception (msg : string)
| AssertionError
| IndexError
| NotADirectoryError (filename : list string)
| FileNotFoundError (filename : list string)
| FileExistsError (filename : list string)
| IsADirectoryError (filename : list string)
| RecursionError.

Inductive result (A : Type) :=
| Ok (a : A)
| Raise (e : exn).
Arguments Ok {A} a.
Arguments Raise {A} e.

#[global] Instance result_ret : MRet result := @Ok.
#[global] Instance result_bind : MBind result := λ A B f m,
  match m with
  | Ok a => f a
  | Raise e => Raise e
  end.

#[global] Instance exn_eq_dec : EqDecision exn.
Proof. solve_decision. Defined.

(** [for x in l: a = body(x, a)], stopping at the first exception. *)
Fixpoint for_each {A B} (body : B → A → result A) (l : list B) (a : A) : result A :=
  match l with
  | [] => Ok a
  | x :: l' => a' ← body x a; for_each body l' a'
  end.

(** ** Python strings *)

(** Truthiness of [str | None]: [None] and the empty string are false. *)
Definition truthy (o : option string) : bool :=
  match o with
  | None => false
  | Some s => negb (String.eqb s "")
  end.

(** [s.split(sep)] for a one-character separator. *)
Fixpoint split (sep : ascii) (s : string) : list string :=
  match s with
  | EmptyString => [""]
  | String c s' =>
      if Ascii.eqb c sep then "" :: split sep s'
      else match split sep s' with
           | [] => [String c ""]
           | w :: ws => String c w :: ws
           end
  end.

(** ** The language table and the path layouts *)

Definition LANGUAGE_NAMES_EXTENSIONS : gmap string (string * string) :=
  list_to_map [
    ("fish", ("><>", "fish"));
    ("assembly", ("Assembly", "asm"));
    ("awk", ("AWK", "awk"));
    ("bash", ("Bash", "sh"));
    ("basic", ("BASIC", "bas"));
    ("Berry", ("Berry", "brr"));
    ("brainfuck", ("Brainfuck", "bf"));
    ("c", ("C", "c"));
    ("c-sharp", ("C#", "cs"));
    ("cpp", ("C++", "cpp"));
    ("cobol", ("COBOL", "cob"));
    ("crystal", ("Crystal", "cr"));
    ("d", ("D", "d"));
    ("dart", ("Dart", "dart"));
    ("elixir", ("Elixir", "ex"));
    ("f-sharp", ("F#", "fs"));
    ("factor", ("Factor", "factor"));
    ("forth", ("Forth", "fth"));
    ("fortran", ("Fortran", "f"));
    ("go", ("Go", "go"));
    ("golfscript", ("GolfScript", "gs"));
    ("haskell", ("Haskell", "hs"));
    ("hexagony", ("Hexagony", "hxg"));
    ("j", ("J", "ijs"));
    ("janet", ("Janet", "janet"));
    ("java", ("Java", "java"));
    ("javascript", ("JavaScript", "js"));
    ("julia", ("Julia", "jl"));
    ("k", ("K", "k"));
    ("lisp", ("Lisp", "lsp"));
    ("lua", ("Lua", "lua"));
    ("nim", ("Nim", "nim"));
    ("ocaml", ("OCaml", "ml"));
    ("pascal", ("Pascal", "pas"));
    ("perl", ("Perl", "pl"));
    ("php", ("PHP", "php"));
    ("powershell", ("PowerShell", "ps1"));
    ("prolog", ("Prolog", "pl"));
    ("python", ("Python", "py"));
    ("r", ("R", "r"));
    ("raku", ("Raku", "raku"));
    ("ruby", ("Ruby", "rb"));
    ("rust", ("Rust", "rs"));
    ("sed", ("sed", "sed"));
    ("sql", ("SQL", "sql"));
    ("swift", ("Swift", "swift"));
    ("tcl", ("Tcl", "tcl"));
    ("tex", ("TeX", "tex"));
    ("v", ("V", "v"));
    ("viml", ("VimL", "vim"));
    ("wren", ("Wren", "wren"));
    ("zig", ("Zig", "zig"))
  ].

Definition DEFAULT_IGNORE_LIST : list string :=
  [".git"; ".gitignore"; ".github"; "README.md"; "LICENSE"].

Inductive FileStructure :=
| LANGUAGE_HOLE_EXTENSION
| HOLE_LANGUAGE_EXTENSION
| HOLE_SOLUTION_EXTENSION
| HOLE_EXTENSION.

(** [f"-{category}" if category else ""] *)
Definition category_suffix (category : option string) : string :=
  match category with
  | Some c => if truthy category then "-" +:+ c else ""
  | None => ""
  end.

Definition get_solution_path (file_structure : FileStructure)
    (hole_code language_code : string) (category : option string) : result string :=
  match LANGUAGE_NAMES_EXTENSIONS !! language_code with
  | None => Raise (KeyError [language_code])
  | Some (_, extension) =>
      let category_suffix := category_suffix category in
      Ok match file_structure with
         | LANGUAGE_HOLE_EXTENSION =>
             language_code +:+ "/" +:+ hole_code +:+ category_suffix +:+ "." +:+ extension
         | HOLE_LANGUAGE_EXTENSION =>
             hole_code +:+ "/" +:+ language_code +:+ category_suffix +:+ "." +:+ extension
         | HOLE_SOLUTION_EXTENSION =>
             hole_code +:+ "/solution" +:+ category_suffix +:+ "." +:+ extension
         | HOLE_EXTENSION =>
             hole_code +:+ category_suffix +:+ "." +:+ extension
         end
  end.

(** ** State aggregation *)

(** One element of [data["solutions"]]. *)
Record solution := Solution {
  hole : string;
  lang : string;
  scoring : string;
  submitted : string;
  code : string;
}.

(** A value of the [state] dictionary: [{"content": code, "date": date}]. *)
Record state_entry := StateEntry {
  content : string;
  date : string;
}.

(** Insertion-ordered dictionary with string keys. *)
Definition dict (V : Type) := list (string * V).

Fixpoint dict_get {V} (d : dict V) (k : string) : option V :=
  match d with
  | [] => None
  | (k', v) :: d' => if decide (k' = k) then Some v else dict_get d' k
  end.

(** [d[k] = v]: an existing key keeps its position, a new one goes last. *)
Fixpoint dict_set {V} (d : dict V) (k : string) (v : V) : dict V :=
  match d with
  | [] => [(k, v)]
  | (k', v') :: d' =>
      if decide (k' = k) then (k, v) :: d' else (k', v') :: dict_set d' k v
  end.

(** The first loop of [compute_final_state]: the set of codes per
    (hole, language). *)
Definition add_code (solution : solution)
    (codes_per_solution : gmap (string * string) (gset string)) :
    gmap (string * string) (gset string) :=
  let key := (hole solution, lang solution) in
  <[key := default ∅ (codes_per_solution !! key) ∪ {[code solution]}]> codes_per_solution.

Definition collect_codes (solutions : list solution) :
    gmap (string * string) (gset string) :=
  foldl (λ m s, add_code s m) ∅ solutions.

(** The argument given to [get_solution_path] for the category:
    [None if collapse_same_categories and unique and not only_category else category]. *)
Definition category_argument (collapse_same_categories unique : bool)
    (only_category : option string) (category : string) : option string :=
  if collapse_same_categories && unique && negb (truthy only_category)
  then None else Some category.

(** [if path in state and date <= state[path]["date"]: continue]
    followed by [state[path] = {"content": code, "date": date}]. *)
Definition store (state : dict state_entry) (path code date : string) :
    dict state_entry :=
  match dict_get state path with
  | Some (StateEntry _ old_date) =>
      if String.leb date old_date then state
      else dict_set state path (StateEntry code date)
  | None => dict_set state path (StateEntry code date)
  end.

(** [only_category is not None and only_category != category] *)
Definition skipped (only_category : option string) (category : string) : bool :=
  bool_decide (only_category ≠ None ∧ only_category ≠ Some category).

(** The body of the second loop. *)
Definition final_state_step (file_structure : FileStructure)
    (only_category : option string) (collapse_same_categories : bool)
    (codes_per_solution : gmap (string * string) (gset string))
    (solution : solution) (state : dict state_entry) : result (dict state_entry) :=
  let hole_code := hole solution in
  let language_code := lang solution in
  let category := scoring solution in
  let date := submitted solution in
  let code := code solution in
  match codes_per_solution !! (hole_code, language_code) with
  | None => Raise (KeyError [hole_code; language_code])
  | Some codes =>
      let unique := bool_decide (size codes = 1) in
      if skipped only_category category then Ok state
      else
        path ← get_solution_path file_structure hole_code language_code
                 (category_argument collapse_same_categories unique only_category category);
        Ok (store state path code date)
  end.

Definition compute_final_state (file_structure : FileStructure)
    (only_category : option string) (collapse_same_categories : bool)
    (solutions : list solution) : result (dict state_entry) :=
  let codes_per_solution := collect_codes solutions in
  for_each (final_state_step file_structure only_category collapse_same_categories
              codes_per_solution) solutions [].

(** ** The directory tree below the output directory *)

(** What a name in a directory refers to: a regular file with its bytes, a
    directory, or something that exists and is neither (a FIFO, a socket, a
    device). Symbolic links are not modelled. *)
Inductive node :=
| File (data : string)
| Dir (entries : gmap string node)
| Special.

(** A path below the output directory, as the list of its segments; the
    empty list is the output directory itself. *)
Abbreviation rel_path := (list string).

Fixpoint node_lookup (n : node) (p : rel_path) : option node :=
  match p with
  | [] => Some n
  | name :: p' =>
      match n with
      | Dir entries => n' ← entries !! name; node_lookup n' p'
      | _ => None
      end
  end.

(** The file system is what the output path refers to, if anything. *)
Definition fs_lookup (fs : option node) (p : rel_path) : option node :=
  n ← fs; node_lookup n p.

Definition os_path_join (directory : rel_path) (name : string) : rel_path :=
  directory ++ [name].

Definition os_path_exists (fs : option node) (p : rel_path) : bool :=
  bool_decide (is_Some (fs_lookup fs p)).

Definition os_path_isfile (fs : option node) (p : rel_path) : bool :=
  match fs_lookup fs p with Some (File _) => true | _ => false end.

Definition os_path_isdir (fs : option node) (p : rel_path) : bool :=
  match fs_lookup fs p with Some (Dir _) => true | _ => false end.

Definition os_listdir (fs : option node) (p : rel_path) : result (list string) :=
  match fs_lookup fs p with
  | Some (Dir entries) => Ok (elements (dom entries))
  | Some _ => Raise (NotADirectoryError p)
  | None => Raise (FileNotFoundError p)
  end.

Definition CR : ascii := "013"%char.
Definition LF : ascii := "010"%char.

(** Text-mode reading ([open(p, "r")] leaves [newline=None]): a carriage
    return, alone or followed by a line feed, is read as one line feed. *)
Fixpoint universal_newlines (s : string) : string :=
  match s with
  | EmptyString => EmptyString
  | String c s' =>
      if Ascii.eqb c CR then
        String LF match s' with
                  | String c' s'' =>
                      if Ascii.eqb c' LF then universal_newlines s''
                      else universal_newlines s'
                  | EmptyString => EmptyString
                  end
      else String c (universal_newlines s')
  end.

(** [open(p, "r").read()]; a special file reads as empty. *)
Definition read_text (fs : option node) (p : rel_path) : result string :=
  match fs_lookup fs p with
  | Some (File data) => Ok (universal_newlines data)
  | Some (Dir _) => Raise (IsADirectoryError p)
  | Some Special => Ok ""
  | None => Raise (FileNotFoundError p)
  end.

(** [posixpath.join(a, b)] *)
Definition starts_with_slash (s : string) : bool :=
  match s with String c _ => Ascii.eqb c "/" | EmptyString => false end.

Fixpoint ends_with_slash (s : string) : bool :=
  match s with
  | EmptyString => false
  | String c EmptyString => Ascii.eqb c "/"
  | String _ s' => ends_with_slash s'
  end.

Definition posix_join (a b : string) : string :=
  if starts_with_slash b then b
  else if String.eqb a "" || ends_with_slash a then a +:+ b
  else a +:+ "/" +:+ b.

(** The string that the program holds for the path [p] below [output]. *)
Definition path_str (output : string) (p : rel_path) : string :=
  foldl posix_join output p.

(** ** Reconciliation *)

(** [{"parts": ..., "content": ...}] *)
Record needed_file := NeededFile {
  parts : list string;
  file_content : string;
}.

(** [{"path": ..., "content": ...}] *)
Record entry := Entry {
  path : rel_path;
  entry_content : string;
}.

Record changes := Changes {
  to_delete : list rel_path;
  files_to_update : list entry;
  files_to_create : list entry;
  directories_to_create : list rel_path;
}.

Definition delete_path (p : rel_path) (c : changes) : changes :=
  Changes (to_delete c ++ [p]) (files_to_update c) (files_to_create c)
    (directories_to_create c).
Definition update_file (e : entry) (c : changes) : changes :=
  Changes (to_delete c) (files_to_update c ++ [e]) (files_to_create c)
    (directories_to_create c).
Definition create_file (e : entry) (c : changes) : changes :=
  Changes (to_delete c) (files_to_update c) (files_to_create c ++ [e])
    (directories_to_create c).
Definition create_directory (p : rel_path) (c : changes) : changes :=
  Changes (to_delete c) (files_to_update c) (files_to_create c)
    (directories_to_create c ++ [p]).

(** [{**child, "parts": child["parts"][1:]}] *)
Definition advance (child : needed_file) : needed_file :=
  NeededFile (tail (parts child)) (file_content child).

(** [needed[head].append(child)] with [head = child["parts"][0]]. *)
Definition needed_add (child : needed_file) (needed : gmap string (list needed_file)) :
    result (gmap string (list needed_file)) :=
  match parts child with
  | [] => Raise IndexError
  | head :: _ => Ok (<[head := default [] (needed !! head) ++ [child]]> needed)
  end.

Section compute_changes.
Context (fs : option node) (should_delete : bool) (output : string).

(** The body of [for file in all_files], on the four lists and [explore]. *)
Definition visit (current_directory : rel_path)
    (needed : gmap string (list needed_file)) (file : string)
    (s : changes * list string) : result (changes * list string) :=
  let '(acc, explore) := s in
  let file_path := os_path_join current_directory file in
  let exists_ := os_path_exists fs file_path in
  let file_exists := os_path_isfile fs file_path in
  let directory_exists := os_path_isdir fs file_path in
  match needed !! file with
  | Some files_data =>
      let is_directory :=
        forallb (λ file_data, bool_decide (1 < length (parts file_data))) files_data in
      if is_directory then
        acc ←
          (if negb exists_ then Ok (create_directory file_path acc)
           else if negb directory_exists then
             if negb should_delete then
               Raise (Exception (path_str output file_path +:+ " exists and is not a directory"))
             else Ok (create_directory file_path (delete_path file_path acc))
           else Ok acc);
        Ok (acc, explore ++ [file])
      else
        match files_data with
        | [file_data] =>
            let content := file_content file_data in
            let entry := Entry file_path content in
            if negb exists_ then Ok (create_file entry acc, explore)
            else if file_exists then
              current_content ← read_text fs file_path;
              if bool_decide (current_content ≠ content)
              then Ok (update_file entry acc, explore)
              else Ok (acc, explore)
            else if negb should_delete then
              Raise (Exception (path_str output file_path +:+ " exists and is not a file"))
            else Ok (create_file entry (delete_path file_path acc), explore)
        | _ => Raise AssertionError
        end
  | None =>
      if should_delete && bool_decide (file ∉ DEFAULT_IGNORE_LIST)
      then Ok (delete_path file_path acc, explore)
      else Ok (acc, explore)
  end.

(** [depth] bounds the nesting of the recursive calls; [compute_changes]
    passes a bound that is never reached ([compute_changes_depth]). *)
Fixpoint walk_recursive (depth : nat) (current_directory : rel_path)
    (children : list needed_file) (acc : changes) : result changes :=
  match depth with
  | 0 => Raise RecursionError
  | S depth' =>
      current_directory_files ←
        (if os_path_exists fs current_directory
         then os_listdir fs current_directory else Ok []);
      needed ← for_each needed_add children ∅;
      let all_files :=
        merge_sort String.le
          (elements (list_to_set current_directory_files ∪ dom needed : gset string)) in
      '(acc, explore) ← for_each (visit current_directory needed) all_files (acc, []);
      for_each
        (λ file acc,
           walk_recursive depth' (os_path_join current_directory file)
             (advance <$> needed !!! file) acc)
        explore acc
  end.

Definition compute_changes (state : dict state_entry) : result changes :=
  let children := (λ '(path, e), NeededFile (split "/" path) (content e)) <$> state in
  walk_recursive (S (max_list (length ∘ parts <$> children))) [] children
    (Changes [] [] [] []).
End compute_changes.

(** ** Applying a change set *)

(** Code that mutates the tree and may raise: the tree reached when the
    exception is raised is kept (nothing is rolled back). *)
Definition io (A : Type) : Type := option node → option node * result A.

Definition io_for_each {B} (body : B → io unit) : list B → io unit :=
  fix go l fs :=
    match l with
    | [] => (fs, Ok ())
    | x :: l' =>
        match body x fs with
        | (fs', Ok _) => go l' fs'
        | (fs', Raise e) => (fs', Raise e)
        end
    end.

(** Replace what is at [p] by [g] of it, when the directories down to the
    parent of [p] exist. *)
Fixpoint path_alter (g : option node → option node) (p : rel_path)
    (o : option node) : option node :=
  match p with
  | [] => g o
  | name :: p' =>
      match o with
      | Some (Dir entries) => Some (Dir (partial_alter (path_alter g p') name entries))
      | _ => o
      end
  end.

(** The parent directory must exist for an entry to be made in it; the
    parent of the output directory is taken to exist. *)
Definition check_parent (fs : option node) (p : rel_path) : result unit :=
  match p with
  | [] => Ok ()
  | _ =>
      match fs_lookup fs (removelast p) with
      | Some (Dir _) => Ok ()
      | Some _ => Raise (NotADirectoryError p)
      | None => Raise (FileNotFoundError p)
      end
  end.

Definition shutil_rmtree (p : rel_path) : io unit := λ fs,
  match fs_lookup fs p with
  | Some (Dir _) => (path_alter (λ _, None) p fs, Ok ())
  | Some _ => (fs, Raise (NotADirectoryError p))
  | None => (fs, Raise (FileNotFoundError p))
  end.

Definition os_remove (p : rel_path) : io unit := λ fs,
  match fs_lookup fs p with
  | Some (Dir _) => (fs, Raise (IsADirectoryError p))
  | Some _ => (path_alter (λ _, None) p fs, Ok ())
  | None => (fs, Raise (FileNotFoundError p))
  end.

Definition os_mkdir (p : rel_path) : io unit := λ fs,
  match fs_lookup fs p with
  | Some _ => (fs, Raise (FileExistsError p))
  | None =>
      match check_parent fs p with
      | Ok _ => (path_alter (λ _, Some (Dir ∅)) p fs, Ok ())
      | Raise e => (fs, Raise e)
      end
  end.

(** [open(p, "w")] followed by [write(content)]: the bytes written are
    those of [content]; what goes to a special file leaves the tree as it
    is. *)
Definition write_text (p : rel_path) (content : string) : io unit := λ fs,
  match fs_lookup fs p with
  | Some (Dir _) => (fs, Raise (IsADirectoryError p))
  | Some Special => (fs, Ok ())
  | _ =>
      match check_parent fs p with
      | Ok _ => (path_alter (λ _, Some (File content)) p fs, Ok ())
      | Raise e => (fs, Raise e)
      end
  end.

Definition io_seq (a b : io unit) : io unit := λ fs,
  match a fs with
  | (fs', Ok _) => b fs'
  | (fs', Raise e) => (fs', Raise e)
  end.

Definition update_files (changes : changes) : io unit :=
  io_seq
    (io_for_each
       (λ file fs, if os_path_isdir fs file then shutil_rmtree file fs else os_remove file fs)
       (to_delete changes))
    (io_seq
       (io_for_each os_mkdir (directories_to_create changes))
       (io_seq
          (io_for_each (λ file_data, write_text (path file_data) (entry_content file_data))
             (files_to_update changes))
          (io_for_each (λ file_data, write_text (path file_data) (entry_content file_data))
             (files_to_create changes)))).

(** The part of [main] between the export and the commit: aggregate,
    reconcile and, unless nothing changes or [dry_run] is set, apply. The
    export has returned [data]; the confirmation prompt is answered yes. *)
Definition main (output : string) (structure : FileStructure)
    (only_scoring : option string)
    (no_scoring_name no_delete dry_run : bool) (data : list solution) : io unit := λ fs,
  match compute_final_state structure only_scoring (negb no_scoring_name) data with
  | Raise e => (fs, Raise e)
  | Ok state =>
      match compute_changes fs (negb no_delete) output state with
      | Raise e => (fs, Raise e)
      | Ok changes =>
          if bool_decide (length (to_delete changes) = 0 ∧ length (files_to_update changes) = 0
                          ∧ length (files_to_create changes) = 0
                          ∧ length (directories_to_create changes) = 0)
          then (fs, Ok ())
          else if dry_run then (fs, Ok ())
          else update_files changes fs
      end
  end.


(** ** Notions used to state the properties *)

Definition no_changes : changes := Changes [] [] [] [].

(** The lists of [a] followed by those of [b]. *)
Definition changes_app (a b : changes) : changes :=
  Changes (to_delete a ++ to_delete b) (files_to_update a ++ files_to_update b)
    (files_to_create a ++ files_to_create b)
    (directories_to_create a ++ directories_to_create b).

(** The children whose first segment is [file], in order: [needed[file]]. *)
Definition group_of (file : string) (children : list needed_file) : list needed_file :=
  filter (λ c, head (parts c) = Some file) children.

(** The names that the loop of [walk_recursive] goes through. *)
Definition all_files (current_directory_files : list string)
    (needed : gmap string (list needed_file)) : list string :=
  merge_sort String.le
    (elements (list_to_set current_directory_files ∪ dom needed : gset string)).

(** The listing that [walk_recursive] starts from. *)
Definition listing (fs : option node) (current_directory : rel_path) : result (list string) :=
  if os_path_exists fs current_directory
  then os_listdir fs current_directory else Ok [].

(** The strings held in the four lists, in the order paths-to-delete,
    directories-to-create, files-to-create, files-to-update. *)
Definition listed_paths (output : string) (c : changes) : list (list string) :=
  [path_str output <$> to_delete c;
   path_str output <$> directories_to_create c;
   path_str output ∘ path <$> files_to_create c;
   path_str output ∘ path <$> files_to_update c].

(** No string is in two of the lists [ls]. *)
Definition pairwise_disjoint (ls : list (list string)) : Prop :=
  ∀ i j l1 l2 x, i ≠ j → ls !! i = Some l1 → ls !! j = Some l2 → x ∈ l1 → x ∉ l2.

Definition parent (p : rel_path) : rel_path := removelast p.

(** Every directory to create has its parent on disk as a directory or
    earlier in the list. *)
Definition parents_first (fs : option node) (directories : list rel_path) : Prop :=
  ∀ i d, directories !! i = Some d →
    os_path_isdir fs (parent d) = true ∨ parent d ∈ take i directories.

(** The first two loops of [update_files]. *)
Definition delete_all (paths : list rel_path) : io unit :=
  io_for_each
    (λ file fs, if os_path_isdir fs file then shutil_rmtree file fs else os_remove file fs)
    paths.

Definition mkdir_all (directories : list rel_path) : io unit :=
  io_for_each os_mkdir directories.

(** A name that is an entry of a directory: not empty, not one of the two
    dot names (and free of slashes, which [split] ensures for segments). *)
Definition proper_name (s : string) : Prop := s ≠ "" ∧ s ≠ "." ∧ s ≠ "..".

(** Every key of the target mapping is a relative path made of proper names. *)
Definition proper_paths (state : dict state_entry) : Prop :=
  ∀ key, key ∈ state.*1 → Forall proper_name (split "/" key).

(** [sep.join(l)] *)
Fixpoint unsplit (sep : ascii) (l : list string) : string :=
  match l with
  | [] => ""
  | [w] => w
  | w :: ws => w +:+ String sep (unsplit sep ws)
  end.

(** No list is a prefix of a list at another position (so no two are equal). *)
Fixpoint prefix_free (l : list rel_path) : Prop :=
  match l with
  | [] => True
  | a :: l' => Forall (λ b, ¬ a `prefix_of` b ∧ ¬ b `prefix_of` a) l' ∧ prefix_free l'
  end.

(** No key of the target mapping has a segment list that is a proper prefix
    of the segment list of another key. *)
Definition no_proper_prefix (state : dict state_entry) : Prop :=
  Forall (λ k1, Forall (λ k2,
    split "/" k1 `prefix_of` split "/" k2 → split "/" k1 = split "/" k2) state.*1) state.*1.

(** [r], relative to the directory being walked, must be a directory: some
    child goes through it to something deeper and none ends at it. *)
Definition needed_directory (children : list needed_file) (r : rel_path) : Prop :=
  (∃ c t, c ∈ children ∧ t ≠ [] ∧ parts c = r ++ t)
  ∧ (∀ c, c ∈ children → parts c ≠ r).

(** What holds of a path that a walk of [cur] with [children] puts in the
    paths to delete: it exists, in the walked directory or in a needed
    directory below it, nothing needed lies below it, and it is either not
    needed and not ignored, or a needed file whose name is taken by
    something that is not a regular file. *)
Definition delete_ok (fs : option node) (should_delete : bool)
    (children : list needed_file) (cur p : rel_path) : Prop :=
  ∃ r file,
    p = cur ++ r ++ [file]
    ∧ should_delete = true
    ∧ is_Some (fs_lookup fs p)
    ∧ (r = [] ∨ needed_directory children r)
    ∧ (∀ c t, c ∈ children → parts c = (r ++ [file]) ++ t → t = [])
    ∧ (((∀ c, c ∈ children → ¬ (r ++ [file]) `prefix_of` parts c)
        ∧ file ∉ DEFAULT_IGNORE_LIST)
       ∨ ((∃ c, c ∈ children ∧ parts c = r ++ [file])
          ∧ ∀ data, fs_lookup fs p ≠ Some (File data))).

(** ... in the directories to create: a needed directory that is absent. *)
Definition directory_ok (fs : option node) (children : list needed_file)
    (cur p : rel_path) : Prop :=
  ∃ r, r ≠ [] ∧ p = cur ++ r ∧ fs_lookup fs p = None ∧ needed_directory children r.

(** ... in the files to create: a child, with its content, that is not a
    regular file on disk. *)
Definition create_ok (fs : option node) (children : list needed_file)
    (cur : rel_path) (e : entry) : Prop :=
  ∃ c, c ∈ children ∧ path e = cur ++ parts c ∧ entry_content e = file_content c
       ∧ ∀ data, fs_lookup fs (path e) ≠ Some (File data).

(** ... in the files to update: a child, with its content, that is a
    regular file on disk which reads differently. *)
Definition update_ok (fs : option node) (children : list needed_file)
    (cur : rel_path) (e : entry) : Prop :=
  ∃ c data, c ∈ children ∧ path e = cur ++ parts c ∧ entry_content e = file_content c
            ∧ fs_lookup fs (path e) = Some (File data)
            ∧ universal_newlines data ≠ file_content c.

(** The file [p] with [content] is accounted for by the change set [d]:
    absent and created, a regular file that reads as [content] or is
    updated, or something else that is deleted and created. *)
Definition file_scheduled (fs : option node) (d : changes) (p : rel_path)
    (content : string) : Prop :=
  match fs_lookup fs p with
  | None => Entry p content ∈ files_to_create d
  | Some (File data) =>
      universal_newlines data = content ∨ Entry p content ∈ files_to_update d
  | Some _ => p ∈ to_delete d ∧ Entry p content ∈ files_to_create d
  end.

(** The directory [p] is accounted for by [d]: a directory on disk, or
    absent and created. *)
Definition directory_scheduled (fs : option node) (d : changes) (p : rel_path) : Prop :=
  match fs_lookup fs p with
  | None => p ∈ directories_to_create d
  | Some (Dir _) => True
  | Some _ => False
  end.

(** Every entry of [d'] is in the same list of [d]. *)
Definition changes_included (d' d : changes) : Prop :=
  to_delete d' ⊆ to_delete d
  ∧ files_to_update d' ⊆ files_to_update d
  ∧ files_to_create d' ⊆ files_to_create d
  ∧ directories_to_create d' ⊆ directories_to_create d.

(** The children that [compute_changes] starts from. *)
Definition state_children (state : dict state_entry) : list needed_file :=
  (λ '(path, e), NeededFile (split "/" path) (content e)) <$> state.

(** The exceptions that [compute_changes] can end in, with what is on disk
    at the path they name: a listing of something that is not a directory,
    the leaf assertion, and, with deletion disabled, the two type
    conflicts. *)
Definition reconcile_error (fs : option node) (should_delete : bool)
    (output : string) (e : exn) : Prop :=
  (∃ p n, e = NotADirectoryError p ∧ fs_lookup fs p = Some n ∧ ∀ entries, n ≠ Dir entries)
  ∨ e = AssertionError
  ∨ (should_delete = false
     ∧ ∃ p n, fs_lookup fs p = Some n
       ∧ ((e = Exception (path_str output p +:+ " exists and is not a directory")
           ∧ ∀ entries, n ≠ Dir entries)
          ∨ (e = Exception (path_str output p +:+ " exists and is not a file")
             ∧ ∀ data, n ≠ File data))).

(** No character of [s] is a slash. *)
Fixpoint no_slash (s : string) : bool :=
  match s with
  | EmptyString => true
  | String c s' => negb (Ascii.eqb c "/") && no_slash s'
  end.

(** A segment that [os.path.join] appends after a separator: not empty and
    free of slashes. *)
Definition plain_segment (s : string) : Prop := s ≠ "" ∧ no_slash s = true.

(** The separator that [posixpath.join] puts after [a]. *)
Definition join_separator (a : string) : string :=
  if String.eqb a "" || ends_with_slash a then "" else "/".

(** The segments [r], each after a slash. *)
Fixpoint tail_str (r : rel_path) : string :=
  match r with
  | [] => ""
  | s :: r' => "/" +:+ s +:+ tail_str r'
  end.

(** No key of the target mapping has an empty segment: none is empty, starts
    or ends with a slash, or has two slashes in a row. *)
Definition segments_nonempty (state : dict state_entry) : Prop :=
  ∀ key, key ∈ state.*1 → "" ∉ split "/" key.

(** Every name in the tree is a plain segment, as the names that a
    directory listing returns are. *)
Definition plain_tree (fs : option node) : Prop :=
  ∀ p, is_Some (fs_lookup fs p) → Forall plain_segment p.

(** The path strings held in each of the four lists. *)
Definition deleted_strs (output : string) (d : changes) : list string :=
  path_str output <$> to_delete d.
Definition directory_strs (output : string) (d : changes) : list string :=
  path_str output <$> directories_to_create d.
Definition created_strs (output : string) (d : changes) : list string :=
  path_str output ∘ path <$> files_to_create d.
Definition updated_strs (output : string) (d : changes) : list string :=
  path_str output ∘ path <$> files_to_update d.

(** A check, down to the depth [k], that the names in a tree are plain. *)
Fixpoint plain_node (k : nat) (n : node) : Prop :=
  match n with
  | Dir entries =>
      match k with
      | 0 => entries = ∅
      | S k' => map_Forall (λ name n', plain_segment name ∧ plain_node k' n') entries
      end
  | _ => True
  end.

#[global] Instance plain_node_dec (k : nat) (n : node) : Decision (plain_node k n).
Proof.
  revert n. induction k as [|k IH]; intros [| |]; simpl; apply _.
Defined.

(** The number of distinct codes in the (hole, language) group of [s]. *)
Definition diversity (solutions : list solution) (s : solution) : nat :=
  size (default ∅ (collect_codes solutions !! (hole s, lang s))).

(** Every record of the (hole, language) group of [s] has the code of [s]. *)
Definition same_code_group (solutions : list solution) (s : solution) : Prop :=
  ∀ s', s' ∈ solutions → hole s' = hole s → lang s' = lang s → code s' = code s.

(** The path that the second loop of [compute_final_state] resolves for a
    record of [solutions], if the record is not skipped and its language is
    known. *)
Definition record_path (file_structure : FileStructure) (only_category : option string)
    (collapse_same_categories : bool) (solutions : list solution) (s : solution) :
    option string :=
  if skipped only_category (scoring s) then None
  else
    match get_solution_path file_structure (hole s) (lang s)
            (category_argument collapse_same_categories
               (bool_decide (diversity solutions s = 1)) only_category (scoring s)) with
    | Ok p => Some p
    | Raise _ => None
    end.

(** The record [s], at position [i], has the greatest timestamp among the
    records that resolve to [p], and is the first of those that have it. *)
Definition latest_first (path_of : solution → option string) (solutions : list solution)
    (p : string) (i : nat) (s : solution) : Prop :=
  solutions !! i = Some s ∧ path_of s = Some p
  ∧ ∀ j s', solutions !! j = Some s' → path_of s' = Some p →
      String.leb (submitted s') (submitted s) = true
      ∧ (j < i → String.leb (submitted s) (submitted s') = false).

(** * Proof automation *)

(** Reduce the binds of the error monad. *)
Ltac simpl_result := cbn [mbind mret result_bind result_ret] in *.

(** Unfold an append whose first string starts with a known character. *)
Ltac app_cons :=
  repeat match goal with
         | |- context [String ?c ?s +:+ ?t] =>
             change (String c s +:+ t) with (String c (s +:+ t))
         | |- context [EmptyString +:+ ?t] => change (EmptyString +:+ t) with t
         end.

(** The number of segments of the paths of a layout. *)
Definition layout_depth (file_structure : FileStructure) : nat :=
  match file_structure with
  | HOLE_EXTENSION => 1
  | _ => 2
  end.

(** What a path refers to, without the entries of a directory. *)
Inductive kind :=
| KFile (data : string)
| KDir
| KSpecial.

Definition kind_of (n : node) : kind :=
  match n with
  | File data => KFile data
  | Dir _ => KDir
  | Special => KSpecial
  end.

Definition fs_kind (fs : option node) (p : rel_path) : option kind :=
  kind_of <$> fs_lookup fs p.

(** The directories down to the parent of [p] exist: [path_alter] reaches
    [p]. *)
Definition reachable (fs : option node) (p : rel_path) : Prop :=
  p = [] ∨ fs_kind fs (parent p) = Some KDir.

(** Nothing is below [v]: nothing at all, a file, or an empty directory. *)
Definition childless (v : option node) : Prop :=
  ∀ q, q ≠ [] → fs_lookup v q = None.

(** Every directory of the list has a parent that satisfies [base] or is
    earlier in the list. *)
Definition parents_before (base : rel_path → Prop) (directories : list rel_path) : Prop :=
  ∀ i d, directories !! i = Some d → base (parent d) ∨ parent d ∈ take i directories.

(** A change set for the tree [fs] that [update_files] can carry out: the
    paths to delete exist and none is below another; the directories to
    create are absent, each after its parent, and none is below a deleted
    path; the files to update are regular files that are not deleted; the
    files to create are at free or deleted paths, in a directory that is
    created or that exists and is not deleted. *)
Record applicable (fs : option node) (d : changes) : Prop := Applicable {
  delete_free : prefix_free (to_delete d);
  delete_exists : ∀ p, p ∈ to_delete d → is_Some (fs_kind fs p);
  directories_NoDup : NoDup (directories_to_create d);
  directories_absent :
    ∀ p, p ∈ directories_to_create d → p ≠ [] ∧ fs_kind fs p = None;
  directories_order : parents_first fs (directories_to_create d);
  directories_kept :
    ∀ p p', p ∈ directories_to_create d → p' ∈ to_delete d → ¬ p' `prefix_of` p;
  update_NoDup : NoDup (path <$> files_to_update d);
  update_regular :
    ∀ e, e ∈ files_to_update d →
      (∃ data, fs_kind fs (path e) = Some (KFile data))
      ∧ ∀ p', p' ∈ to_delete d → ¬ p' `prefix_of` path e;
  create_NoDup : NoDup (path <$> files_to_create d);
  create_free :
    ∀ e, e ∈ files_to_create d →
      (path e ∉ directories_to_create d)
      ∧ (fs_kind fs (path e) = None ∨ path e ∈ to_delete d);
  create_parent :
    ∀ e, e ∈ files_to_create d →
      path e ≠ []
      ∧ (parent (path e) ∈ directories_to_create d
         ∨ (fs_kind fs (parent (path e)) = Some KDir
            ∧ ∀ p', p' ∈ to_delete d → ¬ p' `prefix_of` parent (path e)));
}.

(** The exceptions that a walk of [cur] with [children] can end in, each
    with the path at fault, [r] below [cur]: a listing of the walked
    directory or, with deletion enabled, of a needed directory, that is
    on disk and not a directory; the leaf assertion; with deletion
    disabled, a needed directory that is on disk and not a directory, or
    a child that is on disk and not a regular file. *)
Definition walk_error (fs : option node) (should_delete : bool) (output : string)
    (children : list needed_file) (cur : rel_path) (e : exn) : Prop :=
  (∃ r n, e = NotADirectoryError (cur ++ r)
          ∧ (r = [] ∨ (should_delete = true ∧ needed_directory children r))
          ∧ fs_lookup fs (cur ++ r) = Some n ∧ ∀ entries, n ≠ Dir entries)
  ∨ e = AssertionError
  ∨ (should_delete = false
     ∧ ∃ r n, fs_lookup fs (cur ++ r) = Some n
       ∧ ((e = Exception (path_str output (cur ++ r) +:+ " exists and is not a directory")
           ∧ needed_directory children r ∧ ∀ entries, n ≠ Dir entries)
          ∨ (e = Exception (path_str output (cur ++ r) +:+ " exists and is not a file")
             ∧ (∃ c, c ∈ children ∧ parts c = r) ∧ ∀ data, n ≠ File data))).

(** The tree matches the target mapping: the output directory is a
    directory or absent, every target path is a regular file that reads
    as its content and, with deletion enabled, whatever else is in the
    output directory or in a needed directory has an ignored name or is
    on the way to a target path. *)
Definition in_place (fs : option node) (should_delete : bool)
    (state : dict state_entry) : Prop :=
  (fs_lookup fs [] = None ∨ ∃ entries, fs_lookup fs [] = Some (Dir entries))
  ∧ (∀ key e, (key, e) ∈ state →
       ∃ data, fs_lookup fs (split "/" key) = Some (File data)
               ∧ universal_newlines data = content e)
  ∧ (should_delete = true →
     ∀ r file,
       r = [] ∨ needed_directory (state_children state) r →
       is_Some (fs_lookup fs (r ++ [file])) →
       file ∈ DEFAULT_IGNORE_LIST
       ∨ ∃ key, key ∈ state.*1 ∧ (r ++ [file]) `prefix_of` split "/" key).

(** No character of [s] is a carriage return. *)
Fixpoint no_carriage_return (s : string) : bool :=
  match s with
  | EmptyString => true
  | String c s' => negb (Ascii.eqb c CR) && no_carriage_return s'
  end.

(** The paths of the files that a change set writes. *)
Definition written_paths (d : changes) : list rel_path :=
  path <$> files_to_update d ++ files_to_create d.

(** * Properties *)

(** ** Strings *)

Lemma leb_false_ltb (a b : string) :
  String.leb a b = false ↔ String.ltb b a = true.
Proof.
  unfold String.leb, String.ltb. rewrite (String.compare_antisym b a).
  destruct (String.compare a b); simpl; split; congruence.
Qed.

(** ** The result monad *)

Lemma bind_Ok {A B} (m : result A) (f : A → result B) (b : B) :
  m ≫= f = Ok b ↔ ∃ a, m = Ok a ∧ f a = Ok b.
Proof.
  destruct m as [a|e]; simpl; split.
  - eauto.
  - intros (a' & [= <-] & ?); done.
  - done.
  - intros (? & ? & ?); done.
Qed.

Lemma for_each_app {A B} (body : B → A → result A) (l1 l2 : list B) (a : A) :
  for_each body (l1 ++ l2) a = for_each body l1 a ≫= for_each body l2.
Proof.
  revert a. induction l1 as [|x l1 IH]; intros a; simpl; [done|].
  destruct (body x a) as [a'|e]; simpl; [apply IH|done].
Qed.

(** An invariant kept by every iteration holds when the loop ends. *)
Lemma for_each_invariant {A B} (I : A → Prop) (body : B → A → result A)
    (l : list B) (a a' : A) :
  (∀ x s s', x ∈ l → I s → body x s = Ok s' → I s') →
  I a → for_each body l a = Ok a' → I a'.
Proof.
  revert a. induction l as [|x l IH]; intros a Hstep Ha; simpl.
  - by intros [= <-].
  - intros (s & Hs & Hrest)%bind_Ok.
    eapply IH; [| |exact Hrest].
    + intros ? ? ? ?. apply Hstep. by right.
    + eapply Hstep; [left|..]; done.
Qed.

(** ** Dictionaries *)

Lemma dict_get_set {V} (d : dict V) (k : string) (v : V) :
  dict_get (dict_set d k v) k = Some v.
Proof.
  induction d as [|[k' v'] d IH]; simpl.
  - by rewrite decide_True.
  - destruct (decide (k' = k)) as [->|Hne]; simpl.
    + by rewrite decide_True.
    + by rewrite decide_False.
Qed.

Lemma dict_get_set_ne {V} (d : dict V) (k k' : string) (v : V) :
  k ≠ k' → dict_get (dict_set d k v) k' = dict_get d k'.
Proof.
  intros Hne. induction d as [|[k0 v0] d IH]; simpl.
  - by rewrite decide_False.
  - destruct (decide (k0 = k)) as [->|Hne0]; simpl.
    + by rewrite !decide_False.
    + destruct (decide (k0 = k')); done.
Qed.

(** ** State aggregation *)

Lemma add_code_lookup (s : solution) (m : gmap (string * string) (gset string))
    (k : string * string) (c : string) :
  c ∈ default ∅ (add_code s m !! k) ↔
  c ∈ default ∅ (m !! k) ∨ ((hole s, lang s) = k ∧ code s = c).
Proof.
  unfold add_code. destruct (decide ((hole s, lang s) = k)) as [<-|Hne].
  - rewrite lookup_insert_eq. simpl. set_solver.
  - rewrite lookup_insert_ne by done. naive_solver.
Qed.

Lemma collect_codes_elem_of (solutions : list solution) (k : string * string) (c : string) :
  c ∈ default ∅ (collect_codes solutions !! k) ↔
  ∃ s, s ∈ solutions ∧ (hole s, lang s) = k ∧ code s = c.
Proof.
  unfold collect_codes.
  induction solutions as [|s l IH] using rev_ind.
  - simpl. rewrite lookup_empty. simpl. set_solver.
  - rewrite foldl_app. simpl. rewrite add_code_lookup, IH. set_solver.
Qed.

Lemma collect_codes_is_Some (solutions : list solution) (s : solution) :
  s ∈ solutions → is_Some (collect_codes solutions !! (hole s, lang s)).
Proof.
  intros Hs.
  assert (code s ∈ default ∅ (collect_codes solutions !! (hole s, lang s))) as Hc.
  { apply collect_codes_elem_of. eauto. }
  destruct (collect_codes solutions !! (hole s, lang s)); [eauto|set_solver].
Qed.

(** The group has diversity 1 exactly when all its records share one code. *)
Lemma diversity_one (solutions : list solution) (s : solution) (codes : gset string) :
  s ∈ solutions →
  collect_codes solutions !! (hole s, lang s) = Some codes →
  size codes = 1 ↔ same_code_group solutions s.
Proof.
  intros Hs Hcodes.
  assert (∀ c, c ∈ codes ↔ ∃ s', s' ∈ solutions ∧ (hole s', lang s') = (hole s, lang s) ∧ code s' = c) as Hin.
  { intros c. rewrite <-collect_codes_elem_of, Hcodes. done. }
  split.
  - intros (c & Hc)%size_1_elem_of s' Hs' Hh Hl.
    assert (code s' ∈ codes) as H1 by (apply Hin; exists s'; rewrite Hh, Hl; done).
    assert (code s ∈ codes) as H2 by (apply Hin; eauto).
    set_solver.
  - intros Hsame. assert (codes = {[code s]}) as ->; [|apply size_singleton].
    apply set_eq. intros c. rewrite Hin, elem_of_singleton. split.
    + intros (s' & Hs' & [= Hh Hl] & <-). by apply Hsame.
    + intros ->. eauto.
Qed.

Lemma final_state_step_unfold (file_structure : FileStructure)
    (only_category : option string) (collapse : bool)
    (solutions : list solution) (s : solution) (state : dict state_entry) :
  s ∈ solutions → skipped only_category (scoring s) = false →
  final_state_step file_structure only_category collapse (collect_codes solutions) s state
  = path ← get_solution_path file_structure (hole s) (lang s)
             (category_argument collapse (bool_decide (diversity solutions s = 1))
                only_category (scoring s));
    Ok (store state path (code s) (submitted s)).
Proof.
  intros Hs Hskip. unfold final_state_step, diversity.
  destruct (collect_codes_is_Some solutions s Hs) as [codes ->].
  cbv beta iota zeta. by rewrite Hskip.
Qed.


(** C4: the category handed to [get_solution_path] is absent exactly when
    collapsing is enabled, the (hole, language) group of the record has
    diversity 1 (all its records share one code) and no category filter is
    set; otherwise it is the category of the record. An absent category
    leaves the suffix out, a category puts it in. The command line admits
    only non-empty names for the filter. *)
Theorem category_collapse (file_structure : FileStructure)
    (only_category : option string) (collapse_same_categories : bool)
    (solutions : list solution) (s : solution) (state : dict state_entry) :
  s ∈ solutions → skipped only_category (scoring s) = false →
  only_category ≠ Some "" →
  ∃ category : option string,
    final_state_step file_structure only_category collapse_same_categories
      (collect_codes solutions) s state
    = (path ← get_solution_path file_structure (hole s) (lang s) category;
       Ok (store state path (code s) (submitted s)))
    ∧ (category = None ↔
       collapse_same_categories = true ∧ diversity solutions s = 1 ∧ only_category = None)
    ∧ (category ≠ None → category = Some (scoring s))
    ∧ (diversity solutions s = 1 ↔ same_code_group solutions s)
    ∧ (category = None → category_suffix category = "")
    ∧ (category = Some (scoring s) → scoring s ≠ "" →
       category_suffix category = "-" +:+ scoring s).
Proof.
  intros Hs Hskip Hne.
  exists (category_argument collapse_same_categories
            (bool_decide (diversity solutions s = 1)) only_category (scoring s)).
  split; [by apply final_state_step_unfold|].
  assert (truthy only_category = false ↔ only_category = None) as Htruthy.
  { destruct only_category as [c|]; simpl; [|done].
    destruct (String.eqb_spec c ""); naive_solver. }
  assert (diversity solutions s = 1 ↔ same_code_group solutions s) as Hdiv.
  { unfold diversity. destruct (collect_codes_is_Some solutions s Hs) as [codes Hc].
    rewrite Hc. by apply diversity_one. }
  assert (∀ c, c ≠ "" → category_suffix (Some c) = "-" +:+ c) as Hsuffix.
  { intros c Hc. unfold category_suffix, truthy.
    by destruct (String.eqb_spec c ""). }
  unfold category_argument.
  destruct collapse_same_categories,
    (bool_decide_reflect (diversity solutions s = 1)) as [Hd|Hd],
    (truthy only_category) eqn:Ht; cbn [andb negb];
    (split; [|split; [|split; [exact Hdiv|split]]]);
    try done; try (intros ? ?; by apply Hsuffix);
    try (split; [done|]; intros (? & ? & ?); try done).
  - apply Htruthy in H1. congruence.
  - split; [intros _|done]. split; [done|]. split; [done|]. by apply Htruthy.
Qed.

Lemma category_collapse_witness :
  ∃ category : option string,
    final_state_step HOLE_LANGUAGE_EXTENSION None true
      (collect_codes [Solution "fizz-buzz" "python" "bytes" "2024-01-01" "A";
                      Solution "fizz-buzz" "python" "chars" "2024-01-02" "A"])
      (Solution "fizz-buzz" "python" "chars" "2024-01-02" "A") []
    = (path ← get_solution_path HOLE_LANGUAGE_EXTENSION "fizz-buzz" "python" category;
       Ok (store [] path "A" "2024-01-02"))
    ∧ category = None.
Proof.
  destruct (category_collapse HOLE_LANGUAGE_EXTENSION None true
              [Solution "fizz-buzz" "python" "bytes" "2024-01-01" "A";
               Solution "fizz-buzz" "python" "chars" "2024-01-02" "A"]
              (Solution "fizz-buzz" "python" "chars" "2024-01-02" "A") [])
    as (category & Hstep & Hnone & _).
  - apply list_elem_of_In. simpl. auto.
  - reflexivity.
  - discriminate.
  - exists category. split; [exact Hstep|].
    apply Hnone. split; [reflexivity|]. split; [|reflexivity]. vm_compute. reflexivity.
Defined.

(** C3: when the record resolves to a path that the mapping already holds,
    it replaces the stored entry if its timestamp is strictly greater than
    the stored one and leaves the mapping as it is otherwise; in particular
    the entry seen first is kept on equal timestamps. That the record
    resolves to [p] is read off the step on the empty mapping. *)
Theorem overwrite_iff_strictly_later (file_structure : FileStructure)
    (only_category : option string) (collapse_same_categories : bool)
    (codes_per_solution : gmap (string * string) (gset string))
    (s : solution) (state : dict state_entry) (p : string) (first old : state_entry) :
  final_state_step file_structure only_category collapse_same_categories
    codes_per_solution s [] = Ok [(p, first)] →
  dict_get state p = Some old →
  let step :=
    final_state_step file_structure only_category collapse_same_categories
      codes_per_solution s state in
  (String.ltb (date old) (submitted s) = true →
     step = Ok (dict_set state p (StateEntry (code s) (submitted s))))
  ∧ (String.ltb (date old) (submitted s) = false → step = Ok state)
  ∧ (submitted s = date old → step = Ok state).
Proof.
  intros Hp Hold step. subst step. unfold final_state_step in *.
  destruct (codes_per_solution !! (hole s, lang s)) as [codes|]; [|done].
  destruct (skipped only_category (scoring s)); [done|].
  destruct (get_solution_path _ _ _ _) as [q|]; [|done].
  simpl in *. unfold store in Hp. simpl in Hp. injection Hp as -> _.
  unfold store. rewrite Hold. destruct old as [c d]. simpl.
  assert (String.ltb d (submitted s) = false → String.leb (submitted s) d = true) as Hle.
  { intros Hlt. destruct (String.leb (submitted s) d) eqn:Hleb; [done|].
    apply leb_false_ltb in Hleb. congruence. }
  repeat split.
  - intros Hlt. apply leb_false_ltb in Hlt. by rewrite Hlt.
  - intros Hlt. by rewrite (Hle Hlt).
  - intros Heq. rewrite Hle; [done|]. rewrite Heq.
    unfold String.ltb. destruct (String.compare d d) eqn:Hc; try done.
    pose proof (String.compare_antisym d d) as Ha. rewrite Hc in Ha. done.
Qed.

Lemma overwrite_iff_strictly_later_witness :
  final_state_step HOLE_EXTENSION None false
    (collect_codes [Solution "fizz-buzz" "python" "bytes" "2024-01-01" "B"])
    (Solution "fizz-buzz" "python" "bytes" "2024-01-01" "B")
    [("fizz-buzz-bytes.py", StateEntry "A" "2024-01-01")]
  = Ok [("fizz-buzz-bytes.py", StateEntry "A" "2024-01-01")].
Proof.
  refine (proj2 (proj2 (overwrite_iff_strictly_later HOLE_EXTENSION None false
    (collect_codes [Solution "fizz-buzz" "python" "bytes" "2024-01-01" "B"])
    (Solution "fizz-buzz" "python" "bytes" "2024-01-01" "B")
    [("fizz-buzz-bytes.py", StateEntry "A" "2024-01-01")]
    "fizz-buzz-bytes.py" (StateEntry "B" "2024-01-01") (StateEntry "A" "2024-01-01")
    _ _)) _).
  - vm_compute. reflexivity.
  - reflexivity.
  - reflexivity.
Defined.

Lemma final_state_step_result (file_structure : FileStructure)
    (only_category : option string) (collapse : bool)
    (codes : gmap (string * string) (gset string))
    (x : solution) (state : dict state_entry) :
  is_Some (codes !! (hole x, lang x)) →
  let step := final_state_step file_structure only_category collapse codes x state in
  (skipped only_category (scoring x) = false
   ∧ LANGUAGE_NAMES_EXTENSIONS !! lang x = None
   ∧ step = Raise (KeyError [lang x]))
  ∨ ((skipped only_category (scoring x) = true
      ∨ is_Some (LANGUAGE_NAMES_EXTENSIONS !! lang x))
     ∧ ∃ state', step = Ok state').
Proof.
  intros [cs Hcs]. unfold final_state_step. cbv zeta. rewrite Hcs.
  destruct (skipped only_category (scoring x)); [right; eauto|].
  unfold get_solution_path.
  destruct (LANGUAGE_NAMES_EXTENSIONS !! lang x) as [[? ?]|] eqn:Hx.
  - right. split; [eauto|]. eexists. reflexivity.
  - left. done.
Qed.

Lemma final_state_raises (file_structure : FileStructure)
    (only_category : option string) (collapse : bool)
    (codes : gmap (string * string) (gset string))
    (solutions : list solution) (state : dict state_entry) :
  (∀ s, s ∈ solutions → is_Some (codes !! (hole s, lang s))) →
  (∃ s, s ∈ solutions ∧ LANGUAGE_NAMES_EXTENSIONS !! lang s = None
        ∧ skipped only_category (scoring s) = false) →
  ∃ l, LANGUAGE_NAMES_EXTENSIONS !! l = None
       ∧ for_each (final_state_step file_structure only_category collapse codes)
           solutions state = Raise (KeyError [l]).
Proof.
  revert state. induction solutions as [|x l IH]; intros state Hcodes (s & Hs & Hl & Hskip).
  { by apply elem_of_nil in Hs. }
  cbn [for_each].
  destruct (final_state_step_result file_structure only_category collapse codes x state)
    as [(_ & Hx & ->)|(Hok & state' & ->)].
  - apply Hcodes. left.
  - exists (lang x). done.
  - change (Ok state' ≫= ?f) with (f state'). apply IH.
    + intros ? ?. apply Hcodes. by right.
    + exists s. split; [|done].
      apply elem_of_cons in Hs as [->|Hs]; [|done].
      destruct Hok as [Hok|[? Hok]]; congruence.
Qed.

(** C8: resolving a path for a language that is not a key of the language
    table raises, whatever the layout, the hole and the category; a record
    that is not skipped and has such a language makes the aggregation raise
    a [KeyError] for an unknown language, and [main] then returns the tree
    it was given, nothing having been changed. *)
Theorem unknown_language_fatal (output : string) (file_structure : FileStructure)
    (hole_code language_code : string) (category only_scoring : option string)
    (no_scoring_name no_delete dry_run : bool) (data : list solution)
    (s : solution) (fs : option node) :
  LANGUAGE_NAMES_EXTENSIONS !! language_code = None →
  get_solution_path file_structure hole_code language_code category
    = Raise (KeyError [language_code])
  ∧ (s ∈ data → lang s = language_code → skipped only_scoring (scoring s) = false →
     ∃ l, LANGUAGE_NAMES_EXTENSIONS !! l = None
          ∧ compute_final_state file_structure only_scoring (negb no_scoring_name) data
            = Raise (KeyError [l])
          ∧ main output file_structure only_scoring no_scoring_name no_delete dry_run data fs
            = (fs, Raise (KeyError [l]))).
Proof.
  intros Hl. split.
  - unfold get_solution_path. by rewrite Hl.
  - intros Hs <- Hskip.
    destruct (final_state_raises file_structure only_scoring (negb no_scoring_name)
                (collect_codes data) data []) as (l & Hunknown & Hraise).
    + intros. by apply collect_codes_is_Some.
    + eauto.
    + exists l. unfold main, compute_final_state. by rewrite Hraise.
Qed.

Lemma unknown_language_fatal_witness :
  get_solution_path HOLE_EXTENSION "fizz-buzz" "klingon" (Some "bytes")
    = Raise (KeyError ["klingon"])
  ∧ ∃ l, LANGUAGE_NAMES_EXTENSIONS !! l = None
         ∧ compute_final_state HOLE_EXTENSION None (negb false)
             [Solution "fizz-buzz" "python" "bytes" "2024-01-01" "A";
              Solution "fizz-buzz" "klingon" "bytes" "2024-01-01" "B"]
           = Raise (KeyError [l])
         ∧ main "out" HOLE_EXTENSION None false false false
             [Solution "fizz-buzz" "python" "bytes" "2024-01-01" "A";
              Solution "fizz-buzz" "klingon" "bytes" "2024-01-01" "B"]
             (Some (Dir ∅))
           = (Some (Dir ∅), Raise (KeyError [l])).
Proof.
  destruct (unknown_language_fatal "out" HOLE_EXTENSION "fizz-buzz" "klingon"
    (Some "bytes") None false false false
    [Solution "fizz-buzz" "python" "bytes" "2024-01-01" "A";
     Solution "fizz-buzz" "klingon" "bytes" "2024-01-01" "B"]
    (Solution "fizz-buzz" "klingon" "bytes" "2024-01-01" "B") (Some (Dir ∅)))
    as [Hpath Hmain].
  - vm_compute. reflexivity.
  - split; [exact Hpath|]. apply Hmain.
    + apply list_elem_of_In. simpl. auto.
    + reflexivity.
    + reflexivity.
Defined.

(** ** Change sets as fragments *)

Lemma changes_app_no_changes_r (a : changes) : changes_app a no_changes = a.
Proof. destruct a. unfold changes_app. simpl. by rewrite !app_nil_r. Qed.

Lemma changes_app_no_changes_l (a : changes) : changes_app no_changes a = a.
Proof. by destruct a. Qed.

Lemma changes_app_assoc (a b c : changes) :
  changes_app a (changes_app b c) = changes_app (changes_app a b) c.
Proof. unfold changes_app. simpl. by rewrite !app_assoc. Qed.

Lemma delete_path_app (p : rel_path) (a : changes) :
  delete_path p a = changes_app a (delete_path p no_changes).
Proof. destruct a. unfold delete_path, changes_app. simpl. by rewrite !app_nil_r. Qed.

Lemma update_file_app (e : entry) (a : changes) :
  update_file e a = changes_app a (update_file e no_changes).
Proof. destruct a. unfold update_file, changes_app. simpl. by rewrite !app_nil_r. Qed.

Lemma create_file_app (e : entry) (a : changes) :
  create_file e a = changes_app a (create_file e no_changes).
Proof. destruct a. unfold create_file, changes_app. simpl. by rewrite !app_nil_r. Qed.

Lemma create_directory_app (p : rel_path) (a : changes) :
  create_directory p a = changes_app a (create_directory p no_changes).
Proof. destruct a. unfold create_directory, changes_app. simpl. by rewrite !app_nil_r. Qed.

Lemma for_each_Raise {A B} (body : B → A → result A) (l : list B) (a : A) (e : exn) :
  for_each body l a = Raise e → ∃ x s, x ∈ l ∧ body x s = Raise e.
Proof.
  revert a. induction l as [|x l IH]; intros a; simpl; [done|].
  destruct (body x a) as [a'|e'] eqn:Hx; simpl.
  - intros (y & s & ? & ?)%IH. exists y, s. split; [by right|done].
  - intros [= ->]. exists x, a. split; [left|done].
Qed.

(** The recursive case of [walk_recursive]. *)
Lemma walk_recursive_S (fs : option node) (should_delete : bool) (output : string)
    (depth : nat) (cur : rel_path) (children : list needed_file) (acc : changes) :
  walk_recursive fs should_delete output (S depth) cur children acc
  = (files ← listing fs cur;
     needed ← for_each needed_add children ∅;
     '(acc, explore) ← for_each (visit fs should_delete output cur needed)
                         (all_files files needed) (acc, []);
     for_each (λ file acc, walk_recursive fs should_delete output depth (cur ++ [file])
                             (advance <$> needed !!! file) acc) explore acc).
Proof. reflexivity. Qed.

Section walk.
Context (fs : option node) (should_delete : bool) (output : string).

#[local] Abbreviation visit := (visit fs should_delete output).
#[local] Abbreviation walk_recursive := (walk_recursive fs should_delete output).

(** What an iteration does to the lists does not depend on what they
    already hold. *)
Lemma visit_frame cur (needed : gmap string (list needed_file)) file acc explore :
  visit cur needed file (acc, explore)
  = '(d, e) ← visit cur needed file (no_changes, []);
    Ok (changes_app acc d, explore ++ e).
Proof.
  unfold visit.
  repeat (case_match; simpl;
          rewrite ?changes_app_no_changes_r, ?app_nil_r; try done);
    rewrite ?(delete_path_app _ acc), ?(create_directory_app _ (changes_app _ _)),
      ?(create_file_app _ (changes_app _ _)), ?(create_directory_app _ acc),
      ?(create_file_app _ acc), ?(update_file_app _ acc);
    rewrite <-?changes_app_assoc; try done.
  destruct (read_text _ _); simpl; [|done].
  case_bool_decide; simpl; by rewrite ?changes_app_no_changes_r, ?app_nil_r.
Qed.

Lemma visit_loop_frame cur (needed : gmap string (list needed_file)) files acc explore :
  for_each (visit cur needed) files (acc, explore)
  = '(d, e) ← for_each (visit cur needed) files (no_changes, []);
    Ok (changes_app acc d, explore ++ e).
Proof.
  revert acc explore. induction files as [|file files IH]; intros acc explore;
    cbn [for_each].
  - simpl. by rewrite changes_app_no_changes_r, app_nil_r.
  - rewrite (visit_frame _ _ _ acc explore).
    destruct (visit cur needed file (no_changes, [])) as [[d e]|]; [|done].
    cbn [mbind result_bind].
    rewrite (IH (changes_app acc d) (explore ++ e)), (IH d e).
    destruct (for_each _ files (no_changes, [])) as [[d' e']|]; [|done].
    cbn [mbind result_bind].
    by rewrite changes_app_assoc, app_assoc.
Qed.

Lemma explore_loop_frame {B} (body : B → changes → result changes) (l : list B) acc :
  (∀ x a, body x a = d ← body x no_changes; Ok (changes_app a d)) →
  for_each body l acc = d ← for_each body l no_changes; Ok (changes_app acc d).
Proof.
  intros Hbody. revert acc. induction l as [|x l IH]; intros acc; cbn [for_each].
  - simpl. by rewrite changes_app_no_changes_r.
  - rewrite (Hbody x acc).
    destruct (body x no_changes) as [d|]; [|done].
    cbn [mbind result_bind].
    rewrite (IH (changes_app acc d)), (IH d).
    destruct (for_each body l no_changes) as [d'|]; [|done].
    cbn [mbind result_bind].
    by rewrite changes_app_assoc.
Qed.

Lemma walk_frame depth cur children acc :
  walk_recursive depth cur children acc
  = d ← walk_recursive depth cur children no_changes; Ok (changes_app acc d).
Proof.
  revert cur children acc. induction depth as [|depth IH]; intros cur children acc; [done|].
  rewrite !walk_recursive_S.
  destruct (listing fs cur) as [files|]; [|done].
  cbn [mbind result_bind].
  destruct (for_each needed_add children ∅) as [needed|]; [|done].
  cbn [mbind result_bind].
  rewrite visit_loop_frame.
  destruct (for_each _ _ (no_changes, [])) as [[d explore]|]; [|done].
  cbn [mbind result_bind].
  rewrite (explore_loop_frame _ explore (changes_app acc d)),
    (explore_loop_frame _ explore d) by (intros; apply IH).
  destruct (for_each _ explore no_changes) as [d'|]; [|done].
  cbn [mbind result_bind].
  by rewrite changes_app_assoc.
Qed.
End walk.

(** ** The dictionary [needed] and the names gone through *)

Lemma group_of_snoc (file : string) (children : list needed_file) (c : needed_file) :
  group_of file (children ++ [c])
  = group_of file children ++ (if decide (head (parts c) = Some file) then [c] else []).
Proof.
  unfold group_of. by rewrite filter_app.
Qed.

Lemma needed_lookup (children : list needed_file)
    (needed : gmap string (list needed_file)) (file : string) :
  for_each needed_add children ∅ = Ok needed →
  needed !! file
  = if decide (group_of file children = []) then None else Some (group_of file children).
Proof.
  revert needed. induction children as [|c children IH] using rev_ind; intros needed.
  - simpl. intros [= <-]. by rewrite lookup_empty.
  - rewrite for_each_app. intros (m & Hm & Hadd)%bind_Ok.
    specialize (IH m Hm). simpl in Hadd. unfold needed_add in Hadd.
    rewrite group_of_snoc.
    destruct (parts c) as [|h t] eqn:Hparts; simpl_result; [done|].
    injection Hadd as <-.
    destruct (decide (head (h :: t) = Some file)) as [Hh|Hh]; simpl in Hh.
    + injection Hh as ->. rewrite lookup_insert_eq, IH.
      destruct (decide (group_of file children = [])) as [->|?]; simpl.
      * done.
      * rewrite decide_False; [done|]. by intros [? ?]%app_eq_nil.
    + rewrite lookup_insert_ne by congruence. by rewrite IH, app_nil_r.
Qed.

Lemma needed_parts (children : list needed_file)
    (needed : gmap string (list needed_file)) (c : needed_file) :
  for_each needed_add children ∅ = Ok needed → c ∈ children → parts c ≠ [].
Proof.
  intros Hneeded Hc Hparts.
  apply list_elem_of_split in Hc as (l1 & l2 & ->).
  rewrite for_each_app in Hneeded. apply bind_Ok in Hneeded as (m & _ & Hrest).
  simpl in Hrest. unfold needed_add in Hrest. by rewrite Hparts in Hrest.
Qed.

Lemma needed_Some (children : list needed_file)
    (needed : gmap string (list needed_file)) (file : string) (g : list needed_file) :
  for_each needed_add children ∅ = Ok needed →
  needed !! file = Some g → g = group_of file children ∧ g ≠ [].
Proof.
  intros Hneeded. rewrite (needed_lookup _ _ _ Hneeded).
  destruct (decide _); naive_solver.
Qed.

Lemma elem_of_group_of (file : string) (children : list needed_file) (c : needed_file) :
  c ∈ group_of file children ↔ c ∈ children ∧ ∃ t, parts c = file :: t.
Proof.
  unfold group_of. rewrite list_elem_of_filter.
  destruct (parts c) as [|h t]; simpl; naive_solver.
Qed.

(** The children handed to the recursive call for [file]. *)
Lemma elem_of_advance_group (file : string) (children : list needed_file) (c' : needed_file) :
  c' ∈ advance <$> group_of file children ↔
  ∃ c, c ∈ children ∧ parts c = file :: parts c' ∧ file_content c = file_content c'.
Proof.
  rewrite list_elem_of_fmap. split.
  - intros (c & -> & (Hc & t & Ht)%elem_of_group_of).
    exists c. unfold advance. simpl. by rewrite Ht.
  - intros (c & Hc & Hparts & Hcontent). exists c. split.
    + destruct c' as [p' x']. unfold advance. simpl in *. by rewrite Hparts, Hcontent.
    + apply elem_of_group_of. eauto.
Qed.

Lemma elem_of_all_files (files : list string) (needed : gmap string (list needed_file))
    (file : string) :
  file ∈ all_files files needed ↔ file ∈ files ∨ is_Some (needed !! file).
Proof.
  unfold all_files. rewrite merge_sort_Permutation, elem_of_elements, elem_of_union,
    elem_of_list_to_set, elem_of_dom. done.
Qed.

Lemma NoDup_all_files (files : list string) (needed : gmap string (list needed_file)) :
  NoDup (all_files files needed).
Proof. unfold all_files. rewrite merge_sort_Permutation. apply NoDup_elements. Qed.

(** ** Paths in the tree *)

Lemma node_lookup_app (n : node) (p q : rel_path) :
  node_lookup n (p ++ q) = n' ← node_lookup n p; node_lookup n' q.
Proof.
  revert n. induction p as [|name p IH]; intros n; simpl; [done|].
  destruct n as [|entries|]; simpl; try done.
  destruct (entries !! name) as [n'|]; simpl; [apply IH|done].
Qed.

Lemma fs_lookup_app (fs : option node) (p q : rel_path) :
  fs_lookup fs (p ++ q) = n ← fs_lookup fs p; node_lookup n q.
Proof.
  unfold fs_lookup. destruct fs as [n|]; simpl; [apply node_lookup_app|done].
Qed.

Lemma fs_lookup_snoc (fs : option node) (p : rel_path) (name : string) :
  fs_lookup fs (p ++ [name])
  = match fs_lookup fs p with
    | Some (Dir entries) => entries !! name
    | _ => None
    end.
Proof.
  rewrite fs_lookup_app. destruct (fs_lookup fs p) as [[| entries |]|]; simpl; try done.
  by destruct (entries !! name).
Qed.

(** Nothing lies below what does not exist. *)
Lemma fs_lookup_below_None (fs : option node) (p q : rel_path) :
  fs_lookup fs p = None → fs_lookup fs (p ++ q) = None.
Proof. intros H. by rewrite fs_lookup_app, H. Qed.

Lemma listing_elem_of (fs : option node) (cur : rel_path) (files : list string)
    (file : string) :
  listing fs cur = Ok files →
  file ∈ files ↔ is_Some (fs_lookup fs (cur ++ [file])).
Proof.
  unfold listing, os_path_exists, os_listdir. rewrite fs_lookup_snoc.
  destruct (fs_lookup fs cur) as [[| entries |]|]; simpl; try done.
  - intros [= <-]. by rewrite elem_of_elements, elem_of_dom.
  - intros [= <-].
    split; [by intros ?%elem_of_nil|by intros [? ?]].
Qed.

(** A directory that is listed is absent or a directory. *)
Lemma listing_Ok (fs : option node) (cur : rel_path) (files : list string) :
  listing fs cur = Ok files →
  fs_lookup fs cur = None ∨ ∃ entries, fs_lookup fs cur = Some (Dir entries).
Proof.
  unfold listing, os_path_exists, os_listdir.
  destruct (fs_lookup fs cur) as [[| entries |]|]; simpl; try done; eauto.
Qed.

Section walk_unfold.
Context (fs : option node) (should_delete : bool) (output : string).

#[local] Abbreviation visit := (visit fs should_delete output).
#[local] Abbreviation walk_recursive := (walk_recursive fs should_delete output).

Lemma walk_Ok depth cur children d :
  walk_recursive (S depth) cur children no_changes = Ok d ↔
  ∃ files needed d0 explore dr,
    listing fs cur = Ok files
    ∧ for_each needed_add children ∅ = Ok needed
    ∧ for_each (visit cur needed) (all_files files needed) (no_changes, [])
      = Ok (d0, explore)
    ∧ for_each (λ file acc, walk_recursive depth (cur ++ [file])
                              (advance <$> needed !!! file) acc) explore no_changes
      = Ok dr
    ∧ d = changes_app d0 dr.
Proof.
  rewrite walk_recursive_S. split.
  - intros (files & Hfiles & H)%bind_Ok.
    apply bind_Ok in H as (needed & Hneeded & H).
    apply bind_Ok in H as ([d0 explore] & Hloop & H).
    rewrite explore_loop_frame in H by (intros; apply walk_frame).
    apply bind_Ok in H as (dr & Hrec & [= <-]).
    by exists files, needed, d0, explore, dr.
  - intros (files & needed & d0 & explore & dr & Hfiles & Hneeded & Hloop & Hrec & ->).
    rewrite Hfiles. simpl_result. rewrite Hneeded. simpl_result.
    rewrite Hloop. simpl_result.
    rewrite explore_loop_frame by (intros; apply walk_frame).
    by rewrite Hrec.
Qed.

Lemma visit_loop_cons cur (needed : gmap string (list needed_file)) file files d explore :
  for_each (visit cur needed) (file :: files) (no_changes, []) = Ok (d, explore) ↔
  ∃ d1 e1 d2 e2,
    visit cur needed file (no_changes, []) = Ok (d1, e1)
    ∧ for_each (visit cur needed) files (no_changes, []) = Ok (d2, e2)
    ∧ d = changes_app d1 d2 ∧ explore = e1 ++ e2.
Proof.
  cbn [for_each]. split.
  - intros ([d1 e1] & H1 & H)%bind_Ok.
    rewrite visit_loop_frame in H.
    apply bind_Ok in H as ([d2 e2] & H2 & [= <- <-]).
    by exists d1, e1, d2, e2.
  - intros (d1 & e1 & d2 & e2 & H1 & H2 & -> & ->).
    rewrite H1. simpl_result. rewrite visit_loop_frame, H2. done.
Qed.

Lemma explore_loop_cons depth cur (needed : gmap string (list needed_file)) file explore d :
  for_each (λ file acc, walk_recursive depth (cur ++ [file])
                          (advance <$> needed !!! file) acc)
    (file :: explore) no_changes = Ok d ↔
  ∃ d1 d2,
    walk_recursive depth (cur ++ [file]) (advance <$> needed !!! file) no_changes = Ok d1
    ∧ for_each (λ file acc, walk_recursive depth (cur ++ [file])
                              (advance <$> needed !!! file) acc) explore no_changes
      = Ok d2
    ∧ d = changes_app d1 d2.
Proof.
  cbn [for_each]. split.
  - intros (d1 & H1 & H)%bind_Ok.
    rewrite explore_loop_frame in H by (intros; apply walk_frame).
    apply bind_Ok in H as (d2 & H2 & [= <-]).
    by exists d1, d2.
  - intros (d1 & d2 & H1 & H2 & ->).
    rewrite H1. simpl_result.
    rewrite explore_loop_frame by (intros; apply walk_frame).
    by rewrite H2.
Qed.

(** What one iteration adds, by cases on the name. *)
Lemma visit_Ok cur (needed : gmap string (list needed_file)) file d e :
  visit cur needed file (no_changes, []) = Ok (d, e) →
  let p := cur ++ [file] in
  match needed !! file with
  | None =>
      e = []
      ∧ d = if should_delete && bool_decide (file ∉ DEFAULT_IGNORE_LIST)
            then delete_path p no_changes else no_changes
  | Some g =>
      if forallb (λ c, bool_decide (1 < length (parts c))) g then
        e = [file]
        ∧ match fs_lookup fs p with
          | None => d = create_directory p no_changes
          | Some (Dir _) => d = no_changes
          | Some _ =>
              should_delete = true
              ∧ d = create_directory p (delete_path p no_changes)
          end
      else
        ∃ c, g = [c] ∧ e = []
          ∧ match fs_lookup fs p with
            | None => d = create_file (Entry p (file_content c)) no_changes
            | Some (File data) =>
                d = if bool_decide (universal_newlines data ≠ file_content c)
                    then update_file (Entry p (file_content c)) no_changes
                    else no_changes
            | Some _ =>
                should_delete = true
                ∧ d = create_file (Entry p (file_content c)) (delete_path p no_changes)
            end
  end.
Proof.
  unfold visit, os_path_exists, os_path_isfile, os_path_isdir, read_text, os_path_join.
  simpl. intros H.
  destruct (needed !! file) as [g|].
  - destruct (forallb _ g).
    + destruct (fs_lookup fs (cur ++ [file])) as [[| |]|] eqn:Hl; simpl in H;
        rewrite ?bool_decide_eq_true_2 in H by eauto;
        rewrite ?bool_decide_eq_false_2 in H by (by intros [? ?]);
        simpl in H; destruct should_delete; simpl in H; naive_solver.
    + destruct g as [|c [|]]; try done. exists c.
      destruct (fs_lookup fs (cur ++ [file])) as [[| |]|] eqn:Hl; simpl in H;
        rewrite ?bool_decide_eq_true_2 in H by eauto;
        rewrite ?bool_decide_eq_false_2 in H by (by intros [? ?]);
        simpl in H; destruct should_delete; simpl in H; try case_bool_decide;
        naive_solver.
  - destruct (should_delete && _); naive_solver.
Qed.
End walk_unfold.

(** ** Runs on concrete trees *)

(** C1, as stated, fails: a needed file whose name is taken by a directory
    is, with deletion enabled, both in the paths to delete and in the files
    to create. *)
Lemma four_lists_not_disjoint :
  ∃ c, compute_changes (Some (Dir {["a.py" := Dir ∅]})) true "out"
         [("a.py", StateEntry "x" "2024-01-01")] = Ok c
       ∧ ¬ pairwise_disjoint (listed_paths "out" c).
Proof.
  eexists. split; [vm_compute; reflexivity|].
  intros Hdisjoint.
  apply (Hdisjoint 0 2 ["out/a.py"] ["out/a.py"] "out/a.py"); try done.
  - by left.
  - by left.
Qed.

(** C2 fails on a content with a carriage return: the first run creates the
    file with exactly the bytes of the content, and the second run, which
    reads the file in text mode, finds a difference and schedules an
    update. *)
Lemma second_run_updates_carriage_return :
  let state := [("a.txt", StateEntry (String "x" (String CR "y")) "2024-01-01")] in
  let fs := Some (Dir ∅) in
  ∃ c fs',
    compute_changes fs true "out" state = Ok c
    ∧ update_files c fs = (fs', Ok ())
    ∧ fs_lookup fs' ["a.txt"] = Some (File (String "x" (String CR "y")))
    ∧ compute_changes fs' true "out" state
      = Ok (Changes [] [Entry ["a.txt"] (String "x" (String CR "y"))] [] []).
Proof.
  simpl. eexists _, _. split; [vm_compute; reflexivity|].
  split; [vm_compute; reflexivity|].
  split; vm_compute; reflexivity.
Qed.

(** C5 fails for a needed directory whose name is taken by a file when
    deletion is enabled: the deletion and the creation are appended, and
    the recursive call then lists the file as if it were a directory. *)
Lemma directory_conflict_raises :
  compute_changes (Some (Dir {["a" := File "z"]})) true "out"
    [("a/b.py", StateEntry "x" "2024-01-01")]
  = Raise (NotADirectoryError ["a"]).
Proof. vm_compute. reflexivity. Qed.

(** C7, as stated, fails when the output directory is missing: the parent
    of the directory to create is the output directory, which is neither
    on disk nor in the list, and [mkdir] fails. *)
Lemma missing_root_parent :
  ∃ c, compute_changes None true "out" [("a/b.py", StateEntry "x" "2024-01-01")] = Ok c
       ∧ directories_to_create c = [["a"]]
       ∧ to_delete c = []
       ∧ ¬ parents_first None (directories_to_create c)
       ∧ mkdir_all (directories_to_create c) None = (None, Raise (FileNotFoundError ["a"])).
Proof.
  eexists. split; [vm_compute; reflexivity|]. simpl.
  split; [done|]. split; [done|]. split; [|done].
  intros H. destruct (H 0 ["a"]) as [?|?%elem_of_nil]; done.
Qed.

(** ** Splitting paths *)

Lemma split_nonempty (sep : ascii) (s : string) : split sep s ≠ [].
Proof.
  destruct s as [|c s]; simpl; [done|].
  destruct (Ascii.eqb c sep); [done|]. by destruct (split sep s).
Qed.

Lemma unsplit_split (sep : ascii) (s : string) : unsplit sep (split sep s) = s.
Proof.
  induction s as [|c s IH]; [done|]. simpl.
  pose proof (split_nonempty sep s) as Hne.
  destruct (Ascii.eqb_spec c sep) as [->|Hc].
  - destruct (split sep s) as [|w ws]; [done|].
    change (unsplit sep ("" :: w :: ws)) with ("" +:+ String sep (unsplit sep (w :: ws))).
    by rewrite IH.
  - destruct (split sep s) as [|w ws]; [done|].
    destruct ws as [|w' ws]; simpl in *; by rewrite <-IH.
Qed.

Lemma split_inj (sep : ascii) (s1 s2 : string) : split sep s1 = split sep s2 → s1 = s2.
Proof. intros H. by rewrite <-(unsplit_split sep s1), H, unsplit_split. Qed.

(** ** The leaf assertion *)

Lemma prefix_free_sublist (l1 l2 : list rel_path) :
  l1 `sublist_of` l2 → prefix_free l2 → prefix_free l1.
Proof.
  induction 1 as [|a l1 l2 Hsub IH|a l1 l2 Hsub IH]; simpl; [done|..].
  - intros [Ha Hfree]. split; [|by apply IH].
    apply Forall_forall. intros b Hb.
    rewrite Forall_forall in Ha. apply Ha. by eapply elem_of_sublist.
  - intros [_ Hfree]. by apply IH.
Qed.

Lemma prefix_free_elem_of (l : list rel_path) (a b : rel_path) (i j : nat) :
  prefix_free l → l !! i = Some a → l !! j = Some b → i ≠ j → ¬ a `prefix_of` b.
Proof.
  revert i j. induction l as [|x l IH]; intros i j; simpl; [done|].
  intros [Hx Hfree] Hi Hj Hij. rewrite Forall_forall in Hx.
  destruct i as [|i], j as [|j]; simpl in *; simplify_eq.
  - apply Hx. by eapply list_elem_of_lookup_2.
  - apply Hx. by eapply list_elem_of_lookup_2.
  - eapply IH; eauto.
Qed.

Lemma prefix_free_advance (file : string) (g : list needed_file) :
  (∀ c, c ∈ g → ∃ t, parts c = file :: t) →
  prefix_free (parts <$> g) → prefix_free (parts <$> (advance <$> g)).
Proof.
  induction g as [|c g IH]; simpl; [done|]. intros Hhead [Hc Hfree].
  split; [|apply IH; [intros; apply Hhead; by right|done]].
  rewrite Forall_forall in Hc. apply Forall_forall.
  intros b (c'' & -> & (c' & -> & Hc')%list_elem_of_fmap)%list_elem_of_fmap.
  destruct (Hhead c) as [t Ht]; [left|]. destruct (Hhead c') as [t' Ht']; [by right|].
  destruct (Hc (parts c')) as [H1 H2]; [by apply list_elem_of_fmap_2|].
  unfold advance. simpl. rewrite Ht, Ht' in *. simpl.
  split; intros ?; [apply H1|apply H2]; by apply prefix_cons.
Qed.

Lemma group_parts_sublist (file : string) (children : list needed_file) :
  parts <$> group_of file children `sublist_of` parts <$> children.
Proof. apply fmap_sublist, sublist_filter. Qed.

Lemma prefix_free_group (file : string) (children : list needed_file) :
  prefix_free (parts <$> children) →
  prefix_free (parts <$> (advance <$> group_of file children)).
Proof.
  intros Hfree. apply (prefix_free_advance file).
  - by intros c (_ & ?)%elem_of_group_of.
  - eapply prefix_free_sublist; [apply group_parts_sublist|exact Hfree].
Qed.

(** A group that holds a leaf and is not a singleton is not prefix-free. *)
Lemma assertion_holds (file : string) (g : list needed_file) :
  prefix_free (parts <$> g) →
  (∀ c, c ∈ g → ∃ t, parts c = file :: t) →
  forallb (λ c, bool_decide (1 < length (parts c))) g = false →
  ∃ c, g = [c].
Proof.
  intros Hfree Hhead Hleaf.
  destruct g as [|c1 [|c2 g]]; [done|by eauto|exfalso].
  assert (∃ i c, (c1 :: c2 :: g) !! i = Some c ∧ parts c = [file]) as (i & c & Hi & Hc).
  { apply Is_true_false_2 in Hleaf. rewrite forallb_True in Hleaf.
    apply not_Forall_Exists in Hleaf; [|intros; apply _].
    apply Exists_exists in Hleaf as (c & Hin & Hnot).
    pose proof Hin as [i Hi]%list_elem_of_lookup_1.
    exists i, c. split; [done|].
    destruct (Hhead c Hin) as [t Ht].
    unfold compose in Hnot. rewrite Ht in *. destruct t; [done|].
    exfalso. apply Hnot. apply bool_decide_pack. simpl. lia. }
  destruct (decide (i = 0)) as [->|Hne].
  - destruct (Hhead c2) as [t2 Ht2]; [set_solver|].
    eapply (prefix_free_elem_of _ (parts c) (parts c2) 0 1 Hfree); simpl in *;
      simplify_eq; try done.
    rewrite Hc, Ht2. by apply prefix_cons, prefix_nil.
  - destruct (Hhead c1) as [t1 Ht1]; [set_solver|].
    eapply (prefix_free_elem_of _ (parts c) (parts c1) i 0 Hfree); try done.
    + by rewrite list_lookup_fmap, Hi.
    + rewrite Hc, Ht1. by apply prefix_cons, prefix_nil.
Qed.

Section never_raised.
Context (fs : option node) (should_delete : bool) (output : string).

#[local] Abbreviation visit := (visit fs should_delete output).
#[local] Abbreviation walk_recursive := (walk_recursive fs should_delete output).

Lemma listing_Raise cur e :
  listing fs cur = Raise e → e = NotADirectoryError cur.
Proof.
  unfold listing, os_path_exists, os_listdir.
  destruct (fs_lookup fs cur) as [[| |]|]; simpl; try done; by intros [= <-].
Qed.

Lemma needed_add_Raise children m e :
  for_each needed_add children m = Raise e → e = IndexError.
Proof.
  intros (c & s & _ & H)%for_each_Raise. unfold needed_add in H.
  destruct (parts c); naive_solver.
Qed.

(** The assertion fails only on a group that has a leaf and is not a
    singleton. *)
Lemma visit_AssertionError cur (needed : gmap string (list needed_file)) file s :
  visit cur needed file s = Raise AssertionError →
  ∃ g, needed !! file = Some g
       ∧ forallb (λ c, bool_decide (1 < length (parts c))) g = false
       ∧ ∀ c, g ≠ [c].
Proof.
  unfold visit. destruct s as [acc explore].
  destruct (needed !! file) as [g|]; [|by case_match].
  intros H. exists g. split; [done|].
  destruct (forallb _ g).
  - repeat (case_match; simplify_eq/=); done.
  - split; [done|]. intros c ->. repeat (case_match; simplify_eq/=); try done.
    unfold read_text in *. repeat (case_match; simplify_eq/=); done.
Qed.

Lemma walk_no_AssertionError depth cur children acc :
  prefix_free (parts <$> children) →
  walk_recursive depth cur children acc ≠ Raise AssertionError.
Proof.
  revert cur children acc. induction depth as [|depth IH]; intros cur children acc Hfree;
    [done|].
  simpl. fold (listing fs cur).
  destruct (listing fs cur) as [files|e] eqn:Hfiles; simpl;
    [|by apply listing_Raise in Hfiles as ->].
  destruct (for_each needed_add children ∅) as [needed|e] eqn:Hneeded; simpl;
    [|by apply needed_add_Raise in Hneeded as ->].
  destruct (for_each (visit cur needed) _ _) as [[acc' explore]|e] eqn:Hloop; simpl.
  - intros (file & s & _ & Hwalk)%for_each_Raise. revert Hwalk. apply IH.
    rewrite lookup_total_alt.
    destruct (needed !! file) as [g|] eqn:Hg; simpl; [|done].
    apply (needed_Some _ _ _ _ Hneeded) in Hg as [-> _].
    by apply prefix_free_group.
  - intros [= ->].
    apply for_each_Raise in Hloop as (file & s & _ & Hvisit).
    apply visit_AssertionError in Hvisit as (g & Hg & Hleaf & Hsingle).
    apply (needed_Some _ _ _ _ Hneeded) in Hg as [-> _].
    destruct (assertion_holds file (group_of file children)) as [c Hc]; try done.
    + eapply prefix_free_sublist; [apply group_parts_sublist|exact Hfree].
    + by intros c (_ & ?)%elem_of_group_of.
    + by apply Hsingle in Hc.
Qed.
End never_raised.

Lemma state_children_parts (state : dict state_entry) :
  parts <$> ((λ '(path, e), NeededFile (split "/" path) (content e)) <$> state)
  = split "/" <$> state.*1.
Proof. rewrite <-!list_fmap_compose. apply list_fmap_ext. by intros ? [? ?]. Qed.

Lemma keys_prefix_free (keys : list string) :
  NoDup keys →
  Forall (λ k1, Forall (λ k2,
    split "/" k1 `prefix_of` split "/" k2 → split "/" k1 = split "/" k2) keys) keys →
  prefix_free (split "/" <$> keys).
Proof.
  intros Hnodup Hall.
  assert (∀ k1 k2, k1 ∈ keys → k2 ∈ keys →
            split "/" k1 `prefix_of` split "/" k2 → k1 = k2) as Hpre.
  { intros k1 k2 H1 H2 Hp. rewrite Forall_forall in Hall.
    specialize (Hall k1 H1). rewrite Forall_forall in Hall.
    by eapply split_inj, Hall. }
  clear Hall. induction Hnodup as [|k keys Hk Hnodup IH]; simpl; [done|].
  split.
  - apply Forall_forall. intros b (k' & -> & Hk')%list_elem_of_fmap.
    split; intros Hp; apply Hk.
    + rewrite (Hpre k k'); [done|by left|by right|done].
    + rewrite <-(Hpre k' k); [done|by right|by left|done].
  - apply IH. intros k1 k2 H1 H2. apply Hpre; by right.
Qed.

(** X4: (C10) when the keys of the target mapping are pairwise distinct and no
    segment list is a proper prefix of another, the assertion that a leaf
    is claimed by exactly one entry fails at no level of the recursion:
    the reconciliation does not end in an [AssertionError]. *)
Theorem leaf_assertion_never_fails (fs : option node) (should_delete : bool)
    (output : string) (state : dict state_entry) :
  NoDup state.*1 → no_proper_prefix state →
  compute_changes fs should_delete output state ≠ Raise AssertionError.
Proof.
  intros Hnodup Hprefix. unfold compute_changes.
  apply walk_no_AssertionError. rewrite state_children_parts.
  by apply keys_prefix_free.
Qed.

Lemma leaf_assertion_never_fails_witness :
  compute_changes (Some (Dir {["a" := Dir ∅]})) true "out"
    [("a/b.py", StateEntry "x" "2024-01-01"); ("a/c.py", StateEntry "y" "2024-01-02");
     ("d.py", StateEntry "z" "2024-01-03")]
  ≠ Raise AssertionError.
Proof.
  apply leaf_assertion_never_fails.
  - refine (bool_decide_unpack _ _). vm_compute. exact I.
  - unfold no_proper_prefix. refine (bool_decide_unpack _ _). vm_compute. exact I.
Defined.

(** ** The shape of a computed change set *)

Lemma changes_bind_cons {A} (f : A → changes) (x : A) (l : list A) :
  foldr (λ x acc, changes_app (f x) acc) no_changes (x :: l)
  = changes_app (f x) (foldr (λ x acc, changes_app (f x) acc) no_changes l).
Proof. done. Qed.

(** The lists of a concatenation of fragments. *)
Lemma changes_concat {A} (f : A → changes) (l : list A) :
  let d := foldr (λ x acc, changes_app (f x) acc) no_changes l in
  to_delete d = l ≫= (to_delete ∘ f)
  ∧ files_to_update d = l ≫= (files_to_update ∘ f)
  ∧ files_to_create d = l ≫= (files_to_create ∘ f)
  ∧ directories_to_create d = l ≫= (directories_to_create ∘ f).
Proof.
  induction l as [|x l IH]; simpl; [done|].
  destruct IH as (-> & -> & -> & ->). done.
Qed.

Section walk_shape.
Context (fs : option node) (should_delete : bool) (output : string).

#[local] Abbreviation visit := (visit fs should_delete output).
#[local] Abbreviation walk_recursive := (walk_recursive fs should_delete output).

(** The loop over the names adds, name after name, what each iteration
    adds on its own. *)
Lemma visit_loop_Ok cur (needed : gmap string (list needed_file)) files d explore :
  for_each (visit cur needed) files (no_changes, []) = Ok (d, explore) →
  ∃ level : string → changes * list string,
    (∀ file, file ∈ files → visit cur needed file (no_changes, []) = Ok (level file))
    ∧ d = foldr (λ file acc, changes_app (level file).1 acc) no_changes files
    ∧ explore = files ≫= (snd ∘ level).
Proof.
  intros Hloop.
  exists (λ file, match visit cur needed file (no_changes, []) with
                  | Ok x => x
                  | Raise _ => (no_changes, [])
                  end).
  revert d explore Hloop. induction files as [|file files IH]; intros d explore.
  - simpl. intros [= <- <-]. split; [|done]. by intros ? ?%elem_of_nil.
  - intros (d1 & e1 & d2 & e2 & H1 & H2 & -> & ->)%visit_loop_cons.
    destruct (IH _ _ H2) as (Hall & Hd & He). split; [|split].
    + intros f [->|Hf]%elem_of_cons; [by rewrite H1|by apply Hall].
    + cbn [foldr]. rewrite H1, <-Hd. done.
    + rewrite bind_cons, <-He. unfold compose. by rewrite H1.
Qed.

Lemma explore_loop_Ok depth cur (needed : gmap string (list needed_file)) explore d :
  for_each (λ file acc, walk_recursive depth (cur ++ [file])
                          (advance <$> needed !!! file) acc) explore no_changes = Ok d →
  ∃ below : string → changes,
    (∀ file, file ∈ explore →
       walk_recursive depth (cur ++ [file]) (advance <$> needed !!! file) no_changes
       = Ok (below file))
    ∧ d = foldr (λ file acc, changes_app (below file) acc) no_changes explore.
Proof.
  intros Hloop.
  exists (λ file, match walk_recursive depth (cur ++ [file])
                          (advance <$> needed !!! file) no_changes with
                  | Ok x => x
                  | Raise _ => no_changes
                  end).
  revert d Hloop. induction explore as [|file explore IH]; intros d.
  - simpl. intros [= <-]. split; [|done]. by intros ? ?%elem_of_nil.
  - intros (d1 & d2 & H1 & H2 & ->)%explore_loop_cons.
    destruct (IH _ H2) as (Hall & Hd). split.
    + intros f [->|Hf]%elem_of_cons; [by rewrite H1|by apply Hall].
    + cbn [foldr]. rewrite H1, <-Hd. done.
Qed.

(** A successful call: the names of the level with what each adds, then
    the explored names with what the walk below each adds. *)
Lemma walk_shape depth cur children d :
  walk_recursive (S depth) cur children no_changes = Ok d →
  ∃ files needed (level : string → changes * list string) (below : string → changes),
    let names := all_files files needed in
    let explore := names ≫= (snd ∘ level) in
    listing fs cur = Ok files
    ∧ for_each needed_add children ∅ = Ok needed
    ∧ (∀ file, file ∈ names → visit cur needed file (no_changes, []) = Ok (level file))
    ∧ (∀ file, file ∈ explore →
         walk_recursive depth (cur ++ [file]) (advance <$> needed !!! file) no_changes
         = Ok (below file))
    ∧ to_delete d
      = (names ≫= (to_delete ∘ fst ∘ level)) ++ (explore ≫= (to_delete ∘ below))
    ∧ files_to_update d
      = (names ≫= (files_to_update ∘ fst ∘ level))
          ++ (explore ≫= (files_to_update ∘ below))
    ∧ files_to_create d
      = (names ≫= (files_to_create ∘ fst ∘ level))
          ++ (explore ≫= (files_to_create ∘ below))
    ∧ directories_to_create d
      = (names ≫= (directories_to_create ∘ fst ∘ level))
          ++ (explore ≫= (directories_to_create ∘ below)).
Proof.
  intros (files & needed & d0 & explore & dr & Hfiles & Hneeded & Hloop & Hrec & ->)%walk_Ok.
  apply visit_loop_Ok in Hloop as (level & Hlevel & -> & ->).
  apply explore_loop_Ok in Hrec as (below & Hbelow & ->).
  exists files, needed, level, below. simpl.
  destruct (changes_concat (fst ∘ level) (all_files files needed)) as (H1 & H2 & H3 & H4).
  destruct (changes_concat below (all_files files needed ≫= (snd ∘ level)))
    as (H1' & H2' & H3' & H4').
  simpl in *. rewrite H1, H2, H3, H4, H1', H2', H3', H4'. done.
Qed.
End walk_shape.

(** ** What the lists hold *)

Lemma needed_directory_below (file : string) (children : list needed_file) (r : rel_path) :
  needed_directory (advance <$> group_of file children) r →
  needed_directory children (file :: r).
Proof.
  intros [(c' & t & (c & Hc & Hparts & _)%elem_of_advance_group & Ht & Hc') Hnot]. split.
  - exists c, t. rewrite Hparts, Hc'. done.
  - intros c0 Hc0 Hparts0.
    apply (Hnot (NeededFile r (file_content c0))); [|done].
    apply elem_of_advance_group. eauto.
Qed.

(** A group whose members all have more than one segment is a needed
    directory. *)
Lemma group_needed_directory (children : list needed_file)
    (needed : gmap string (list needed_file)) (file : string) (g : list needed_file) :
  for_each needed_add children ∅ = Ok needed →
  needed !! file = Some g →
  forallb (λ c, bool_decide (1 < length (parts c))) g = true →
  needed_directory children [file] ∧ needed !!! file = group_of file children.
Proof.
  intros Hneeded Hg Hall. rewrite lookup_total_alt, Hg. simpl.
  apply (needed_Some _ _ _ _ Hneeded) in Hg as [-> Hne].
  split; [|done].
  apply Is_true_true_2 in Hall. rewrite forallb_True, Forall_forall in Hall.
  assert (∀ c, c ∈ group_of file children → 1 < length (parts c)) as Hlen.
  { intros c Hc. by apply Hall, bool_decide_unpack in Hc. }
  clear Hall. split.
  - destruct (group_of file children) as [|c g] eqn:Hgroup; [done|].
    assert (c ∈ group_of file children) as Hc by (rewrite Hgroup; left).
    specialize (Hlen c ltac:(left)).
    apply elem_of_group_of in Hc as (Hc & t & Ht).
    exists c, t. rewrite Ht in *. split; [done|]. split; [|done].
    intros ->. simpl in Hlen. lia.
  - intros c Hc Hparts.
    assert (c ∈ group_of file children) as Hin by (apply elem_of_group_of; eauto).
    apply Hlen in Hin. rewrite Hparts in Hin. simpl in Hin. lia.
Qed.

(** A singleton group that is not a directory is a leaf. *)
Lemma group_leaf (children : list needed_file)
    (needed : gmap string (list needed_file)) (file : string) (c : needed_file) :
  for_each needed_add children ∅ = Ok needed →
  needed !! file = Some [c] →
  forallb (λ c, bool_decide (1 < length (parts c))) [c] = false →
  c ∈ children ∧ parts c = [file]
  ∧ ∀ c' t, c' ∈ children → parts c' = [file] ++ t → t = [].
Proof.
  intros Hneeded Hg Hleaf.
  apply (needed_Some _ _ _ _ Hneeded) in Hg as [Hg _].
  assert (c ∈ group_of file children) as Hc by (rewrite <-Hg; left).
  apply elem_of_group_of in Hc as (Hc & t & Ht).
  simpl in Hleaf. rewrite andb_true_r in Hleaf. apply bool_decide_eq_false in Hleaf.
  assert (t = []) as ->.
  { rewrite Ht in Hleaf. destruct t; [done|]. simpl in Hleaf. lia. }
  split; [done|]. split; [done|].
  intros c' t' Hc' Hparts'.
  assert (c' ∈ group_of file children) as Hin by (apply elem_of_group_of; eauto).
  rewrite <-Hg in Hin. apply list_elem_of_singleton in Hin as ->.
  rewrite Ht in Hparts'. by injection Hparts'.
Qed.

Lemma not_needed (children : list needed_file)
    (needed : gmap string (list needed_file)) (file : string) :
  for_each needed_add children ∅ = Ok needed →
  needed !! file = None →
  ∀ c, c ∈ children → ¬ [file] `prefix_of` parts c.
Proof.
  intros Hneeded Hg c Hc [t Ht].
  rewrite (needed_lookup _ _ _ Hneeded) in Hg.
  destruct (decide (group_of file children = [])) as [Hnil|]; [|done].
  assert (c ∈ group_of file children) as Hin by (apply elem_of_group_of; eauto).
  rewrite Hnil in Hin. by apply elem_of_nil in Hin.
Qed.

Section walk_sound.
Context (fs : option node) (should_delete : bool) (output : string).

#[local] Abbreviation visit := (visit fs should_delete output).
#[local] Abbreviation walk_recursive := (walk_recursive fs should_delete output).

Lemma delete_ok_below file children cur p :
  needed_directory children [file] →
  delete_ok fs should_delete (advance <$> group_of file children) (cur ++ [file]) p →
  delete_ok fs should_delete children cur p.
Proof.
  intros Hdir (r & f & -> & Hsd & Hsome & Hr & Hbelow & Hcase).
  exists (file :: r), f. rewrite <-!app_assoc in *. simpl in *.
  split; [done|]. split; [done|]. split; [done|]. split; [|split].
  - right. destruct Hr as [->|Hr]; [done|by apply needed_directory_below].
  - intros c t Hc Hparts.
    apply (Hbelow (NeededFile (r ++ [f] ++ t) (file_content c))); [|by rewrite <-app_assoc].
    apply elem_of_advance_group. exists c. simpl. by rewrite Hparts, <-app_assoc.
  - destruct Hcase as [[Hnone Hignore]|[(c' & (c & Hc & Hparts & _)%elem_of_advance_group & Hc') Hfile]].
    + left. split; [|done]. intros c Hc [t Ht].
      apply (Hnone (NeededFile (r ++ [f] ++ t) (file_content c))).
      * apply elem_of_advance_group. exists c. simpl. rewrite Ht. simpl.
        by rewrite <-app_assoc.
      * exists t. simpl. by rewrite <-app_assoc.
    + right. split; [|done]. exists c. by rewrite Hparts, Hc'.
Qed.

Lemma directory_ok_below file children cur p :
  directory_ok fs (advance <$> group_of file children) (cur ++ [file]) p →
  directory_ok fs children cur p.
Proof.
  intros (r & Hr & -> & Hnone & Hdir).
  exists (file :: r). rewrite <-app_assoc in *. simpl in *.
  split; [done|]. split; [done|]. split; [done|]. by apply needed_directory_below.
Qed.

Lemma create_ok_below file children cur e :
  create_ok fs (advance <$> group_of file children) (cur ++ [file]) e →
  create_ok fs children cur e.
Proof.
  intros (c' & (c & Hc & Hparts & Hcontent)%elem_of_advance_group & Hpath & He & Hfile).
  exists c. split; [done|]. split; [by rewrite Hpath, Hparts, <-app_assoc|].
  split; [congruence|done].
Qed.

Lemma update_ok_below file children cur e :
  update_ok fs (advance <$> group_of file children) (cur ++ [file]) e →
  update_ok fs children cur e.
Proof.
  intros (c' & data & (c & Hc & Hparts & Hcontent)%elem_of_advance_group & Hpath & He
          & Hfile & Hdiff).
  exists c, data. split; [done|]. split; [by rewrite Hpath, Hparts, <-app_assoc|].
  split; [congruence|]. split; [done|congruence].
Qed.

(** A call that returns has listed its directory: the directory is absent
    or a directory. *)
Lemma walk_Ok_directory depth cur children d :
  walk_recursive depth cur children no_changes = Ok d →
  fs_lookup fs cur = None ∨ ∃ entries, fs_lookup fs cur = Some (Dir entries).
Proof.
  destruct depth as [|depth]; [done|].
  intros (files & ? & ? & ? & ? & Hfiles & _)%walk_Ok. by eapply listing_Ok.
Qed.

(** The explored names are the names of the level that are needed
    directories. *)
Lemma elem_of_explore cur children (needed : gmap string (list needed_file)) names
    (level : string → changes * list string) file :
  for_each needed_add children ∅ = Ok needed →
  (∀ file, file ∈ names → visit cur needed file (no_changes, []) = Ok (level file)) →
  file ∈ names ≫= (snd ∘ level) →
  file ∈ names ∧ (level file).2 = [file]
  ∧ needed_directory children [file] ∧ needed !!! file = group_of file children.
Proof.
  intros Hneeded Hlevel (f & Hin & Hf)%list_elem_of_bind.
  pose proof (Hlevel f Hf) as Hvisit. unfold compose in Hin.
  destruct (level f) as [d e] eqn:Hlf.
  apply visit_Ok in Hvisit. simpl in *.
  destruct (needed !! f) as [g|] eqn:Hg.
  - destruct (forallb _ g) eqn:Hall.
    + destruct Hvisit as [-> _]. apply list_elem_of_singleton in Hin as ->.
      rewrite Hlf. split; [done|]. split; [done|].
      by eapply group_needed_directory.
    + destruct Hvisit as (c & _ & -> & _). by apply elem_of_nil in Hin.
  - destruct Hvisit as [-> _]. by apply elem_of_nil in Hin.
Qed.
End walk_sound.
Section walk_sound_main.
Context (fs : option node) (should_delete : bool) (output : string).

#[local] Abbreviation visit := (visit fs should_delete output).
#[local] Abbreviation walk_recursive := (walk_recursive fs should_delete output).

(** What one iteration adds is as the four predicates say, provided the
    name, when it is explored and exists, is a directory. *)
Lemma level_sound cur children (needed : gmap string (list needed_file)) files file d e :
  listing fs cur = Ok files →
  for_each needed_add children ∅ = Ok needed →
  file ∈ all_files files needed →
  visit cur needed file (no_changes, []) = Ok (d, e) →
  (e = [file] →
   fs_lookup fs (cur ++ [file]) = None
   ∨ ∃ entries, fs_lookup fs (cur ++ [file]) = Some (Dir entries)) →
  Forall (delete_ok fs should_delete children cur) (to_delete d)
  ∧ Forall (update_ok fs children cur) (files_to_update d)
  ∧ Forall (create_ok fs children cur) (files_to_create d)
  ∧ Forall (directory_ok fs children cur) (directories_to_create d).
Proof.
  intros Hfiles Hneeded Hfile Hvisit Hexplored.
  apply visit_Ok in Hvisit. cbv zeta in Hvisit.
  destruct (needed !! file) as [g|] eqn:Hg.
  - destruct (forallb _ g) eqn:Hall.
    + destruct Hvisit as [-> Hd]. specialize (Hexplored eq_refl).
      destruct (group_needed_directory _ _ _ _ Hneeded Hg Hall) as [Hdir _].
      destruct (fs_lookup fs (cur ++ [file])) as [[| |]|] eqn:Hl.
      * destruct Hexplored as [|[? ?]]; done.
      * subst d. by repeat constructor.
      * destruct Hexplored as [|[? ?]]; done.
      * subst d. split_and!; try by constructor.
        repeat constructor. by exists [file].
    + destruct Hvisit as (c & -> & -> & Hd).
      destruct (group_leaf _ _ _ _ Hneeded Hg Hall) as (Hc & Hparts & Hbelow).
      destruct (fs_lookup fs (cur ++ [file])) as [[data| |]|] eqn:Hl.
      * case_bool_decide; subst d; split_and!; try by constructor.
        repeat constructor. exists c, data. simpl. by rewrite Hparts.
      * destruct Hd as [Hsd ->]. split_and!; try by constructor.
        -- repeat constructor. exists [], file. simpl.
           split_and!; try done; try (by rewrite Hl); try (by left).
           right. split; [by exists c|]. by rewrite Hl.
        -- repeat constructor. exists c. simpl. rewrite Hparts, Hl. done.
      * destruct Hd as [Hsd ->]. split_and!; try by constructor.
        -- repeat constructor. exists [], file. simpl.
           split_and!; try done; try (by rewrite Hl); try (by left).
           right. split; [by exists c|]. by rewrite Hl.
        -- repeat constructor. exists c. simpl. rewrite Hparts, Hl. done.
      * subst d. split_and!; try by constructor.
        repeat constructor. exists c. simpl. rewrite Hparts, Hl. done.
  - destruct Hvisit as [-> ->].
    destruct (should_delete && bool_decide (file ∉ DEFAULT_IGNORE_LIST)) eqn:Hsd;
      [|by repeat constructor].
    apply andb_true_iff in Hsd as [Hsd Hignore]. apply bool_decide_eq_true in Hignore.
    pose proof (not_needed _ _ _ Hneeded Hg) as Hnot.
    split_and!; try by constructor.
    repeat constructor. exists [], file. simpl. split_and!; try done.
    + apply (listing_elem_of _ _ _ _ Hfiles).
      apply elem_of_all_files in Hfile as [?|[? ?]]; [done|congruence].
    + by left.
    + intros c t Hc Hparts. destruct (Hnot c Hc). by exists t.
    + by left.
Qed.

Lemma walk_sound depth cur children d :
  walk_recursive depth cur children no_changes = Ok d →
  Forall (delete_ok fs should_delete children cur) (to_delete d)
  ∧ Forall (update_ok fs children cur) (files_to_update d)
  ∧ Forall (create_ok fs children cur) (files_to_create d)
  ∧ Forall (directory_ok fs children cur) (directories_to_create d).
Proof.
  revert cur children d. induction depth as [|depth IH]; intros cur children d Hwalk;
    [done|].
  apply walk_shape in Hwalk
    as (files & needed & level & below & Hfiles & Hneeded & Hlevel & Hbelow
        & Hdel & Hupd & Hcre & Hdir).
  rewrite Hdel, Hupd, Hcre, Hdir. rewrite !Forall_app.
  assert (∀ file, file ∈ all_files files needed →
    Forall (delete_ok fs should_delete children cur) (to_delete (level file).1)
    ∧ Forall (update_ok fs children cur) (files_to_update (level file).1)
    ∧ Forall (create_ok fs children cur) (files_to_create (level file).1)
    ∧ Forall (directory_ok fs children cur) (directories_to_create (level file).1))
    as Hlevel_sound.
  { intros file Hfile. pose proof (Hlevel file Hfile) as Hvisit.
    destruct (level file) as [dl e] eqn:Hlf.
    eapply level_sound; try done.
    intros ->. eapply walk_Ok_directory, Hbelow.
    apply list_elem_of_bind. exists file. unfold compose. rewrite Hlf. split; [left|done]. }
  assert (∀ file, file ∈ all_files files needed ≫= (snd ∘ level) →
    Forall (delete_ok fs should_delete children cur) (to_delete (below file))
    ∧ Forall (update_ok fs children cur) (files_to_update (below file))
    ∧ Forall (create_ok fs children cur) (files_to_create (below file))
    ∧ Forall (directory_ok fs children cur) (directories_to_create (below file)))
    as Hbelow_sound.
  { intros file Hfile. pose proof (Hbelow file Hfile) as Hwalk.
    destruct (elem_of_explore _ _ _ _ _ _ _ _ _ Hneeded Hlevel Hfile)
      as (_ & _ & Hdirectory & Hgroup).
    rewrite Hgroup in Hwalk. apply IH in Hwalk as (H1 & H2 & H3 & H4).
    split_and!; (eapply Forall_impl; [done|]); intros ?.
    - by apply delete_ok_below.
    - apply update_ok_below.
    - apply create_ok_below.
    - apply directory_ok_below. }
  split_and!; apply Forall_forall; intros x (f & Hx & Hf)%list_elem_of_bind;
    unfold compose in Hx;
    first [destruct (Hlevel_sound f Hf) as (H1 & H2 & H3 & H4)
          |destruct (Hbelow_sound f Hf) as (H1 & H2 & H3 & H4)];
    rewrite Forall_forall in H1; rewrite Forall_forall in H2;
    rewrite Forall_forall in H3; rewrite Forall_forall in H4;
    first [by apply H1|by apply H2|by apply H3|by apply H4].
Qed.
End walk_sound_main.
(** ** Every target is accounted for *)

Lemma file_scheduled_mono (fs : option node) (d' d : changes) (p : rel_path)
    (content : string) :
  changes_included d' d → file_scheduled fs d' p content → file_scheduled fs d p content.
Proof.
  intros (Hdel & Hupd & Hcre & Hdir). unfold file_scheduled.
  destruct (fs_lookup fs p) as [[| |]|]; set_solver.
Qed.

Lemma directory_scheduled_mono (fs : option node) (d' d : changes) (p : rel_path) :
  changes_included d' d → directory_scheduled fs d' p → directory_scheduled fs d p.
Proof.
  intros (Hdel & Hupd & Hcre & Hdir). unfold directory_scheduled.
  destruct (fs_lookup fs p) as [[| |]|]; set_solver.
Qed.

Section walk_complete.
Context (fs : option node) (should_delete : bool) (output : string).

#[local] Abbreviation visit := (visit fs should_delete output).
#[local] Abbreviation walk_recursive := (walk_recursive fs should_delete output).

(** In a successful call, what a name of the level adds and what the
    walk below an explored name adds are in the result. *)
Lemma walk_shape_included depth cur children d :
  walk_recursive (S depth) cur children no_changes = Ok d →
  ∃ files needed (level : string → changes * list string) (below : string → changes),
    let names := all_files files needed in
    let explore := names ≫= (snd ∘ level) in
    listing fs cur = Ok files
    ∧ for_each needed_add children ∅ = Ok needed
    ∧ (∀ file, file ∈ names → visit cur needed file (no_changes, []) = Ok (level file))
    ∧ (∀ file, file ∈ explore →
         walk_recursive depth (cur ++ [file]) (advance <$> needed !!! file) no_changes
         = Ok (below file))
    ∧ (∀ file, file ∈ names → changes_included (level file).1 d)
    ∧ (∀ file, file ∈ explore → changes_included (below file) d).
Proof.
  intros (files & needed & level & below & Hfiles & Hneeded & Hlevel & Hbelow
          & Hdel & Hupd & Hcre & Hdir)%walk_shape.
  exists files, needed, level, below. cbv zeta.
  split_and!; try done.
  - intros file Hfile. unfold changes_included. rewrite Hdel, Hupd, Hcre, Hdir.
    split_and!; intros x Hx; apply elem_of_app; left; apply list_elem_of_bind;
      by exists file.
  - intros file Hfile. unfold changes_included. rewrite Hdel, Hupd, Hcre, Hdir.
    split_and!; intros x Hx; apply elem_of_app; right; apply list_elem_of_bind;
      by exists file.
Qed.

Lemma walk_complete depth cur children d :
  walk_recursive depth cur children no_changes = Ok d →
  ∀ c, c ∈ children →
    file_scheduled fs d (cur ++ parts c) (file_content c)
    ∧ ∀ r t, parts c = r ++ t → r ≠ [] → t ≠ [] → directory_scheduled fs d (cur ++ r).
Proof.
  revert cur children d. induction depth as [|depth IH]; intros cur children d Hwalk c Hc;
    [done|].
  apply walk_shape_included in Hwalk
    as (files & needed & level & below & Hfiles & Hneeded & Hlevel & Hbelow
        & Hlevel_in & Hbelow_in).
  destruct (parts c) as [|file t0] eqn:Hparts.
  { by destruct (needed_parts _ _ _ Hneeded Hc). }
  assert (c ∈ group_of file children) as Hgroup by (apply elem_of_group_of; eauto).
  assert (needed !! file = Some (group_of file children)) as Hg.
  { rewrite (needed_lookup _ _ _ Hneeded). rewrite decide_False; [done|].
    intros Hnil. rewrite Hnil in Hgroup. by apply elem_of_nil in Hgroup. }
  assert (file ∈ all_files files needed) as Hfile.
  { apply elem_of_all_files. right. by rewrite Hg. }
  pose proof (Hlevel file Hfile) as Hvisit.
  destruct (level file) as [dl e] eqn:Hlf.
  apply visit_Ok in Hvisit. cbv zeta in Hvisit. rewrite Hg in Hvisit.
  specialize (Hlevel_in file Hfile). rewrite Hlf in Hlevel_in. simpl in Hlevel_in.
  destruct (forallb _ (group_of file children)) eqn:Hall.
  - destruct Hvisit as [-> Hd].
    assert (file ∈ all_files files needed ≫= (snd ∘ level)) as Hexplore.
    { apply list_elem_of_bind. exists file. unfold compose. rewrite Hlf.
      split; [left|done]. }
    destruct (group_needed_directory _ _ _ _ Hneeded Hg Hall) as [_ Htotal].
    pose proof (Hbelow file Hexplore) as Hwalk. rewrite Htotal in Hwalk.
    pose proof (walk_Ok_directory _ _ _ _ _ _ _ Hwalk) as Hdirectory.
    assert (advance c ∈ advance <$> group_of file children) as Hadv
      by by apply list_elem_of_fmap_2.
    destruct (IH _ _ _ Hwalk _ Hadv) as [Hleaf Hdirs].
    unfold advance in Hleaf, Hdirs. simpl in Hleaf, Hdirs. rewrite Hparts in Hleaf, Hdirs.
    simpl in Hleaf, Hdirs. rewrite <-app_assoc in Hleaf. simpl in Hleaf.
    split.
    + eapply file_scheduled_mono; [by apply Hbelow_in|done].
    + intros r t Hrt Hr Ht. destruct r as [|f r]; [done|].
      injection Hrt as <- Hrt. destruct r as [|f' r].
      * eapply directory_scheduled_mono; [exact Hlevel_in|].
        unfold directory_scheduled.
        destruct Hdirectory as [Hnone|[entries Hsome]].
        -- rewrite Hnone in *. subst dl. simpl. by left.
        -- by rewrite Hsome.
      * eapply directory_scheduled_mono; [by apply Hbelow_in|].
        specialize (Hdirs (f' :: r) t Hrt ltac:(done) Ht).
        by rewrite <-app_assoc in Hdirs.
  - destruct Hvisit as (c' & Hsingle & -> & Hd).
    rewrite Hsingle in Hall, Hg, Hgroup.
    apply list_elem_of_singleton in Hgroup as <-.
    destruct (group_leaf _ _ _ _ Hneeded Hg Hall) as (_ & Hleaf & _).
    rewrite Hparts in Hleaf. injection Hleaf as ->.
    split.
    + eapply file_scheduled_mono; [exact Hlevel_in|].
      unfold file_scheduled.
      destruct (fs_lookup fs (cur ++ [file])) as [[data| |]|].
      * case_bool_decide as Hdiff; subst dl; simpl.
        -- right. by left.
        -- left. destruct (decide (universal_newlines data = file_content c)); [done|].
           by destruct Hdiff.
      * destruct Hd as [_ ->]. simpl. split; by left.
      * destruct Hd as [_ ->]. simpl. split; by left.
      * subst dl. simpl. by left.
    + intros r t Hrt Hr Ht. destruct r as [|f [|f' r]]; try done.
      simpl in Hrt. by injection Hrt as <- <-.
Qed.
End walk_complete.
(** ** The change set of [compute_changes] *)

Lemma compute_changes_walk (fs : option node) (should_delete : bool) (output : string)
    (state : dict state_entry) :
  compute_changes fs should_delete output state
  = walk_recursive fs should_delete output
      (S (max_list (length ∘ parts <$> state_children state))) []
      (state_children state) no_changes.
Proof. reflexivity. Qed.

Lemma elem_of_state_children (state : dict state_entry) (c : needed_file) :
  c ∈ state_children state ↔
  ∃ key e, (key, e) ∈ state ∧ parts c = split "/" key ∧ file_content c = content e.
Proof.
  unfold state_children. rewrite list_elem_of_fmap. split.
  - intros ([key e] & -> & Hin). by exists key, e.
  - intros (key & e & Hin & Hparts & Hcontent). exists (key, e).
    destruct c. simpl in *. by subst.
Qed.

Lemma compute_changes_sound (fs : option node) (should_delete : bool) (output : string)
    (state : dict state_entry) (d : changes) :
  compute_changes fs should_delete output state = Ok d →
  Forall (delete_ok fs should_delete (state_children state) []) (to_delete d)
  ∧ Forall (update_ok fs (state_children state) []) (files_to_update d)
  ∧ Forall (create_ok fs (state_children state) []) (files_to_create d)
  ∧ Forall (directory_ok fs (state_children state) []) (directories_to_create d).
Proof. rewrite compute_changes_walk. apply walk_sound. Qed.

Lemma compute_changes_complete (fs : option node) (should_delete : bool)
    (output : string) (state : dict state_entry) (d : changes) (key : string)
    (e : state_entry) :
  compute_changes fs should_delete output state = Ok d →
  (key, e) ∈ state →
  file_scheduled fs d (split "/" key) (content e)
  ∧ ∀ r t, split "/" key = r ++ t → r ≠ [] → t ≠ [] → directory_scheduled fs d r.
Proof.
  rewrite compute_changes_walk. intros Hwalk Hin.
  apply (walk_complete _ _ _ _ _ _ _ Hwalk (NeededFile (split "/" key) (content e))).
  apply elem_of_state_children. by exists key, e.
Qed.

Lemma no_delete_nothing_deleted (fs : option node) (output : string)
    (state : dict state_entry) (d : changes) :
  compute_changes fs false output state = Ok d → to_delete d = [].
Proof.
  intros (Hdel & _)%compute_changes_sound.
  destruct (to_delete d) as [|p l]; [done|].
  apply Forall_cons in Hdel as [(r & f & _ & Hsd & _) _]. done.
Qed.



(** X8: With deletion disabled nothing is ever scheduled for deletion. *)
Theorem nothing_deleted_when_disabled (fs : option node) (output : string)
    (state : dict state_entry) (d : changes) :
  compute_changes fs false output state = Ok d → to_delete d = [].
Proof. apply no_delete_nothing_deleted. Qed.

Lemma nothing_deleted_when_disabled_witness :
  to_delete (Changes [] [] [Entry ["a.py"] "x"] []) = [].
Proof.
  apply (nothing_deleted_when_disabled (Some (Dir {["junk" := File "z"]})) "out"
           [("a.py", StateEntry "x" "2024-01-01")]).
  vm_compute. reflexivity.
Defined.



(** X9: A target path whose place is taken by something of the wrong kind
    makes the reconciliation fail: a file whose name is taken by a
    non-file when deletion is disabled, and a directory whose name is
    taken by a non-directory whatever the deletion setting. *)
Theorem type_conflict_is_fatal (fs : option node) (should_delete : bool)
    (output : string) (state : dict state_entry) (key : string) (e : state_entry)
    (r t : rel_path) (n : node) :
  (key, e) ∈ state →
  split "/" key = r ++ t → r ≠ [] →
  fs_lookup fs r = Some n →
  (t = [] → should_delete = false ∧ ∀ data, n ≠ File data) →
  (t ≠ [] → ∀ entries, n ≠ Dir entries) →
  ∀ d, compute_changes fs should_delete output state ≠ Ok d.
Proof.
  intros Hin Hkey Hr Hn Hfile Hdir d Hok.
  destruct (compute_changes_complete _ _ _ _ _ _ _ Hok Hin) as [Hleaf Hdirs].
  destruct (decide (t = [])) as [->|Ht].
  - destruct (Hfile eq_refl) as [-> Hnot]. rewrite app_nil_r in Hkey.
    unfold file_scheduled in Hleaf. rewrite Hkey, Hn in Hleaf.
    apply no_delete_nothing_deleted in Hok.
    destruct n; [by destruct (Hnot data)|..]; destruct Hleaf as [Hdel _];
      rewrite Hok in Hdel; by apply elem_of_nil in Hdel.
  - specialize (Hdirs r t Hkey Hr Ht). unfold directory_scheduled in Hdirs.
    rewrite Hn in Hdirs. destruct n; try done. by destruct (Hdir Ht entries).
Qed.

Lemma type_conflict_is_fatal_witness :
  ¬ ∃ d, compute_changes (Some (Dir {["a" := File "z"]})) true "out"
           [("a/b.py", StateEntry "x" "2024-01-01")] = Ok d.
Proof.
  intros [d Hd]. revert d Hd.
  apply (type_conflict_is_fatal (Some (Dir {["a" := File "z"]})) true "out"
           [("a/b.py", StateEntry "x" "2024-01-01")] "a/b.py"
           (StateEntry "x" "2024-01-01") ["a"] ["b.py"] (File "z")).
  - by left.
  - reflexivity.
  - discriminate.
  - reflexivity.
  - discriminate.
  - intros _ entries. discriminate.
Defined.
(** ** The exceptions of the reconciliation *)

Section walk_errors.
Context (fs : option node) (should_delete : bool) (output : string).

#[local] Abbreviation visit := (visit fs should_delete output).
#[local] Abbreviation walk_recursive := (walk_recursive fs should_delete output).

Lemma listing_Raise_lookup cur e :
  listing fs cur = Raise e →
  e = NotADirectoryError cur
  ∧ ∃ n, fs_lookup fs cur = Some n ∧ ∀ entries, n ≠ Dir entries.
Proof.
  unfold listing, os_path_exists, os_listdir.
  destruct (fs_lookup fs cur) as [[| |]|]; simpl; try done; intros [= <-];
    (split; [done|]); eexists; (split; [done|]); done.
Qed.

Lemma visit_Raise cur (needed : gmap string (list needed_file)) file s e :
  visit cur needed file s = Raise e →
  reconcile_error fs should_delete output e.
Proof.
  unfold visit, os_path_exists, os_path_isfile, os_path_isdir, read_text, os_path_join.
  destruct s as [acc explore].
  destruct (needed !! file) as [g|]; [|by case_match].
  destruct (forallb _ g).
  - destruct (fs_lookup fs (cur ++ [file])) as [[| |]|] eqn:Hl; simpl; try done;
      destruct should_delete; simpl; try done; intros [= <-];
      right; right; (split; [done|]); eexists _, _; (split; [exact Hl|]); left; done.
  - destruct g as [|c [|]]; try (by intros [= <-]; right; left).
    destruct (fs_lookup fs (cur ++ [file])) as [[| |]|] eqn:Hl; simpl; try done;
      try (by case_bool_decide);
      destruct should_delete; simpl; try done; intros [= <-];
      right; right; (split; [done|]); eexists _, _; (split; [exact Hl|]); right; done.
Qed.

(** Within the bound on the depth, a walk of children that all have a
    first segment ends in a change set or in one of the exceptions of
    [reconcile_error]. *)
Lemma walk_Raise depth cur children acc e :
  (∀ c, c ∈ children → 0 < length (parts c) ≤ depth) → 0 < depth →
  walk_recursive depth cur children acc = Raise e →
  reconcile_error fs should_delete output e.
Proof.
  revert cur children acc.
  induction depth as [|depth IH]; intros cur children acc Hlen Hdepth; [lia|].
  rewrite walk_recursive_S.
  destruct (listing fs cur) as [files|e'] eqn:Hfiles; simpl_result.
  2:{ intros [= <-]. apply listing_Raise_lookup in Hfiles as (-> & n & Hn & Hnot).
      left. by exists cur, n. }
  destruct (for_each needed_add children ∅) as [needed|e'] eqn:Hneeded; simpl_result.
  2:{ apply for_each_Raise in Hneeded as (c & s & Hc & Hadd).
      unfold needed_add in Hadd. destruct (parts c) eqn:Hparts; [|done].
      specialize (Hlen c Hc). rewrite Hparts in Hlen. simpl in Hlen. lia. }
  rewrite visit_loop_frame.
  destruct (for_each _ (all_files files needed) (no_changes, []))
    as [[d explore]|e'] eqn:Hloop; simpl_result.
  2:{ intros [= <-]. apply for_each_Raise in Hloop as (file & s & _ & Hvisit).
      by eapply visit_Raise. }
  intros (file & s & Hfile & Hwalk)%for_each_Raise.
  apply visit_loop_Ok in Hloop as (level & Hlevel & _ & ->).
  rewrite app_nil_l in Hfile.
  destruct (elem_of_explore _ _ _ _ _ _ _ _ _ Hneeded Hlevel Hfile)
    as (_ & _ & [(c0 & t0 & Hc0 & Ht0 & Hparts0) Hdir] & Hgroup).
  rewrite Hgroup in Hwalk.
  assert (∀ c, c ∈ advance <$> group_of file children → 0 < length (parts c) ≤ depth)
    as Hlen'.
  { intros c' (c & Hc & Hparts & _)%elem_of_advance_group.
    specialize (Hlen c Hc). rewrite Hparts in Hlen. simpl in Hlen.
    destruct (parts c') eqn:Hparts'; [by destruct (Hdir c Hc)|simpl in *; lia]. }
  eapply IH; [exact Hlen'| |exact Hwalk].
  assert (NeededFile t0 (file_content c0) ∈ advance <$> group_of file children) as Hin.
  { apply elem_of_advance_group. exists c0. by rewrite Hparts0. }
  apply Hlen' in Hin. simpl in Hin. lia.
Qed.
End walk_errors.

Lemma state_children_length (state : dict state_entry) (c : needed_file) :
  c ∈ state_children state →
  0 < length (parts c) ≤ S (max_list (length ∘ parts <$> state_children state)).
Proof.
  intros Hc. split.
  - apply elem_of_state_children in Hc as (key & e & _ & -> & _).
    pose proof (split_nonempty "/" key). destruct (split "/" key); [done|simpl; lia].
  - assert (length (parts c) ∈ length ∘ parts <$> state_children state) as Hin.
    { apply list_elem_of_fmap. by exists c. }
    apply max_list_elem_of_le in Hin. lia.
Qed.

(** The reconciliation ends in a change set or in one of four exceptions,
    each naming a path that exists on disk with the wrong kind (or the
    leaf assertion): the first segment of a child is always there
    (no [IndexError]) and the recursion is never deeper than the longest
    target path allows. *)
Theorem compute_changes_exceptions (fs : option node) (should_delete : bool)
    (output : string) (state : dict state_entry) (e : exn) :
  compute_changes fs should_delete output state = Raise e →
  reconcile_error fs should_delete output e.
Proof.
  rewrite compute_changes_walk. apply walk_Raise; [|lia].
  apply state_children_length.
Qed.

Lemma compute_changes_exceptions_witness :
  reconcile_error (Some (Dir {["a.py" := Dir ∅]})) false "out"
    (Exception "out/a.py exists and is not a file").
Proof.
  apply (compute_changes_exceptions (Some (Dir {["a.py" := Dir ∅]})) false "out"
           [("a.py", StateEntry "x" "2024-01-01")]).
  vm_compute. reflexivity.
Defined.
(** ** A missing output directory *)

Lemma for_each_ext {A B} (body1 body2 : B → A → result A) (l : list B) (a : A) :
  (∀ x s, x ∈ l → body1 x s = body2 x s) → for_each body1 l a = for_each body2 l a.
Proof.
  revert a. induction l as [|x l IH]; intros a Hext; [done|].
  cbn [for_each]. rewrite Hext by left.
  destruct (body2 x a) as [a'|]; [|done]. simpl_result.
  apply IH. intros ? ? ?. apply Hext. by right.
Qed.

(** An iteration looks at the tree only at the path of its name. *)
Lemma visit_ext (fs1 fs2 : option node) (should_delete : bool) (output : string)
    (cur : rel_path) (needed : gmap string (list needed_file)) (file : string)
    (s : changes * list string) :
  fs_lookup fs1 (cur ++ [file]) = fs_lookup fs2 (cur ++ [file]) →
  visit fs1 should_delete output cur needed file s
  = visit fs2 should_delete output cur needed file s.
Proof.
  intros Hl. unfold visit, os_path_exists, os_path_isfile, os_path_isdir, read_text,
    os_path_join. by rewrite Hl.
Qed.

(** A walk looks at the tree only through the listing of its directory
    and at the paths below it. *)
Lemma walk_ext (fs1 fs2 : option node) (should_delete : bool) (output : string)
    (depth : nat) (cur : rel_path) (children : list needed_file) (acc : changes) :
  listing fs1 cur = listing fs2 cur →
  (∀ q, q ≠ [] → fs_lookup fs1 (cur ++ q) = fs_lookup fs2 (cur ++ q)) →
  walk_recursive fs1 should_delete output depth cur children acc
  = walk_recursive fs2 should_delete output depth cur children acc.
Proof.
  revert cur children acc. induction depth as [|depth IH]; intros cur children acc Hfiles Hl;
    [done|].
  rewrite !walk_recursive_S, Hfiles.
  destruct (listing fs2 cur) as [files|]; [|done]. simpl_result.
  destruct (for_each needed_add children ∅) as [needed|]; [|done]. simpl_result.
  rewrite (for_each_ext (visit fs1 should_delete output cur needed)
             (visit fs2 should_delete output cur needed)).
  2:{ intros file s _. apply visit_ext. by apply Hl. }
  destruct (for_each _ (all_files files needed) _) as [[acc' explore]|]; [|done].
  simpl_result. apply for_each_ext. intros file s _. apply IH.
  - unfold listing, os_path_exists, os_listdir. by rewrite Hl.
  - intros q Hq. rewrite <-!app_assoc. apply Hl. by destruct q.
Qed.

Lemma fs_lookup_None (p : rel_path) : fs_lookup None p = None.
Proof. done. Qed.

Lemma fs_lookup_empty (p : rel_path) : p ≠ [] → fs_lookup (Some (Dir ∅)) p = None.
Proof. by destruct p. Qed.

(** A missing output directory is reconciled like an empty one. *)
Lemma missing_root_as_empty (should_delete : bool) (output : string)
    (state : dict state_entry) :
  compute_changes None should_delete output state
  = compute_changes (Some (Dir ∅)) should_delete output state.
Proof.
  rewrite !compute_changes_walk. apply walk_ext.
  - unfold listing, os_path_exists, os_listdir. simpl.
    by rewrite dom_empty_L, elements_empty.
  - intros q Hq. change ([] ++ q) with q. by rewrite fs_lookup_empty.
Qed.
(** ** Path strings *)

Lemma string_app_nil_r (s : string) : s +:+ "" = s.
Proof. induction s as [|c s IH]; [done|]. app_cons. by rewrite IH. Qed.

Lemma string_app_assoc (a b c : string) : (a +:+ b) +:+ c = a +:+ b +:+ c.
Proof. induction a as [|x a IH]; [done|]. app_cons. by rewrite IH. Qed.

Lemma string_app_length (a b : string) :
  String.length (a +:+ b) = String.length a + String.length b.
Proof. induction a as [|x a IH]; [done|]. app_cons. simpl. by rewrite IH. Qed.

Lemma split_no_slash (s seg : string) : seg ∈ split "/" s → no_slash seg = true.
Proof.
  revert seg. induction s as [|c s IH]; intros seg; simpl.
  - by intros ->%list_elem_of_singleton.
  - destruct (Ascii.eqb c "/") eqn:Hc.
    + intros [->|Hin]%elem_of_cons; [done|by apply IH].
    + destruct (split "/" s) as [|w ws].
      * intros ->%list_elem_of_singleton. simpl. by rewrite Hc.
      * intros [->|Hin]%elem_of_cons.
        -- simpl. rewrite Hc. simpl. apply IH. by left.
        -- apply IH. by right.
Qed.

Lemma no_slash_starts (s : string) : no_slash s = true → starts_with_slash s = false.
Proof.
  destruct s as [|c s]; simpl; [done|]. intros [Hc _]%andb_true_iff.
  by apply negb_true_iff in Hc.
Qed.

Lemma ends_with_slash_app (a b : string) :
  b ≠ "" → ends_with_slash (a +:+ b) = ends_with_slash b.
Proof.
  intros Hb. induction a as [|c a IH]; [done|]. app_cons.
  destruct (a +:+ b) eqn:Hab; [|done].
  destruct a, b; done.
Qed.

Lemma no_slash_ends (s : string) : no_slash s = true → ends_with_slash s = false.
Proof.
  induction s as [|c s IH]; [done|]. simpl. intros [Hc Hs]%andb_true_iff.
  destruct s; [by apply negb_true_iff in Hc|by apply IH].
Qed.

Lemma posix_join_plain (a b : string) :
  no_slash b = true → posix_join a b = (a +:+ join_separator a) +:+ b.
Proof.
  intros Hb. unfold posix_join, join_separator. rewrite (no_slash_starts _ Hb).
  destruct (String.eqb a "" || ends_with_slash a).
  - by rewrite string_app_nil_r.
  - by rewrite string_app_assoc.
Qed.

(** After a first plain segment, every further one comes after a slash. *)
Lemma path_str_tail (a : string) (r : rel_path) :
  a ≠ "" → ends_with_slash a = false → Forall plain_segment r →
  foldl posix_join a r = a +:+ tail_str r.
Proof.
  revert a. induction r as [|s r IH]; intros a Ha Hend Hr; simpl.
  - by rewrite string_app_nil_r.
  - apply Forall_cons in Hr as [[Hs Hslash] Hr].
    rewrite posix_join_plain by done.
    unfold join_separator. rewrite Hend.
    destruct (String.eqb_spec a ""); [done|]. simpl.
    rewrite IH; [by rewrite !string_app_assoc|..|done].
    + by destruct a.
    + rewrite ends_with_slash_app by done. by apply no_slash_ends.
Qed.

Lemma path_str_cons (output s : string) (r : rel_path) :
  Forall plain_segment (s :: r) →
  path_str output (s :: r) = (output +:+ join_separator output) +:+ s +:+ tail_str r.
Proof.
  intros [[Hs Hslash] Hr]%Forall_cons. unfold path_str. simpl.
  rewrite path_str_tail; try done.
  - by rewrite posix_join_plain, string_app_assoc.
  - rewrite posix_join_plain by done. destruct (output +:+ join_separator output); [|done].
    by destruct s.
  - rewrite posix_join_plain, ends_with_slash_app by done. by apply no_slash_ends.
Qed.

(** Where a plain segment ends is determined by the string. *)
Lemma segment_end (s s' t t' : string) :
  no_slash s = true → no_slash s' = true →
  starts_with_slash t = true ∨ t = "" → starts_with_slash t' = true ∨ t' = "" →
  s +:+ t = s' +:+ t' → s = s' ∧ t = t'.
Proof.
  revert s'. induction s as [|c s IH]; intros s' Hs Hs' Ht Ht'.
  - destruct s' as [|c' s']; [done|]. app_cons. intros ->. exfalso.
    simpl in Hs', Ht. apply andb_true_iff in Hs' as [Hc' _].
    apply negb_true_iff in Hc'. destruct Ht as [Ht|Ht]; congruence.
  - destruct s' as [|c' s']; app_cons.
    + intros <-. exfalso. simpl in Hs, Ht'. apply andb_true_iff in Hs as [Hc _].
      apply negb_true_iff in Hc. destruct Ht' as [Ht'|Ht']; congruence.
    + intros [= <- Heq]. simpl in Hs, Hs'.
      apply andb_true_iff in Hs as [_ Hs]. apply andb_true_iff in Hs' as [_ Hs'].
      destruct (IH s' Hs Hs' Ht Ht' Heq) as [-> ->]. done.
Qed.

Lemma tail_str_starts (r : rel_path) : starts_with_slash (tail_str r) = true ∨ tail_str r = "".
Proof. destruct r; [by right|by left]. Qed.

Lemma tail_str_inj (r r' : rel_path) :
  Forall plain_segment r → Forall plain_segment r' → tail_str r = tail_str r' → r = r'.
Proof.
  revert r'. induction r as [|s r IH]; intros [|s' r'] Hr Hr'; simpl; try done.
  apply Forall_cons in Hr as [[_ Hs] Hr]. apply Forall_cons in Hr' as [[_ Hs'] Hr'].
  app_cons. intros [= Heq].
  apply segment_end in Heq as [-> Heq]; try done; try apply tail_str_starts.
  f_equal. by apply IH.
Qed.

(** The string of a path made of plain segments determines the path. *)
Lemma path_str_inj (output : string) (p q : rel_path) :
  Forall plain_segment p → Forall plain_segment q →
  path_str output p = path_str output q → p = q.
Proof.
  intros Hp Hq.
  assert (∀ s r, Forall plain_segment (s :: r) → path_str output (s :: r) ≠ output) as Hne.
  { intros s r Hsr Heq. rewrite path_str_cons in Heq by done.
    apply (f_equal String.length) in Heq. rewrite !string_app_length in Heq.
    apply Forall_cons in Hsr as [[Hs _] _]. destruct s; [done|]. simpl in Heq. lia. }
  destruct p as [|s r], q as [|s' r']; try done.
  - intros Heq. symmetry in Heq. by apply Hne in Heq.
  - intros Heq. by apply Hne in Heq.
  - rewrite !path_str_cons by done. intros Heq%(inj (String.append _)).
    apply Forall_cons in Hp as [[_ Hs] Hp]. apply Forall_cons in Hq as [[_ Hs'] Hq].
    apply segment_end in Heq as [-> Heq]; try done; try apply tail_str_starts.
    f_equal. by apply tail_str_inj.
Qed.

Lemma path_str_not_output (output : string) (p : rel_path) :
  p ≠ [] → Forall plain_segment p → path_str output p ≠ output.
Proof.
  intros Hp Hplain Heq. apply Hp.
  apply (path_str_inj output); [done|constructor|done].
Qed.
(** ** Which lists can share a path *)

Lemma state_children_plain (state : dict state_entry) (c : needed_file) :
  segments_nonempty state → c ∈ state_children state → Forall plain_segment (parts c).
Proof.
  intros Hnonempty (key & e & Hin & -> & _)%elem_of_state_children.
  apply Forall_forall. intros seg Hseg. split.
  - intros ->. apply (Hnonempty key); [|done].
    apply list_elem_of_fmap. by exists (key, e).
  - by eapply split_no_slash.
Qed.

Section listed_plain.
Context (fs : option node) (should_delete : bool) (output : string).
Context (state : dict state_entry) (d : changes).
Context (Hok : compute_changes fs should_delete output state = Ok d).
Context (Hnonempty : segments_nonempty state).

Lemma directory_plain p :
  p ∈ directories_to_create d → p ≠ [] ∧ Forall plain_segment p.
Proof using Hok Hnonempty.
  intros Hp. apply compute_changes_sound in Hok as (_ & _ & _ & Hdir).
  rewrite Forall_forall in Hdir.
  destruct (Hdir p Hp) as (r & Hr & -> & _ & (c & t & Hc & _ & Hparts) & _).
  simpl. split; [done|].
  apply (state_children_plain _ _ Hnonempty) in Hc. rewrite Hparts in Hc.
  by apply Forall_app in Hc as [? _].
Qed.

Lemma created_plain e :
  e ∈ files_to_create d → path e ≠ [] ∧ Forall plain_segment (path e).
Proof using Hok Hnonempty.
  intros He. apply compute_changes_sound in Hok as (_ & _ & Hcre & _).
  rewrite Forall_forall in Hcre.
  destruct (Hcre e He) as (c & Hc & -> & _). simpl.
  pose proof (state_children_length _ _ Hc) as [Hlen _].
  split; [|by apply (state_children_plain state)].
  intros Hnil. rewrite Hnil in Hlen. simpl in Hlen. lia.
Qed.

Lemma updated_plain e :
  e ∈ files_to_update d → Forall plain_segment (path e).
Proof using Hok Hnonempty.
  intros He. apply compute_changes_sound in Hok as (_ & Hupd & _ & _).
  rewrite Forall_forall in Hupd.
  destruct (Hupd e He) as (c & data & Hc & -> & _). simpl.
  by apply (state_children_plain state).
Qed.

Lemma deleted_plain p :
  plain_tree fs → p ∈ to_delete d → Forall plain_segment p.
Proof using Hok.
  intros Hplain Hp. apply compute_changes_sound in Hok as (Hdel & _).
  rewrite Forall_forall in Hdel.
  destruct (Hdel p Hp) as (r & f & -> & _ & Hsome & _). by apply Hplain.
Qed.
End listed_plain.

Lemma plain_node_tree (k : nat) (n : node) : plain_node k n → plain_tree (Some n).
Proof.
  intros Hn p. revert k n Hn. induction p as [|name p IH]; intros k n Hn; [by constructor|].
  simpl. destruct n as [|entries|]; try (by intros [? ?]).
  destruct (entries !! name) as [n'|] eqn:Hname; simpl; [|by intros [? ?]].
  destruct k as [|k]; simpl in Hn.
  - subst entries. by rewrite lookup_empty in Hname.
  - destruct (Hn name n' Hname) as [Hplain Hn']. intros Hsome.
    constructor; [done|]. by apply (IH k n').
Qed.



(** ** The final state as a whole *)

Lemma leb_refl (a : string) : String.leb a a = true.
Proof. apply Is_true_true. change (String.le a a). done. Qed.

Lemma leb_trans (a b c : string) :
  String.leb a b = true → String.leb b c = true → String.leb a c = true.
Proof.
  intros H1%Is_true_true H2%Is_true_true. apply Is_true_true.
  change (String.le a c). by trans b.
Qed.

Lemma dict_get_store (state : dict state_entry) (q c d p : string) :
  dict_get (store state q c d) p
  = if decide (q = p) then
      match dict_get state q with
      | Some old =>
          if String.leb d (date old) then Some old else Some (StateEntry c d)
      | None => Some (StateEntry c d)
      end
    else dict_get state p.
Proof.
  unfold store. destruct (decide (q = p)) as [->|Hne].
  - destruct (dict_get state p) as [[c' d']|] eqn:Hp; simpl.
    + destruct (String.leb d d'); [done|apply dict_get_set].
    + apply dict_get_set.
  - destruct (dict_get state q) as [[c' d']|]; simpl.
    + destruct (String.leb d d'); [done|by apply dict_get_set_ne].
    + by apply dict_get_set_ne.
Qed.

Lemma final_state_step_Ok (file_structure : FileStructure) (only_category : option string)
    (collapse : bool) (solutions : list solution) (x : solution)
    (state state' : dict state_entry) :
  x ∈ solutions →
  final_state_step file_structure only_category collapse (collect_codes solutions) x state
  = Ok state' →
  state' = match record_path file_structure only_category collapse solutions x with
           | Some q => store state q (code x) (submitted x)
           | None => state
           end.
Proof.
  intros Hx. unfold record_path.
  destruct (skipped only_category (scoring x)) eqn:Hskip.
  - unfold final_state_step. cbv zeta.
    destruct (collect_codes_is_Some solutions x Hx) as [codes ->].
    rewrite Hskip. by intros [= <-].
  - rewrite final_state_step_unfold by done.
    destruct (get_solution_path _ _ _ _); simpl_result; [by intros [= <-]|done].
Qed.

(** The invariant of the second loop, after the records [done_]. *)
Lemma final_state_invariant (file_structure : FileStructure)
    (only_category : option string) (collapse : bool)
    (solutions done_ rest : list solution) (state : dict state_entry) (p : string) :
  solutions = done_ ++ rest →
  for_each (final_state_step file_structure only_category collapse
              (collect_codes solutions)) done_ [] = Ok state →
  match dict_get state p with
  | Some e =>
      ∃ i s, latest_first (record_path file_structure only_category collapse solutions)
               done_ p i s
             ∧ e = StateEntry (code s) (submitted s)
  | None =>
      ∀ s, s ∈ done_ →
        record_path file_structure only_category collapse solutions s ≠ Some p
  end.
Proof.
  revert rest state.
  induction done_ as [|x done_ IH] using rev_ind; intros rest state Hsolutions.
  { intros [= <-]. simpl. by intros s ?%elem_of_nil. }
  rewrite for_each_app. intros (st & Hst & Hstep)%bind_Ok.
  cbn [for_each] in Hstep. apply bind_Ok in Hstep as (st' & Hstep & [= <-]).
  rewrite <-app_assoc in Hsolutions. specialize (IH _ _ Hsolutions Hst).
  apply final_state_step_Ok in Hstep; [|rewrite Hsolutions; set_solver]. subst st'.
  set (path_of := record_path file_structure only_category collapse solutions) in *.
  assert (∀ i s, latest_first path_of done_ p i s → path_of x ≠ Some p →
            latest_first path_of (done_ ++ [x]) p i s) as Hkeep.
  { intros i s (Hi & Hs & Hmax) Hx. split; [by apply lookup_app_l_Some|]. split; [done|].
    intros j s' [[_ Hj]|[-> <-]]%lookup_snoc_Some Hs'; [by apply Hmax|done]. }
  destruct (path_of x) as [q|] eqn:Hq.
  2:{ destruct (dict_get st p) as [e|].
      - destruct IH as (i & s & Hlatest & ->). exists i, s. split; [|done].
        by apply Hkeep.
      - intros s [Hs| ->%list_elem_of_singleton]%elem_of_app; [by apply IH|congruence]. }
  rewrite dict_get_store. destruct (decide (q = p)) as [->|Hne].
  2:{ destruct (dict_get st p) as [e|].
      - destruct IH as (i & s & Hlatest & ->). exists i, s. split; [|done].
        apply Hkeep; [done|congruence].
      - intros s [Hs| ->%list_elem_of_singleton]%elem_of_app; [by apply IH|congruence]. }
  destruct (dict_get st p) as [e|].
  - destruct IH as (i & s & (Hi & Hs & Hmax) & ->). simpl.
    destruct (String.leb (submitted x) (submitted s)) eqn:Hle.
    + exists i, s. split; [|done]. split; [by apply lookup_app_l_Some|]. split; [done|].
      intros j s' [[_ Hj]|[-> <-]]%lookup_snoc_Some Hs'; [by apply Hmax|].
      split; [done|]. intros Hlt. apply lookup_lt_Some in Hi. lia.
    + exists (length done_), x. split; [|done].
      split; [by apply list_lookup_middle|]. split; [done|].
      assert (String.leb (submitted s) (submitted x) = true) as Hsx.
      { destruct (String.leb_total (submitted s) (submitted x)); congruence. }
      intros j s' [[_ Hj]|[-> <-]]%lookup_snoc_Some Hs'.
      * destruct (Hmax j s' Hj Hs') as [Hle' _]. split; [by eapply leb_trans|].
        intros _. destruct (String.leb (submitted x) (submitted s')) eqn:Hxs'; [|done].
        rewrite (leb_trans _ _ _ Hxs' Hle') in Hle. done.
      * split; [apply leb_refl|lia].
  - exists (length done_), x. split; [|done].
    split; [by apply list_lookup_middle|]. split; [done|].
    intros j s' [[_ Hj]|[-> <-]]%lookup_snoc_Some Hs'.
    + destruct (IH s'); [by eapply list_elem_of_lookup_2|done].
    + split; [apply leb_refl|lia].
Qed.

(** X1: In the final state, the entry of a path comes from the record with the
    greatest timestamp among those that resolve to the path, the first
    such record in the order of the export on equal timestamps; a path
    without an entry is the path of no record. *)
Theorem final_state_latest_first (file_structure : FileStructure)
    (only_category : option string) (collapse_same_categories : bool)
    (solutions : list solution) (state : dict state_entry) (p : string) :
  compute_final_state file_structure only_category collapse_same_categories solutions
  = Ok state →
  match dict_get state p with
  | Some e =>
      ∃ i s, latest_first (record_path file_structure only_category
                             collapse_same_categories solutions) solutions p i s
             ∧ e = StateEntry (code s) (submitted s)
  | None =>
      ∀ s, s ∈ solutions →
        record_path file_structure only_category collapse_same_categories solutions s
        ≠ Some p
  end.
Proof.
  intros Hok. apply (final_state_invariant _ _ _ solutions solutions []); [|done].
  by rewrite app_nil_r.
Qed.

Lemma final_state_latest_first_witness :
  let solutions := [Solution "fizz-buzz" "python" "bytes" "2024-01-02" "A";
                    Solution "fizz-buzz" "python" "bytes" "2024-01-02" "B";
                    Solution "fizz-buzz" "python" "bytes" "2024-01-01" "C"] in
  ∃ i s, latest_first (record_path HOLE_EXTENSION None false solutions) solutions
           "fizz-buzz-bytes.py" i s
         ∧ StateEntry "A" "2024-01-02" = StateEntry (code s) (submitted s).
Proof.
  apply (final_state_latest_first HOLE_EXTENSION None false
           [Solution "fizz-buzz" "python" "bytes" "2024-01-02" "A";
            Solution "fizz-buzz" "python" "bytes" "2024-01-02" "B";
            Solution "fizz-buzz" "python" "bytes" "2024-01-01" "C"]
           [("fizz-buzz-bytes.py", StateEntry "A" "2024-01-02")] "fizz-buzz-bytes.py").
  vm_compute. reflexivity.
Defined.
(** ** When the aggregation succeeds *)

Lemma for_each_Ok_all {A B} (body : B → A → result A) (l : list B) (a : A) :
  (∀ x s, x ∈ l → ∃ s', body x s = Ok s') → ∃ a', for_each body l a = Ok a'.
Proof.
  revert a. induction l as [|x l IH]; intros a Hall; [by eexists|].
  cbn [for_each]. destruct (Hall x a) as [s' ->]; [left|]. simpl_result.
  apply IH. intros ? ? ?. apply Hall. by right.
Qed.

(** X2: The aggregation returns a target mapping exactly when every record that
    the category filter lets through has a language of the language table:
    nothing else makes it fail. *)
Theorem final_state_succeeds_iff (file_structure : FileStructure)
    (only_category : option string) (collapse_same_categories : bool)
    (solutions : list solution) :
  (∃ state, compute_final_state file_structure only_category collapse_same_categories
              solutions = Ok state)
  ↔ ∀ s, s ∈ solutions → skipped only_category (scoring s) = false →
      is_Some (LANGUAGE_NAMES_EXTENSIONS !! lang s).
Proof.
  split.
  - intros [state Hok] s Hs Hskip.
    destruct (LANGUAGE_NAMES_EXTENSIONS !! lang s) eqn:Hl; [done|].
    destruct (final_state_raises file_structure only_category collapse_same_categories
                (collect_codes solutions) solutions []) as (l & _ & Hraise).
    + intros. by apply collect_codes_is_Some.
    + eauto.
    + unfold compute_final_state in Hok. congruence.
  - intros Hknown. unfold compute_final_state. apply for_each_Ok_all.
    intros x state Hx.
    destruct (final_state_step_result file_structure only_category collapse_same_categories
                (collect_codes solutions) x state) as [(Hskip & Hl & _)|[_ Hok]].
    + by apply collect_codes_is_Some.
    + specialize (Hknown x Hx Hskip). rewrite Hl in Hknown. by destruct Hknown.
    + done.
Qed.
(** ** The paths of the target mapping *)

Lemma language_table_plain (l name ext : string) :
  LANGUAGE_NAMES_EXTENSIONS !! l = Some (name, ext) →
  l ≠ "" ∧ no_slash l = true ∧ no_slash ext = true.
Proof.
  unfold LANGUAGE_NAMES_EXTENSIONS. intros H%elem_of_list_to_map_2.
  set (P := λ x : string * (string * string),
              x.1 ≠ "" ∧ no_slash x.1 = true ∧ no_slash x.2.2 = true).
  change (P (l, (name, ext))). revert H. generalize (l, (name, ext)).
  apply (proj1 (Forall_forall P _)). unfold P.
  refine (bool_decide_unpack _ _). vm_compute. exact I.
Qed.

Lemma no_slash_app (a b : string) : no_slash (a +:+ b) = no_slash a && no_slash b.
Proof.
  induction a as [|c a IH]; [done|]. app_cons. simpl. rewrite IH.
  by rewrite andb_assoc.
Qed.

Lemma split_plain (s : string) : no_slash s = true → split "/" s = [s].
Proof.
  induction s as [|c s IH]; [done|]. simpl.
  intros [Hc Hs]%andb_true_iff. apply negb_true_iff in Hc. rewrite Hc.
  by rewrite (IH Hs).
Qed.

Lemma split_app_slash (a b : string) :
  no_slash a = true → split "/" (a +:+ String "/" b) = a :: split "/" b.
Proof.
  induction a as [|c a IH]; [done|]. app_cons. simpl.
  intros [Hc Ha]%andb_true_iff. apply negb_true_iff in Hc. rewrite Hc.
  by rewrite (IH Ha).
Qed.

Lemma category_suffix_plain (collapse unique : bool) (only_category : option string)
    (category : string) :
  no_slash category = true →
  no_slash (category_suffix (category_argument collapse unique only_category category))
  = true.
Proof.
  intros Hc. unfold category_argument, category_suffix.
  destruct (collapse && unique && negb (truthy only_category)); [done|].
  destruct (truthy (Some category)); [|done]. by rewrite no_slash_app, Hc.
Qed.

Lemma string_app_not_empty (a b : string) : b ≠ "" → a +:+ b ≠ "".
Proof.
  intros Hb Hab. apply (f_equal String.length) in Hab.
  rewrite string_app_length in Hab. destruct b; [done|]. simpl in Hab. lia.
Qed.

(** The segments of a resolved path, for a hole and a category without
    slashes. *)
Lemma solution_path_segments (file_structure : FileStructure) (hole_code language_code : string)
    (collapse unique : bool) (only_category : option string) (category p : string) :
  plain_segment hole_code → no_slash category = true →
  get_solution_path file_structure hole_code language_code
    (category_argument collapse unique only_category category) = Ok p →
  length (split "/" p) = layout_depth file_structure ∧ "" ∉ split "/" p.
Proof.
  intros [Hne Hhole] Hcat. unfold get_solution_path.
  destruct (LANGUAGE_NAMES_EXTENSIONS !! language_code) as [[name ext]|] eqn:Hl; [|done].
  apply language_table_plain in Hl as (Hlne & Hlang & Hext).
  pose proof (category_suffix_plain collapse unique only_category category Hcat) as Hsuffix.
  cbv zeta.
  set (suffix := category_suffix (category_argument collapse unique only_category category))
    in *.
  assert (∀ a, no_slash a = true →
            split "/" (a +:+ suffix +:+ "." +:+ ext) = [a +:+ suffix +:+ "." +:+ ext]
            ∧ a +:+ suffix +:+ "." +:+ ext ≠ "") as Hlast.
  { intros a Ha. split.
    - apply split_plain. by rewrite !no_slash_app, Ha, Hsuffix, Hext.
    - by do 2 apply string_app_not_empty. }
  intros [= <-]. destruct file_structure; simpl.
  - change ("/" +:+ ?x) with (String "/" x). rewrite split_app_slash by done.
    destruct (Hlast hole_code Hhole) as [-> ?]. split; [done|].
    rewrite !elem_of_cons. intros [?|[?|?%elem_of_nil]]; done.
  - change ("/" +:+ ?x) with (String "/" x). rewrite split_app_slash by done.
    destruct (Hlast language_code Hlang) as [-> ?]. split; [done|].
    rewrite !elem_of_cons. intros [?|[?|?%elem_of_nil]]; done.
  - change ("/solution" +:+ ?x) with (String "/" ("solution" +:+ x)).
    rewrite split_app_slash by done.
    destruct (Hlast "solution" eq_refl) as [-> ?]. split; [done|].
    rewrite !elem_of_cons. intros [?|[?|?%elem_of_nil]]; done.
  - destruct (Hlast hole_code Hhole) as [-> ?]. split; [done|].
    rewrite !elem_of_cons. intros [?|?%elem_of_nil]; done.
Qed.

Lemma dict_set_keys {V} (d : dict V) (k : string) (v : V) :
  (dict_set d k v).*1 = if decide (k ∈ d.*1) then d.*1 else d.*1 ++ [k].
Proof.
  induction d as [|[k' v'] d IH]; [done|]. cbn [dict_set].
  destruct (decide (k' = k)) as [->|Hne]; rewrite !fmap_cons; cbn [fst].
  - rewrite decide_True by left. done.
  - rewrite IH. destruct (decide (k ∈ d.*1)) as [Hin|Hin].
    + rewrite decide_True by (by right). done.
    + rewrite decide_False; [done|]. intros [?|?]%elem_of_cons; done.
Qed.

Lemma dict_set_NoDup {V} (d : dict V) (k : string) (v : V) :
  NoDup d.*1 → NoDup (dict_set d k v).*1.
Proof.
  intros Hd. rewrite dict_set_keys. destruct (decide (k ∈ d.*1)); [done|].
  apply NoDup_app. split; [done|]. split; [|apply NoDup_singleton].
  intros x Hx ->%list_elem_of_singleton. done.
Qed.

Lemma store_NoDup (state : dict state_entry) (p c d : string) :
  NoDup state.*1 → NoDup (store state p c d).*1.
Proof.
  intros Hd. unfold store. destruct (dict_get state p) as [[? old]|].
  - destruct (String.leb d old); [done|by apply dict_set_NoDup].
  - by apply dict_set_NoDup.
Qed.

Lemma dict_get_is_Some {V} (d : dict V) (k : string) :
  k ∈ d.*1 → is_Some (dict_get d k).
Proof.
  induction d as [|[k' v'] d IH]; simpl; [by intros ?%elem_of_nil|].
  intros [->|Hin]%elem_of_cons; [by rewrite decide_True|].
  destruct (decide (k' = k)); [done|by apply IH].
Qed.

Lemma final_state_NoDup (file_structure : FileStructure) (only_category : option string)
    (collapse : bool) (solutions : list solution) (state : dict state_entry) :
  compute_final_state file_structure only_category collapse solutions = Ok state →
  NoDup state.*1.
Proof.
  unfold compute_final_state.
  apply (for_each_invariant (λ st : dict state_entry, NoDup st.*1)); [|constructor].
  intros x s s' Hx Hs Hstep. apply final_state_step_Ok in Hstep; [|done]. subst s'.
  destruct (record_path _ _ _ _ x); [by apply store_NoDup|done].
Qed.

Lemma final_state_key (file_structure : FileStructure) (only_category : option string)
    (collapse : bool) (solutions : list solution) (state : dict state_entry) (key : string) :
  compute_final_state file_structure only_category collapse solutions = Ok state →
  key ∈ state.*1 →
  ∃ s, s ∈ solutions
       ∧ record_path file_structure only_category collapse solutions s = Some key.
Proof.
  intros Hok [e He]%dict_get_is_Some.
  pose proof (final_state_invariant file_structure only_category collapse solutions
                solutions [] state key) as Hinv.
  rewrite app_nil_r, He in Hinv. destruct (Hinv eq_refl Hok) as (i & s & (Hi & Hs & _) & _).
  exists s. split; [by eapply list_elem_of_lookup_2|done].
Qed.

(** X3: With hole names that are plain segments and category names without
    slashes, the keys of the target mapping are pairwise distinct, each
    has as many segments as the layout has levels, none of them empty, and
    none is a proper prefix of another; the reconciliation of such a
    mapping never ends in the [AssertionError] of the leaf assertion. *)
Theorem target_paths_well_formed (file_structure : FileStructure)
    (only_category : option string) (collapse_same_categories : bool)
    (solutions : list solution) (state : dict state_entry) :
  (∀ s, s ∈ solutions → plain_segment (hole s) ∧ no_slash (scoring s) = true) →
  compute_final_state file_structure only_category collapse_same_categories solutions
  = Ok state →
  NoDup state.*1
  ∧ (∀ key, key ∈ state.*1 → length (split "/" key) = layout_depth file_structure)
  ∧ segments_nonempty state
  ∧ no_proper_prefix state
  ∧ ∀ fs should_delete output,
      compute_changes fs should_delete output state ≠ Raise AssertionError.
Proof.
  intros Hplain Hok.
  assert (∀ key, key ∈ state.*1 →
            length (split "/" key) = layout_depth file_structure ∧ "" ∉ split "/" key)
    as Hkeys.
  { intros key (s & Hs & Hpath)%(final_state_key _ _ _ _ _ _ Hok).
    unfold record_path in Hpath.
    destruct (skipped only_category (scoring s)); [done|].
    destruct (get_solution_path _ _ _ _) as [p|] eqn:Hp; [|done].
    injection Hpath as ->. destruct (Hplain s Hs) as [Hhole Hscoring].
    by eapply solution_path_segments. }
  pose proof (final_state_NoDup _ _ _ _ _ Hok) as Hnodup.
  assert (no_proper_prefix state) as Hprefix.
  { unfold no_proper_prefix. apply Forall_forall. intros k1 H1.
    apply Forall_forall. intros k2 H2 Hpre.
    apply prefix_length_eq; [done|].
    destruct (Hkeys k1 H1) as [-> _]. destruct (Hkeys k2 H2) as [-> _]. done. }
  split_and!; [done|by intros key [? _]%Hkeys|by intros key [_ ?]%Hkeys|done|].
  intros fs should_delete output. unfold compute_changes.
  apply walk_no_AssertionError. rewrite state_children_parts.
  by apply keys_prefix_free.
Qed.

Lemma target_paths_well_formed_witness :
  let state := [("fizz-buzz/python-bytes.py", StateEntry "A" "2024-01-02");
                ("fizz-buzz/c-chars.c", StateEntry "B" "2024-01-01")] in
  NoDup state.*1
  ∧ (∀ key, key ∈ state.*1 → length (split "/" key) = 2)
  ∧ segments_nonempty state
  ∧ no_proper_prefix state
  ∧ ∀ fs should_delete output,
      compute_changes fs should_delete output state ≠ Raise AssertionError.
Proof.
  apply (target_paths_well_formed HOLE_LANGUAGE_EXTENSION None false
           [Solution "fizz-buzz" "python" "bytes" "2024-01-02" "A";
            Solution "fizz-buzz" "c" "chars" "2024-01-01" "B"]).
  - intros s Hs. repeat (apply elem_of_cons in Hs as [->|Hs]); [..|by apply elem_of_nil in Hs];
      (split; [split|]; [discriminate|reflexivity..]).
  - vm_compute. reflexivity.
Defined.
(** ** The tree after an operation *)

Lemma fs_lookup_nil (o : option node) : fs_lookup o [] = o.
Proof. by destruct o. Qed.

Lemma fs_lookup_cons (entries : gmap string node) (name : string) (q : rel_path) :
  fs_lookup (Some (Dir entries)) (name :: q) = fs_lookup (entries !! name) q.
Proof. done. Qed.

Lemma fs_lookup_cons_Some (o : option node) (name : string) (q : rel_path) (n : node) :
  fs_lookup o (name :: q) = Some n → ∃ entries, o = Some (Dir entries).
Proof. destruct o as [[| |]|]; try done. eauto. Qed.

Lemma fs_kind_Dir (fs : option node) (p : rel_path) :
  fs_kind fs p = Some KDir ↔ ∃ entries, fs_lookup fs p = Some (Dir entries).
Proof.
  unfold fs_kind. destruct (fs_lookup fs p) as [[| |]|]; simpl; split;
    try done; try (by intros [? ?]). eauto.
Qed.

Lemma fs_kind_File (fs : option node) (p : rel_path) (data : string) :
  fs_kind fs p = Some (KFile data) ↔ fs_lookup fs p = Some (File data).
Proof.
  unfold fs_kind. destruct (fs_lookup fs p) as [[| |]|]; simpl; split; try done;
    by intros [= ->].
Qed.

Lemma fs_kind_None (fs : option node) (p : rel_path) :
  fs_kind fs p = None ↔ fs_lookup fs p = None.
Proof. unfold fs_kind. by destruct (fs_lookup fs p). Qed.

Lemma fs_kind_is_Some (fs : option node) (p : rel_path) :
  is_Some (fs_kind fs p) ↔ is_Some (fs_lookup fs p).
Proof. unfold fs_kind. by rewrite fmap_is_Some. Qed.

(** Below something that is not a directory there is nothing. *)
Lemma fs_kind_below (fs : option node) (p r : rel_path) :
  r ≠ [] → is_Some (fs_kind fs (p ++ r)) → fs_kind fs p = Some KDir.
Proof.
  intros Hr. rewrite fs_kind_is_Some, fs_kind_Dir, fs_lookup_app.
  destruct (fs_lookup fs p) as [[| |]|]; simpl; try (by intros [? ?]);
    destruct r; try done; try (by intros [? ?]). eauto.
Qed.

Lemma parent_snoc (p : rel_path) (name : string) : parent (p ++ [name]) = p.
Proof. apply removelast_last. Qed.

Lemma parent_cons (name : string) (p : rel_path) :
  p ≠ [] → parent (name :: p) = name :: parent p.
Proof. by destruct p. Qed.

Lemma snoc_parent (p : rel_path) : p ≠ [] → ∃ name, p = parent p ++ [name].
Proof.
  intros Hp. destruct (exists_last Hp) as (p' & name & ->).
  exists name. by rewrite parent_snoc.
Qed.

Lemma exists_reachable (fs : option node) (p : rel_path) :
  is_Some (fs_kind fs p) → reachable fs p.
Proof.
  intros Hp. destruct (decide (p = [])) as [->|Hne]; [by left|right].
  destruct (snoc_parent p Hne) as [name Hname]. rewrite Hname in Hp.
  by apply fs_kind_below in Hp.
Qed.

Lemma reachable_cons (o : option node) (name : string) (p : rel_path) :
  reachable o (name :: p) →
  ∃ entries, o = Some (Dir entries) ∧ reachable (entries !! name) p.
Proof.
  intros [?|Hparent]; [done|]. apply fs_kind_Dir in Hparent as [entries' Hparent].
  destruct (decide (p = [])) as [->|Hne].
  - simpl in Hparent. rewrite fs_lookup_nil in Hparent. exists entries'.
    split; [done|by left].
  - rewrite parent_cons in Hparent by done.
    destruct (fs_lookup_cons_Some _ _ _ _ Hparent) as [entries ->].
    exists entries. split; [done|]. right. apply fs_kind_Dir. eauto.
Qed.

(** What [path_alter] leaves alone: the paths that are neither above nor
    below [p]. *)
Lemma fs_lookup_alter_other (g : option node → option node) (p q : rel_path)
    (o : option node) :
  ¬ p `prefix_of` q → ¬ q `prefix_of` p →
  fs_lookup (path_alter g p o) q = fs_lookup o q.
Proof.
  revert q o. induction p as [|name p IH]; intros q o Hpq Hqp.
  { destruct Hpq. apply prefix_nil. }
  destruct q as [|name' q]; [destruct Hqp; apply prefix_nil|].
  destruct o as [[|entries|]|]; try done.
  cbn [path_alter]. rewrite !fs_lookup_cons.
  destruct (decide (name = name')) as [<-|Hne].
  - rewrite lookup_partial_alter_eq. apply IH.
    + intros H. apply Hpq. by apply prefix_cons.
    + intros H. apply Hqp. by apply prefix_cons.
  - by rewrite lookup_partial_alter_ne.
Qed.

(** The directories above [p] stay directories. *)
Lemma fs_kind_alter_above (g : option node → option node) (q r : rel_path)
    (o : option node) :
  r ≠ [] → fs_kind (path_alter g (q ++ r) o) q = fs_kind o q.
Proof.
  intros Hr. revert o. induction q as [|name q IH]; intros o.
  - destruct r as [|name r]; [done|]. by destruct o as [[| |]|].
  - destruct o as [[|entries|]|]; try done. unfold fs_kind in *.
    cbn [path_alter app]. rewrite !fs_lookup_cons, lookup_partial_alter_eq. apply IH.
Qed.

(** At [p] and below it is what [g] puts there. *)
Lemma fs_lookup_alter_below (g : option node → option node) (p r : rel_path)
    (o : option node) :
  reachable o p →
  fs_lookup (path_alter g p o) (p ++ r) = fs_lookup (g (fs_lookup o p)) r.
Proof.
  revert o. induction p as [|name p IH]; intros o Hreach.
  - simpl. by rewrite fs_lookup_nil.
  - apply reachable_cons in Hreach as (entries & -> & Hreach).
    cbn [path_alter app]. rewrite !fs_lookup_cons, lookup_partial_alter_eq. by apply IH.
Qed.

(** The kinds after something childless has been put at [p]. *)
Lemma fs_kind_alter (v : option node) (p q : rel_path) (o : option node) :
  childless v → reachable o p →
  fs_kind (path_alter (λ _, v) p o) q
  = if decide (p `prefix_of` q) then
      if decide (q = p) then kind_of <$> v else None
    else fs_kind o q.
Proof.
  intros Hv Hreach. destruct (decide (p `prefix_of` q)) as [[r ->]|Hpq].
  - unfold fs_kind. rewrite fs_lookup_alter_below by done.
    destruct (decide (p ++ r = p)) as [Heq|Hne].
    + assert (r = []) as ->.
      { apply (f_equal length) in Heq. rewrite length_app in Heq.
        destruct r; [done|simpl in Heq; lia]. }
      by rewrite fs_lookup_nil.
    + rewrite Hv; [done|]. intros ->. by rewrite app_nil_r in Hne.
  - destruct (decide (q `prefix_of` p)) as [[r ->]|Hqp].
    + apply fs_kind_alter_above. intros ->. rewrite app_nil_r in Hpq. by destruct Hpq.
    + unfold fs_kind. by rewrite fs_lookup_alter_other.
Qed.

Lemma childless_None : childless None.
Proof. done. Qed.

Lemma childless_File (data : string) : childless (Some (File data)).
Proof. by intros [|? ?]. Qed.

Lemma childless_empty : childless (Some (Dir ∅)).
Proof. by intros [|? ?]. Qed.

Lemma check_parent_Ok (fs : option node) (p : rel_path) :
  reachable fs p → check_parent fs p = Ok ().
Proof.
  intros [->|Hparent]; [done|]. unfold check_parent.
  apply fs_kind_Dir in Hparent as [entries Hparent]. unfold parent in Hparent.
  rewrite Hparent. by destruct p.
Qed.

(** One iteration of the first loop of [update_files]. *)
Lemma delete_step (p : rel_path) (fs : option node) :
  is_Some (fs_kind fs p) →
  ∃ fs', (if os_path_isdir fs p then shutil_rmtree p fs else os_remove p fs) = (fs', Ok ())
         ∧ ∀ q, fs_kind fs' q = if decide (p `prefix_of` q) then None else fs_kind fs q.
Proof.
  intros Hp. pose proof (exists_reachable _ _ Hp) as Hreach.
  exists (path_alter (λ _, None) p fs). split.
  - apply fs_kind_is_Some in Hp as [n Hn].
    unfold os_path_isdir, shutil_rmtree, os_remove. rewrite Hn. by destruct n.
  - intros q. rewrite fs_kind_alter by (done || apply childless_None).
    by repeat case_decide.
Qed.

Lemma mkdir_step (p : rel_path) (fs : option node) :
  fs_kind fs p = None → reachable fs p →
  ∃ fs', os_mkdir p fs = (fs', Ok ())
         ∧ ∀ q, fs_kind fs' q = if decide (q = p) then Some KDir else fs_kind fs q.
Proof.
  intros Hp Hreach. exists (path_alter (λ _, Some (Dir ∅)) p fs). split.
  - unfold os_mkdir. apply fs_kind_None in Hp. rewrite Hp. by rewrite check_parent_Ok.
  - intros q. rewrite fs_kind_alter by (done || apply childless_empty).
    destruct (decide (p `prefix_of` q)) as [[r ->]|Hpq].
    + destruct (decide (p ++ r = p)); [done|].
      symmetry. apply fs_kind_None. rewrite fs_lookup_app.
      apply fs_kind_None in Hp. by rewrite Hp.
    + rewrite decide_False; [done|]. intros ->. by destruct Hpq.
Qed.

Lemma write_step (p : rel_path) (content : string) (fs : option node) :
  fs_kind fs p = None ∨ (∃ data, fs_kind fs p = Some (KFile data)) →
  reachable fs p →
  ∃ fs', write_text p content fs = (fs', Ok ())
         ∧ ∀ q, fs_kind fs' q
                = if decide (q = p) then Some (KFile content) else fs_kind fs q.
Proof.
  intros Hp Hreach. exists (path_alter (λ _, Some (File content)) p fs). split.
  - unfold write_text. rewrite check_parent_Ok by done.
    destruct Hp as [Hp|[data Hp]].
    + apply fs_kind_None in Hp. by rewrite Hp.
    + apply fs_kind_File in Hp. by rewrite Hp.
  - intros q. rewrite fs_kind_alter by (done || apply childless_File).
    destruct (decide (p `prefix_of` q)) as [[r ->]|Hpq].
    + destruct (decide (p ++ r = p)) as [Heq|Hne]; [done|].
      symmetry. apply fs_kind_None. rewrite fs_lookup_app.
      destruct Hp as [Hp|[data Hp]].
      * apply fs_kind_None in Hp. by rewrite Hp.
      * apply fs_kind_File in Hp. rewrite Hp. simpl.
        destruct r; [by rewrite app_nil_r in Hne|done].
    + rewrite decide_False; [done|]. intros ->. by destruct Hpq.
Qed.
(** ** Stale entries are deleted *)

Section walk_deletes.
Context (fs : option node) (output : string).

#[local] Abbreviation visit := (visit fs true output).
#[local] Abbreviation walk_recursive := (walk_recursive fs true output).

(** With deletion enabled, what exists in the walked directory or in a
    needed directory below it, is on the way to no child and has no
    ignored name, is in the paths to delete. *)
Lemma walk_deletes depth cur children d :
  walk_recursive depth cur children no_changes = Ok d →
  ∀ r file,
    (r = [] ∨ needed_directory children r) →
    (∀ c, c ∈ children → length (parts c) ≤ depth) → 0 < depth →
    is_Some (fs_lookup fs (cur ++ r ++ [file])) →
    (∀ c, c ∈ children → ¬ (r ++ [file]) `prefix_of` parts c) →
    file ∉ DEFAULT_IGNORE_LIST →
    cur ++ r ++ [file] ∈ to_delete d.
Proof.
  revert cur children d. induction depth as [|depth IH];
    intros cur children d Hwalk r file Hr Hlen Hdepth Hsome Hnot Hignore; [lia|].
  apply walk_shape_included in Hwalk
    as (files & needed & level & below & Hfiles & Hneeded & Hlevel & Hbelow
        & Hlevel_in & Hbelow_in).
  destruct r as [|f r].
  - cbn [app] in *.
    assert (file ∈ all_files files needed) as Hfile.
    { apply elem_of_all_files. left. by apply (listing_elem_of _ _ _ _ Hfiles). }
    assert (needed !! file = None) as Hg.
    { rewrite (needed_lookup _ _ _ Hneeded).
      destruct (decide (group_of file children = [])) as [|Hne]; [done|].
      destruct (group_of file children) as [|c g] eqn:Hgroup; [done|].
      assert (c ∈ group_of file children) as Hc by (rewrite Hgroup; left).
      apply elem_of_group_of in Hc as (Hc & t & Ht).
      destruct (Hnot c Hc). exists t. by rewrite Ht. }
    pose proof (Hlevel file Hfile) as Hvisit.
    destruct (level file) as [dl e] eqn:Hlf.
    apply visit_Ok in Hvisit. cbv zeta in Hvisit. rewrite Hg in Hvisit.
    destruct Hvisit as [_ Hd]. rewrite bool_decide_eq_true_2 in Hd by done.
    simpl in Hd. subst dl.
    destruct (Hlevel_in file Hfile) as (Hdel & _). rewrite Hlf in Hdel. apply Hdel.
    simpl. by left.
  - destruct Hr as [?|[(c0 & t0 & Hc0 & Ht0 & Hparts0) Hdir]]; [done|].
    assert (c0 ∈ group_of f children) as Hgroup.
    { apply elem_of_group_of. split; [done|]. eexists. by rewrite Hparts0. }
    assert (needed !! f = Some (group_of f children)) as Hg.
    { rewrite (needed_lookup _ _ _ Hneeded). rewrite decide_False; [done|].
      intros Hnil. rewrite Hnil in Hgroup. by apply elem_of_nil in Hgroup. }
    assert (f ∈ all_files files needed) as Hf.
    { apply elem_of_all_files. right. by rewrite Hg. }
    pose proof (Hlevel f Hf) as Hvisit.
    destruct (level f) as [dl e] eqn:Hlf.
    apply visit_Ok in Hvisit. cbv zeta in Hvisit. rewrite Hg in Hvisit.
    destruct (forallb _ (group_of f children)) eqn:Hall.
    2:{ destruct Hvisit as (c & Hsingle & _). rewrite Hsingle in Hall, Hgroup.
        apply list_elem_of_singleton in Hgroup as <-.
        simpl in Hall. rewrite andb_true_r in Hall. apply bool_decide_eq_false in Hall.
        destruct Hall. rewrite Hparts0. simpl. rewrite length_app.
        destruct t0; [done|simpl; lia]. }
    destruct Hvisit as [-> _].
    assert (f ∈ all_files files needed ≫= (snd ∘ level)) as Hexplore.
    { apply list_elem_of_bind. exists f. unfold compose. rewrite Hlf. split; [left|done]. }
    destruct (group_needed_directory _ _ _ _ Hneeded Hg Hall) as [_ Htotal].
    pose proof (Hbelow f Hexplore) as Hwalk. rewrite Htotal in Hwalk.
    destruct (Hbelow_in f Hexplore) as (Hdel & _). apply Hdel.
    replace (cur ++ (f :: r) ++ [file]) with ((cur ++ [f]) ++ r ++ [file])
      by by rewrite <-app_assoc.
    apply (IH _ _ _ Hwalk).
    + destruct r as [|f' r]; [by left|right]. split.
      * exists (NeededFile ((f' :: r) ++ t0) (file_content c0)), t0.
        split; [|done]. apply elem_of_advance_group. exists c0. by rewrite Hparts0.
      * intros c' (c & Hc & Hparts & _)%elem_of_advance_group Hc'.
        apply (Hdir c Hc). by rewrite Hparts, Hc'.
    + intros c' (c & Hc & Hparts & _)%elem_of_advance_group.
      specialize (Hlen c Hc). rewrite Hparts in Hlen. simpl in Hlen. lia.
    + specialize (Hlen c0 Hc0). rewrite Hparts0 in Hlen. simpl in Hlen.
      rewrite length_app in Hlen. destruct t0; [done|simpl in Hlen; lia].
    + by rewrite <-app_assoc.
    + intros c' (c & Hc & Hparts & _)%elem_of_advance_group Hpre.
      apply (Hnot c Hc). rewrite Hparts. by apply prefix_cons.
    + done.
Qed.
End walk_deletes.

(** X6: With deletion enabled, whatever exists in the output directory or
    in a directory that the target mapping needs, is on the way to no
    target path and does not have an ignored name, is scheduled for
    deletion. *)
Theorem stale_entries_deleted (fs : option node) (output : string)
    (state : dict state_entry) (d : changes) (r : rel_path) (file : string) :
  compute_changes fs true output state = Ok d →
  r = [] ∨ needed_directory (state_children state) r →
  is_Some (fs_lookup fs (r ++ [file])) →
  (∀ key, key ∈ state.*1 → ¬ (r ++ [file]) `prefix_of` split "/" key) →
  file ∉ DEFAULT_IGNORE_LIST →
  r ++ [file] ∈ to_delete d.
Proof.
  rewrite compute_changes_walk. intros Hwalk Hr Hsome Hnot Hignore.
  apply (walk_deletes _ _ _ _ _ _ Hwalk r file); try done.
  - intros c Hc. apply state_children_length in Hc. lia.
  - lia.
  - intros c (key & e & Hin & -> & _)%elem_of_state_children. apply Hnot.
    apply list_elem_of_fmap. by exists (key, e).
Qed.

Lemma stale_entries_deleted_witness :
  ["a"] ++ ["old.py"] ∈ [["b"]; ["a"; "old.py"]].
Proof.
  apply (stale_entries_deleted
           (Some (Dir {["a" := Dir {["old.py" := File "x"; "new.py" := File "y"]};
                        "b" := Special; ".git" := Dir ∅]}))
           "out" [("a/new.py", StateEntry "y" "2024-01-01")]
           (Changes [["b"]; ["a"; "old.py"]] [] [] []) ["a"] "old.py").
  - vm_compute. reflexivity.
  - right. split.
    + exists (NeededFile ["a"; "new.py"] "y"), ["new.py"]. split; [by left|done].
    + intros c ->%list_elem_of_singleton. discriminate.
  - vm_compute. eauto.
  - intros key ->%list_elem_of_singleton [t Ht]. discriminate.
  - unfold DEFAULT_IGNORE_LIST. rewrite !elem_of_cons, elem_of_nil. intros H.
    repeat destruct H as [H|H]; try discriminate; done.
Defined.
(** ** No path is listed twice *)

Lemma fmap_list_bind {A B C} (f : B → C) (g : A → list B) (l : list A) :
  f <$> (l ≫= g) = l ≫= (λ x, f <$> g x).
Proof.
  induction l as [|x l IH]; [done|]. by rewrite !bind_cons, fmap_app, IH.
Qed.

(** The paths of a level followed by those of the walks below it. *)
Lemma NoDup_walk_list (cur : rel_path) (names explore : list string)
    (level_list below_list : string → list rel_path) :
  NoDup names → NoDup explore →
  (∀ file, file ∈ names → level_list file = [] ∨ level_list file = [cur ++ [file]]) →
  (∀ file, file ∈ explore →
     NoDup (below_list file)
     ∧ ∀ p, p ∈ below_list file → ∃ r, r ≠ [] ∧ p = cur ++ [file] ++ r) →
  NoDup ((names ≫= level_list) ++ (explore ≫= below_list)).
Proof.
  intros Hnames Hexplore Hlevel Hbelow. apply NoDup_app. split_and!.
  - apply NoDup_bind; [| |done].
    + intros x1 x2 y H1 H2 Hy1 Hy2.
      destruct (Hlevel x1 H1) as [E1|E1]; rewrite E1 in Hy1; [by apply elem_of_nil in Hy1|].
      destruct (Hlevel x2 H2) as [E2|E2]; rewrite E2 in Hy2; [by apply elem_of_nil in Hy2|].
      apply list_elem_of_singleton in Hy1, Hy2. subst y.
      apply app_inv_head in Hy2. by injection Hy2.
    + intros x Hx. destruct (Hlevel x Hx) as [-> | ->]; [constructor|apply NoDup_singleton].
  - intros p (f & Hp & Hf)%list_elem_of_bind (f' & Hp' & Hf')%list_elem_of_bind.
    destruct (Hlevel f Hf) as [E|E]; rewrite E in Hp; [by apply elem_of_nil in Hp|].
    apply list_elem_of_singleton in Hp as ->.
    destruct (Hbelow f' Hf') as [_ Hform]. destruct (Hform _ Hp') as (r & Hr & Heq).
    apply app_inv_head in Heq. injection Heq as _ <-. done.
  - apply NoDup_bind; [| |done].
    + intros x1 x2 y H1 H2 Hy1 Hy2.
      destruct (Hbelow x1 H1) as [_ F1]. destruct (F1 y Hy1) as (r1 & _ & ->).
      destruct (Hbelow x2 H2) as [_ F2]. destruct (F2 _ Hy2) as (r2 & _ & Heq).
      apply app_inv_head in Heq. by injection Heq.
    + intros x Hx. by apply Hbelow.
Qed.

Section walk_lists.
Context (fs : option node) (should_delete : bool) (output : string).

#[local] Abbreviation visit := (visit fs should_delete output).
#[local] Abbreviation walk_recursive := (walk_recursive fs should_delete output).

(** What one iteration adds to each list is nothing or the path of its
    name. *)
Lemma visit_Ok_lists cur (needed : gmap string (list needed_file)) file d e :
  visit cur needed file (no_changes, []) = Ok (d, e) →
  let p := cur ++ [file] in
  (to_delete d = [] ∨ to_delete d = [p])
  ∧ (directories_to_create d = [] ∨ directories_to_create d = [p])
  ∧ (path <$> files_to_create d = [] ∨ path <$> files_to_create d = [p])
  ∧ (path <$> files_to_update d = [] ∨ path <$> files_to_update d = [p])
  ∧ (e = [] ∨ e = [file]).
Proof.
  intros Hvisit. apply visit_Ok in Hvisit. cbv zeta in *.
  destruct (needed !! file) as [g|].
  - destruct (forallb _ g).
    + destruct Hvisit as [-> Hd].
      destruct (fs_lookup fs (cur ++ [file])) as [[| |]|]; destruct_and?; subst d;
        simpl; auto 10.
    + destruct Hvisit as (c & _ & -> & Hd).
      destruct (fs_lookup fs (cur ++ [file])) as [[| |]|]; destruct_and?; subst d;
        try case_bool_decide; simpl; auto 10.
  - destruct Hvisit as [-> ->].
    destruct (should_delete && bool_decide (file ∉ DEFAULT_IGNORE_LIST)); simpl; auto 10.
Qed.

(** The paths that a walk lists lie below its directory. *)
Lemma walk_paths_below depth cur children d :
  walk_recursive depth cur children no_changes = Ok d →
  let below := λ p : rel_path, ∃ r, r ≠ [] ∧ p = cur ++ r in
  Forall below (to_delete d) ∧ Forall below (directories_to_create d)
  ∧ Forall below (path <$> files_to_create d)
  ∧ Forall below (path <$> files_to_update d).
Proof.
  intros Hwalk. pose proof (walk_sound _ _ _ _ _ _ _ Hwalk) as (Hdel & Hupd & Hcre & Hdir).
  destruct depth as [|depth]; [done|].
  apply walk_Ok in Hwalk as (files & needed & _ & _ & _ & _ & Hneeded & _).
  cbv zeta. split_and!.
  - eapply Forall_impl; [exact Hdel|]. intros p (r & file & -> & _).
    exists (r ++ [file]). split; [by destruct r|done].
  - eapply Forall_impl; [exact Hdir|]. intros p (r & Hr & -> & _). by exists r.
  - apply Forall_fmap. eapply Forall_impl; [exact Hcre|].
    intros e (c & Hc & Hpath & _). exists (parts c). split; [|done].
    by eapply needed_parts.
  - apply Forall_fmap. eapply Forall_impl; [exact Hupd|].
    intros e (c & data & Hc & Hpath & _). exists (parts c). split; [|done].
    by eapply needed_parts.
Qed.

Lemma walk_NoDup depth cur children d :
  walk_recursive depth cur children no_changes = Ok d →
  NoDup (to_delete d) ∧ NoDup (directories_to_create d)
  ∧ NoDup (path <$> files_to_create d) ∧ NoDup (path <$> files_to_update d).
Proof.
  revert cur children d. induction depth as [|depth IH]; intros cur children d Hwalk;
    [done|].
  apply walk_shape in Hwalk
    as (files & needed & level & below & Hfiles & Hneeded & Hlevel & Hbelow
        & Hdel & Hupd & Hcre & Hdir).
  assert (∀ file, file ∈ all_files files needed →
            let p := cur ++ [file] in
            let dl := (level file).1 in
            (to_delete dl = [] ∨ to_delete dl = [p])
            ∧ (directories_to_create dl = [] ∨ directories_to_create dl = [p])
            ∧ (path <$> files_to_create dl = [] ∨ path <$> files_to_create dl = [p])
            ∧ (path <$> files_to_update dl = [] ∨ path <$> files_to_update dl = [p])
            ∧ ((level file).2 = [] ∨ (level file).2 = [file])) as Hlists.
  { intros file Hfile. pose proof (Hlevel file Hfile) as Hvisit.
    destruct (level file) as [dl e]. by apply visit_Ok_lists in Hvisit. }
  pose proof (NoDup_all_files files needed) as Hnames.
  assert (NoDup (all_files files needed ≫= (snd ∘ level))) as Hexplore.
  { apply NoDup_bind; [| |done].
    - intros x1 x2 y H1 H2 Hy1 Hy2. unfold compose in *.
      destruct (Hlists x1 H1) as (_ & _ & _ & _ & [E1|E1]); rewrite E1 in Hy1;
        [by apply elem_of_nil in Hy1|].
      destruct (Hlists x2 H2) as (_ & _ & _ & _ & [E2|E2]); rewrite E2 in Hy2;
        [by apply elem_of_nil in Hy2|].
      apply list_elem_of_singleton in Hy1, Hy2. congruence.
    - intros x Hx. unfold compose.
      destruct (Hlists x Hx) as (_ & _ & _ & _ & [-> | ->]);
        [constructor|apply NoDup_singleton]. }
  assert (∀ file, file ∈ all_files files needed ≫= (snd ∘ level) →
            let below_ok := λ l : list rel_path,
              NoDup l ∧ ∀ p, p ∈ l → ∃ r, r ≠ [] ∧ p = cur ++ [file] ++ r in
            below_ok (to_delete (below file))
            ∧ below_ok (directories_to_create (below file))
            ∧ below_ok (path <$> files_to_create (below file))
            ∧ below_ok (path <$> files_to_update (below file))) as Hbelow_ok.
  { intros file Hfile. pose proof (Hbelow file Hfile) as Hwalk.
    destruct (IH _ _ _ Hwalk) as (N1 & N2 & N3 & N4).
    destruct (walk_paths_below _ _ _ _ Hwalk) as (F1 & F2 & F3 & F4).
    rewrite Forall_forall in F1. rewrite Forall_forall in F2.
    rewrite Forall_forall in F3. rewrite Forall_forall in F4.
    cbv zeta. split_and!; try done; intros p Hp;
      [destruct (F1 p Hp) as (r & Hr & ->)|destruct (F2 p Hp) as (r & Hr & ->)
      |destruct (F3 p Hp) as (r & Hr & ->)|destruct (F4 p Hp) as (r & Hr & ->)];
      exists r; by rewrite <-app_assoc. }
  rewrite Hdel, Hupd, Hcre, Hdir, !fmap_app, !fmap_list_bind.
  split_and!; apply (NoDup_walk_list cur); try done; intros file Hfile; unfold compose;
    first [by apply (Hlists file Hfile)|by apply (Hbelow_ok file Hfile)].
Qed.
End walk_lists.

(** X12: No path string is listed twice in the paths to delete, in the
    directories to create, in the files to create or in the files to
    update (the segments of the target paths being non-empty and the names
    on disk plain, so that a string stands for one path). *)
Theorem no_path_listed_twice (fs : option node) (should_delete : bool)
    (output : string) (state : dict state_entry) (d : changes) :
  compute_changes fs should_delete output state = Ok d →
  segments_nonempty state → plain_tree fs →
  NoDup (deleted_strs output d) ∧ NoDup (directory_strs output d)
  ∧ NoDup (created_strs output d) ∧ NoDup (updated_strs output d).
Proof.
  intros Hok Hnonempty Hplain. pose proof Hok as Hwalk.
  rewrite compute_changes_walk in Hwalk. apply walk_NoDup in Hwalk as (N1 & N2 & N3 & N4).
  unfold deleted_strs, directory_strs, created_strs, updated_strs.
  rewrite !list_fmap_compose.
  split_and!; (apply NoDup_fmap_2_strong; [|done]).
  - intros p q Hp Hq. apply path_str_inj; by eapply deleted_plain.
  - intros p q Hp Hq. apply path_str_inj; by eapply directory_plain.
  - intros p q (e1 & -> & H1)%list_elem_of_fmap (e2 & -> & H2)%list_elem_of_fmap.
    apply path_str_inj; by eapply created_plain.
  - intros p q (e1 & -> & H1)%list_elem_of_fmap (e2 & -> & H2)%list_elem_of_fmap.
    apply path_str_inj; by eapply updated_plain.
Qed.

Lemma no_path_listed_twice_witness :
  let d := Changes [["b"]; ["a"; "old.py"]] [] [Entry ["a"; "new.py"] "y"] [] in
  NoDup (deleted_strs "out" d) ∧ NoDup (directory_strs "out" d)
  ∧ NoDup (created_strs "out" d) ∧ NoDup (updated_strs "out" d).
Proof.
  apply (no_path_listed_twice
           (Some (Dir {["a" := Dir {["old.py" := File "x"]}; "b" := Special;
                        ".git" := Dir ∅]}))
           true "out" [("a/new.py", StateEntry "y" "2024-01-01")]).
  - vm_compute. reflexivity.
  - intros key Hkey Hempty. revert key Hkey Hempty.
    refine (proj1 (Forall_forall _ _) _). refine (bool_decide_unpack _ _).
    vm_compute. exact I.
  - apply (plain_node_tree 2). refine (bool_decide_unpack _ _). vm_compute. exact I.
Defined.
(** ** Parents before children *)

Lemma parents_before_mono (base base' : rel_path → Prop) (l : list rel_path) :
  (∀ q, base q → base' q) → parents_before base l → parents_before base' l.
Proof. intros Himpl Hl i d Hi. destruct (Hl i d Hi); [left; by apply Himpl|by right]. Qed.

Lemma parents_before_nil (base : rel_path → Prop) : parents_before base [].
Proof. by intros i d. Qed.

Lemma parents_before_singleton (base : rel_path → Prop) (p : rel_path) :
  base (parent p) → parents_before base [p].
Proof. intros Hp i d [-> <-]%list_lookup_singleton_Some. by left. Qed.

Lemma parents_before_app (base : rel_path → Prop) (l1 l2 : list rel_path) :
  parents_before base l1 → parents_before (λ q, base q ∨ q ∈ l1) l2 →
  parents_before base (l1 ++ l2).
Proof.
  intros H1 H2 i d [Hi|[Hlen Hi]]%lookup_app_Some.
  - destruct (H1 i d Hi) as [?|Hin]; [by left|right].
    rewrite take_app. apply elem_of_app. by left.
  - rewrite take_app_ge by done.
    destruct (H2 _ d Hi) as [[?|?]|?]; [by left|right; apply elem_of_app; by left
                                       |right; apply elem_of_app; by right].
Qed.

Lemma parents_before_bind {A} (base : rel_path → Prop) (f : A → list rel_path)
    (l : list A) :
  (∀ x, x ∈ l → parents_before base (f x)) → parents_before base (l ≫= f).
Proof.
  induction l as [|x l IH]; intros Hall; [apply parents_before_nil|].
  rewrite bind_cons. apply parents_before_app; [apply Hall; left|].
  eapply parents_before_mono; [|apply IH; intros; apply Hall; by right]. by left.
Qed.

Section walk_parents.
Context (fs : option node) (should_delete : bool) (output : string).

#[local] Abbreviation visit := (visit fs should_delete output).
#[local] Abbreviation walk_recursive := (walk_recursive fs should_delete output).

(** Every directory to create is in the walked directory, in a directory
    on disk or in a directory that is earlier in the list. *)
Lemma walk_parents_before depth cur children d :
  walk_recursive depth cur children no_changes = Ok d →
  parents_before (λ q, q = cur ∨ os_path_isdir fs q = true) (directories_to_create d).
Proof.
  revert cur children d. induction depth as [|depth IH]; intros cur children d Hwalk;
    [done|].
  apply walk_shape in Hwalk
    as (files & needed & level & below & Hfiles & Hneeded & Hlevel & Hbelow
        & _ & _ & _ & ->).
  apply parents_before_app.
  - apply parents_before_bind. intros file Hfile. unfold compose.
    pose proof (Hlevel file Hfile) as Hvisit. destruct (level file) as [dl e].
    cbn [fst]. apply visit_Ok_lists in Hvisit as (_ & [-> | ->] & _);
      [apply parents_before_nil|].
    apply parents_before_singleton. left. apply parent_snoc.
  - apply parents_before_bind. intros file Hfile. unfold compose.
    eapply parents_before_mono; [|by eapply IH, Hbelow].
    intros q [->|Hq]; [|by left; right].
    apply list_elem_of_bind in Hfile as (f & Hin & Hf). unfold compose in Hin.
    pose proof (Hlevel f Hf) as Hvisit. destruct (level f) as [dl e] eqn:Hlf.
    apply visit_Ok in Hvisit. cbv zeta in Hvisit. simpl in Hin.
    assert (cur ++ [f] ∈ directories_to_create (level f).1 → 
            cur ++ [f] ∈ all_files files needed ≫= (directories_to_create ∘ fst ∘ level))
      as Hlisted.
    { intros ?. apply list_elem_of_bind. by exists f. }
    rewrite Hlf in Hlisted. simpl in Hlisted.
    destruct (needed !! f) as [g|].
    + destruct (forallb _ g).
      * destruct Hvisit as [-> Hd]. apply list_elem_of_singleton in Hin as ->.
        unfold os_path_isdir.
        destruct (fs_lookup fs (cur ++ [f])) as [[| |]|]; destruct_and?; subst dl;
          first [by left; right|right; apply Hlisted; simpl; set_solver].
      * destruct Hvisit as (c & _ & -> & _). by apply elem_of_nil in Hin.
    + destruct Hvisit as [-> _]. by apply elem_of_nil in Hin.
Qed.
End walk_parents.
(** ** The loops of [update_files] *)

Lemma os_path_isdir_kind (fs : option node) (p : rel_path) :
  os_path_isdir fs p = true ↔ fs_kind fs p = Some KDir.
Proof.
  unfold os_path_isdir, fs_kind. by destruct (fs_lookup fs p) as [[| |]|].
Qed.

Lemma io_for_each_cons {B} (body : B → io unit) (x : B) (l : list B) (fs fs' : option node) :
  body x fs = (fs', Ok ()) → io_for_each body (x :: l) fs = io_for_each body l fs'.
Proof. intros H. cbn [io_for_each]. by rewrite H. Qed.

(** The first loop: paths that exist, none below another, are all removed
    with what is below them, and nothing else changes. *)
Lemma delete_all_spec (paths : list rel_path) (fs : option node) :
  prefix_free paths → (∀ p, p ∈ paths → is_Some (fs_kind fs p)) →
  ∃ fs', delete_all paths fs = (fs', Ok ())
         ∧ ∀ q, fs_kind fs' q
                = if decide (Exists (λ p, p `prefix_of` q) paths) then None
                  else fs_kind fs q.
Proof.
  revert fs. induction paths as [|p paths IH]; intros fs Hfree Hsome.
  { exists fs. split; [done|]. intros q. rewrite decide_False; [done|].
    by intros ?%Exists_nil. }
  destruct Hfree as [Hp Hfree]. rewrite Forall_forall in Hp.
  destruct (delete_step p fs) as (fs1 & Hstep & Hkind1); [apply Hsome; left|].
  destruct (IH fs1 Hfree) as (fs' & Hrest & Hkind).
  { intros p' Hp'. rewrite Hkind1. rewrite decide_False by (by apply Hp).
    apply Hsome. by right. }
  exists fs'. split.
  - unfold delete_all in *. by rewrite (io_for_each_cons _ _ _ _ _ Hstep).
  - intros q. rewrite Hkind, Hkind1.
    destruct (decide (p `prefix_of` q)) as [Hpq|Hpq].
    + rewrite (decide_True (P := Exists _ (p :: paths))) by (by left).
      by case_decide.
    + destruct (decide (Exists (λ p0, p0 `prefix_of` q) paths)) as [Hex|Hex].
      * rewrite decide_True by (by right). done.
      * rewrite decide_False; [done|]. by intros [?|?]%Exists_cons.
Qed.

(** The second loop: absent directories, each after its parent, are all
    made, and nothing else changes. *)
Lemma mkdir_all_spec (directories : list rel_path) (fs : option node) :
  NoDup directories →
  (∀ p, p ∈ directories → p ≠ [] ∧ fs_kind fs p = None) →
  parents_first fs directories →
  ∃ fs', mkdir_all directories fs = (fs', Ok ())
         ∧ ∀ q, fs_kind fs' q
                = if decide (q ∈ directories) then Some KDir else fs_kind fs q.
Proof.
  revert fs. induction directories as [|p l IH]; intros fs Hnodup Habsent Hparents.
  { exists fs. split; [done|]. intros q. rewrite decide_False; [done|]. apply not_elem_of_nil. }
  apply NoDup_cons in Hnodup as [Hp Hnodup].
  destruct (mkdir_step p fs) as (fs1 & Hstep & Hkind1).
  { apply Habsent. left. }
  { right. destruct (Hparents 0 p eq_refl) as [?|?%elem_of_nil]; [|done].
    by apply os_path_isdir_kind. }
  destruct (IH fs1 Hnodup) as (fs' & Hrest & Hkind).
  { intros p' Hp'. destruct (Habsent p') as [Hne Hnone]; [by right|].
    split; [done|]. rewrite Hkind1. rewrite decide_False; [done|]. by intros ->. }
  { intros i d Hi. destruct (Hparents (S i) d Hi) as [Hdir|Hin].
    - left. apply os_path_isdir_kind. rewrite Hkind1. case_decide; [done|].
      by apply os_path_isdir_kind.
    - simpl in Hin. apply elem_of_cons in Hin as [->|Hin]; [|by right].
      left. apply os_path_isdir_kind. rewrite Hkind1. by rewrite decide_True. }
  exists fs'. split.
  - unfold mkdir_all in *. by rewrite (io_for_each_cons _ _ _ _ _ Hstep).
  - intros q. rewrite Hkind, Hkind1.
    destruct (decide (q ∈ l)) as [Hq|Hq].
    + rewrite decide_True by (by right). done.
    + destruct (decide (q = p)) as [->|Hne].
      * rewrite decide_True by left. done.
      * rewrite decide_False; [done|]. by intros [?|?]%elem_of_cons.
Qed.

(** The loops that write: files whose directory exists and whose path is
    free or taken by a regular file are all written, and nothing else
    changes. *)
Lemma write_all_spec (files : list entry) (fs : option node) :
  NoDup (path <$> files) →
  (∀ e, e ∈ files →
     reachable fs (path e)
     ∧ (fs_kind fs (path e) = None ∨ ∃ data, fs_kind fs (path e) = Some (KFile data))) →
  ∃ fs', io_for_each (λ file_data, write_text (path file_data) (entry_content file_data))
           files fs = (fs', Ok ())
         ∧ (∀ e, e ∈ files → fs_kind fs' (path e) = Some (KFile (entry_content e)))
         ∧ (∀ q, q ∉ path <$> files → fs_kind fs' q = fs_kind fs q).
Proof.
  revert fs. induction files as [|e l IH]; intros fs Hnodup Hok.
  { exists fs. split; [done|]. split; [by intros ? ?%elem_of_nil|done]. }
  rewrite fmap_cons in Hnodup. apply NoDup_cons in Hnodup as [He Hnodup].
  destruct (Hok e) as [Hreach Hfree]; [left|].
  destruct (write_step (path e) (entry_content e) fs Hfree Hreach) as (fs1 & Hstep & Hkind1).
  destruct (IH fs1 Hnodup) as (fs' & Hrest & Hwritten & Hother).
  { intros e' He'. destruct (Hok e') as [Hreach' Hfree']; [by right|].
    assert (path e' ≠ path e) as Hne.
    { intros Heq. apply He. rewrite <-Heq. by apply list_elem_of_fmap_2. }
    split.
    - destruct Hreach' as [?|Hparent]; [by left|right].
      rewrite Hkind1. case_decide as Heq; [|done].
      rewrite Heq in Hparent. destruct Hfree as [Hnone|[data Hdata]]; congruence.
    - rewrite Hkind1. by rewrite decide_False. }
  exists fs'. split; [|split].
  - by rewrite (io_for_each_cons
                  (λ file_data, write_text (path file_data) (entry_content file_data))
                  e l fs fs1 Hstep).
  - intros e' [->|He']%elem_of_cons; [|by apply Hwritten].
    rewrite Hother by done. rewrite Hkind1. by rewrite decide_True.
  - intros q Hq. rewrite fmap_cons in Hq. apply not_elem_of_cons in Hq as [Hne Hq].
    rewrite Hother by done. rewrite Hkind1. by rewrite decide_False.
Qed.
(** ** Applying a change set *)

Lemma parent_prefix (p : rel_path) : parent p `prefix_of` p.
Proof.
  destruct (decide (p = [])) as [->|Hne]; [done|].
  destruct (snoc_parent p Hne) as [name Hname]. by exists [name].
Qed.

Lemma not_below_deleted (paths : list rel_path) (q : rel_path) :
  (∀ p, p ∈ paths → ¬ p `prefix_of` q) → ¬ Exists (λ p, p `prefix_of` q) paths.
Proof. intros Hnot (p & Hp & Hpq)%Exists_exists. by apply (Hnot p). Qed.

(** An applicable change set is carried out without an exception; then the
    files to update and to create are regular files with their content,
    the directories to create are directories, and any other path is
    absent if it was below a deleted path and as before otherwise. *)
Lemma update_files_spec (fs : option node) (d : changes) :
  applicable fs d →
  ∃ fs', update_files d fs = (fs', Ok ())
    ∧ (∀ e, e ∈ files_to_update d ++ files_to_create d →
         fs_kind fs' (path e) = Some (KFile (entry_content e)))
    ∧ (∀ p, p ∈ directories_to_create d → fs_kind fs' p = Some KDir)
    ∧ (∀ q, q ∉ path <$> files_to_update d → q ∉ path <$> files_to_create d →
         q ∉ directories_to_create d →
         fs_kind fs' q
         = if decide (Exists (λ p, p `prefix_of` q) (to_delete d)) then None
           else fs_kind fs q).
Proof.
  intros [Hfree Hexists Hdirs Habsent Horder Hkept Hupd Hregular Hcre Hcfree Hcparent].
  destruct (delete_all_spec (to_delete d) fs Hfree Hexists) as (fs1 & Hrun1 & Hkind1).
  assert (∀ q, (∀ p, p ∈ to_delete d → ¬ p `prefix_of` q) → fs_kind fs1 q = fs_kind fs q)
    as Hkeep1.
  { intros q Hq. rewrite Hkind1. rewrite decide_False; [done|]. by apply not_below_deleted. }
  destruct (mkdir_all_spec (directories_to_create d) fs1 Hdirs) as (fs2 & Hrun2 & Hkind2).
  { intros p Hp. destruct (Habsent p Hp) as [Hne Hnone]. split; [done|].
    rewrite Hkind1. by case_decide. }
  { intros i p Hi. destruct (Horder i p Hi) as [Hdir|Hin]; [left|by right].
    apply os_path_isdir_kind. apply os_path_isdir_kind in Hdir. rewrite Hkeep1; [done|].
    intros p' Hp' Hpre. eapply (Hkept p p'); [by eapply list_elem_of_lookup_2|done|].
    etrans; [exact Hpre|apply parent_prefix]. }
  assert (∀ e, e ∈ files_to_update d → path e ∉ directories_to_create d) as Hupd_dir.
  { intros e He Hin. destruct (Hregular e He) as [[data Hdata] _].
    destruct (Habsent _ Hin) as [_ Hnone]. congruence. }
  destruct (write_all_spec (files_to_update d) fs2 Hupd) as (fs3 & Hrun3 & Hwritten3 & Hother3).
  { intros e He. destruct (Hregular e He) as [[data Hdata] Hnot].
    assert (fs_kind fs2 (path e) = Some (KFile data)) as Hk.
    { rewrite Hkind2. rewrite decide_False by (by apply Hupd_dir).
      by rewrite Hkeep1. }
    split; [|right; by exists data]. apply exists_reachable. by rewrite Hk. }
  assert (∀ e, e ∈ files_to_create d → path e ∉ path <$> files_to_update d) as Hcre_upd.
  { intros e He (e' & Heq & He')%list_elem_of_fmap.
    destruct (Hregular e' He') as [[data Hdata] Hnot].
    destruct (Hcfree e He) as [_ [Hnone|Hdel]]; [congruence|].
    apply (Hnot _ Hdel). by rewrite Heq. }
  assert (∀ e, e ∈ files_to_create d → parent (path e) ∉ path <$> files_to_update d)
    as Hparent_upd.
  { intros e He (e' & Heq & He')%list_elem_of_fmap.
    destruct (Hregular e' He') as [[data Hdata] Hnot].
    destruct (Hcparent e He) as [_ [Hin|[Hdir _]]].
    - destruct (Habsent _ Hin) as [_ Hnone]. congruence.
    - congruence. }
  destruct (write_all_spec (files_to_create d) fs3 Hcre) as (fs4 & Hrun4 & Hwritten4 & Hother4).
  { intros e He. destruct (Hcfree e He) as [Hnotdir Hfree'].
    destruct (Hcparent e He) as [Hne Hparent]. split.
    - right. rewrite Hother3 by (by apply Hparent_upd). rewrite Hkind2.
      destruct Hparent as [Hin|[Hdir Hnot]]; [by rewrite decide_True|].
      case_decide; [done|]. by rewrite Hkeep1.
    - left. rewrite Hother3 by (by apply Hcre_upd). rewrite Hkind2.
      rewrite decide_False by done. rewrite Hkind1.
      destruct Hfree' as [Hnone|Hdel]; [by case_decide|].
      rewrite decide_True; [done|]. apply Exists_exists. by exists (path e). }
  exists fs4. split; [|split_and!].
  - unfold update_files, io_seq. fold (delete_all (to_delete d)).
    fold (mkdir_all (directories_to_create d)). by rewrite Hrun1, Hrun2, Hrun3.
  - intros e [He|He]%elem_of_app; [|by apply Hwritten4].
    rewrite Hother4; [by apply Hwritten3|].
    intros (e' & Heq & He')%list_elem_of_fmap. apply (Hcre_upd e' He').
    rewrite <-Heq. by apply list_elem_of_fmap_2.
  - intros p Hp. rewrite Hother4, Hother3.
    + rewrite Hkind2. by rewrite decide_True.
    + intros (e & -> & He)%list_elem_of_fmap. by apply (Hupd_dir e He).
    + intros (e & -> & He)%list_elem_of_fmap. by destruct (Hcfree e He).
  - intros q Hupd' Hcre' Hdir'. rewrite Hother4, Hother3 by done.
    rewrite Hkind2. by rewrite decide_False.
Qed.
(** ** A computed change set can be applied *)

Lemma prefix_snoc_inv {A} (a r : list A) (x : A) :
  a `prefix_of` r ++ [x] → a = r ++ [x] ∨ a `prefix_of` r.
Proof.
  intros [k Hk]. destruct k as [|y k _] using rev_ind.
  - left. by rewrite app_nil_r in Hk.
  - right. rewrite app_assoc in Hk. apply app_inj_tail in Hk as [-> _]. by exists k.
Qed.

Lemma NoDup_prefix_free (l : list rel_path) :
  NoDup l → (∀ a b, a ∈ l → b ∈ l → a `prefix_of` b → a = b) → prefix_free l.
Proof.
  induction 1 as [|a l Ha Hl IH]; intros Heq; [done|]. split.
  - apply Forall_forall. intros b Hb. split; intros Hpre.
    + apply Ha. rewrite (Heq a b); [done|by left|by right|done].
    + apply Ha. rewrite <-(Heq b a); [done|by right|by left|done].
  - apply IH. intros a' b' Ha' Hb'. apply Heq; by right.
Qed.

(** A deleted path is on the way to nothing deeper. *)
Lemma deleted_not_above (fs : option node) (should_delete : bool)
    (children : list needed_file) (p k t : rel_path) (c : needed_file) :
  delete_ok fs should_delete children [] p → c ∈ children →
  parts c = (p ++ k) ++ t → k = [] ∧ t = [].
Proof.
  intros (r & file & -> & _ & _ & _ & Hbelow & _) Hc Hparts. simpl in *.
  rewrite <-app_assoc in Hparts. apply Hbelow in Hparts; [|done].
  by apply app_eq_nil in Hparts.
Qed.

Lemma deleted_not_above_directory (fs : option node) (should_delete : bool)
    (children : list needed_file) (p r : rel_path) :
  delete_ok fs should_delete children [] p → needed_directory children r →
  ¬ p `prefix_of` r.
Proof.
  intros Hdel [(c & t & Hc & Ht & Hparts) _] [k ->].
  by destruct (deleted_not_above _ _ _ _ _ _ _ Hdel Hc Hparts).
Qed.

Lemma compute_changes_applicable (fs : option node) (should_delete : bool)
    (output : string) (state : dict state_entry) (d : changes) :
  compute_changes fs should_delete output state = Ok d →
  fs_kind fs [] = Some KDir →
  applicable fs d.
Proof.
  intros Hok Hroot. pose proof Hok as Hwalk. rewrite compute_changes_walk in Hwalk.
  pose proof (compute_changes_sound _ _ _ _ _ Hok) as (Hdel & Hupd & Hcre & Hdir).
  rewrite Forall_forall in Hdel. rewrite Forall_forall in Hupd.
  rewrite Forall_forall in Hcre. rewrite Forall_forall in Hdir.
  pose proof (walk_NoDup _ _ _ _ _ _ _ Hwalk) as (N1 & N2 & N3 & N4).
  pose proof (walk_complete _ _ _ _ _ _ _ Hwalk) as Hcomplete.
  set (children := state_children state) in *.
  assert (∀ p, p ∈ to_delete d → p ≠ []) as Hdel_ne.
  { intros p Hp. destruct (Hdel p Hp) as (r & file & -> & _). simpl. by destruct r. }
  split.
  - apply NoDup_prefix_free; [done|]. intros a b Ha Hb Hpre.
    destruct (Hdel b Hb) as (r & file & -> & _ & _ & Hr & _). simpl in Hpre.
    apply prefix_snoc_inv in Hpre as [?|Hpre]; [done|].
    destruct Hr as [->|Hr].
    + apply prefix_nil_inv in Hpre. by destruct (Hdel_ne a Ha).
    + by destruct (deleted_not_above_directory _ _ _ _ _ (Hdel a Ha) Hr).
  - intros p Hp. destruct (Hdel p Hp) as (r & file & -> & _ & Hsome & _).
    by apply fs_kind_is_Some.
  - done.
  - intros p Hp. destruct (Hdir p Hp) as (r & Hr & -> & Hnone & _). simpl.
    split; [done|]. by apply fs_kind_None.
  - apply walk_parents_before in Hwalk.
    apply (parents_before_mono _ (λ q, os_path_isdir fs q = true)) in Hwalk; [done|].
    intros q [->|Hq]; [|done]. by apply os_path_isdir_kind.
  - intros p p' Hp Hp'. destruct (Hdir p Hp) as (r & _ & -> & _ & Hr). simpl.
    apply (deleted_not_above_directory _ _ _ _ _ (Hdel p' Hp') Hr).
  - done.
  - intros e He. destruct (Hupd e He) as (c & data & Hc & Hpath & _ & Hfile & _).
    simpl in Hpath. split; [exists data; by apply fs_kind_File|].
    intros p' Hp' [k Hk]. pose proof (Hdel p' Hp') as Hok'.
    destruct (deleted_not_above _ _ _ _ k [] _ Hok' Hc) as [-> _].
    { by rewrite app_nil_r, <-Hpath. }
    rewrite app_nil_r in Hk. subst p'.
    destruct Hok' as (r & file & Heq & _ & _ & _ & _ & [[Hnone _]|[_ Hnot]]).
    + apply (Hnone c Hc). simpl in Heq. by rewrite <-Heq, Hpath.
    + by apply (Hnot data).
  - done.
  - intros e He. destruct (Hcre e He) as (c & Hc & Hpath & _ & Hnot). simpl in Hpath.
    split.
    + intros Hin. destruct (Hdir _ Hin) as (r & _ & Heq & _ & _ & Hends). simpl in Heq.
      apply (Hends c Hc). congruence.
    + destruct (Hcomplete c Hc) as [Hfile _]. simpl in Hfile. rewrite <-Hpath in Hfile.
      unfold file_scheduled in Hfile.
      destruct (fs_lookup fs (path e)) as [[data| |]|] eqn:Hl.
      * by destruct (Hnot data).
      * right. by destruct Hfile.
      * right. by destruct Hfile.
      * left. by apply fs_kind_None.
  - intros e He. destruct (Hcre e He) as (c & Hc & Hpath & _). simpl in Hpath.
    assert (path e ≠ []) as Hne.
    { rewrite Hpath. pose proof (state_children_length _ _ Hc) as [Hlen _].
      intros Hnil. rewrite Hnil in Hlen. simpl in Hlen. lia. }
    split; [done|]. destruct (snoc_parent _ Hne) as [name Hname].
    assert (∀ p', p' ∈ to_delete d → ¬ p' `prefix_of` parent (path e)) as Hkept.
    { intros p' Hp' [k Hk].
      destruct (deleted_not_above _ _ _ _ k [name] _ (Hdel p' Hp') Hc); [|done].
      by rewrite <-Hk, <-Hname. }
    destruct (decide (parent (path e) = [])) as [Hnil|Hparent].
    { right. rewrite Hnil in *. done. }
    destruct (Hcomplete c Hc) as [_ Hdirs].
    specialize (Hdirs (parent (path e)) [name]). simpl in Hdirs.
    rewrite <-Hpath, <-Hname in Hdirs. specialize (Hdirs eq_refl Hparent ltac:(done)).
    unfold directory_scheduled in Hdirs.
    destruct (fs_lookup fs (parent (path e))) as [[| |]|] eqn:Hl; try done.
    + right. split; [|done]. apply fs_kind_Dir. eauto.
    + by left.
Qed.
(** ** The exceptions of the reconciliation, with the path at fault *)

Section walk_errors_precise.
Context (fs : option node) (should_delete : bool) (output : string).

#[local] Abbreviation visit := (visit fs should_delete output).
#[local] Abbreviation walk_recursive := (walk_recursive fs should_delete output).
#[local] Abbreviation walk_error := (walk_error fs should_delete output).

Lemma visit_Raise_precise cur children (needed : gmap string (list needed_file)) file s e :
  for_each needed_add children ∅ = Ok needed →
  visit cur needed file s = Raise e →
  walk_error children cur e.
Proof.
  intros Hneeded.
  unfold visit, os_path_exists, os_path_isfile, os_path_isdir, read_text, os_path_join.
  destruct s as [acc explore].
  destruct (needed !! file) as [g|] eqn:Hg; [|by case_match].
  destruct (forallb _ g) eqn:Hall.
  - destruct (group_needed_directory _ _ _ _ Hneeded Hg Hall) as [Hdir _].
    destruct (fs_lookup fs (cur ++ [file])) as [[| |]|] eqn:Hl; simpl; try done;
      destruct should_delete; simpl; try done; intros [= <-];
      right; right; (split; [done|]); eexists [file], _; (split; [exact Hl|]); left; done.
  - destruct g as [|c [|]]; try (by intros [= <-]; right; left).
    destruct (group_leaf _ _ _ _ Hneeded Hg Hall) as (Hc & Hparts & _).
    destruct (fs_lookup fs (cur ++ [file])) as [[| |]|] eqn:Hl; simpl; try done;
      try (by case_bool_decide);
      destruct should_delete; simpl; try done; intros [= <-];
      right; right; (split; [done|]); eexists [file], _; (split; [exact Hl|]); right;
      (split; [done|]); (split; [by exists c|done]).
Qed.

Lemma walk_error_below file children cur e :
  needed_directory children [file] →
  (∀ n, fs_lookup fs (cur ++ [file]) = Some n → (∀ entries, n ≠ Dir entries) →
        should_delete = true) →
  walk_error (advance <$> group_of file children) (cur ++ [file]) e →
  walk_error children cur e.
Proof.
  intros Hdir Hsd [(r & n & -> & Hr & Hn & Hnot)|[->|(Hno & r & n & Hn & Hcase)]].
  - left. exists (file :: r), n. rewrite <-app_assoc in *. simpl in *.
    split; [done|]. split; [|done]. right.
    destruct Hr as [->|[Hsd' Hr]].
    + split; [|done]. by eapply Hsd.
    + split; [done|]. by apply needed_directory_below.
  - right. by left.
  - right. right. split; [done|]. exists (file :: r), n.
    rewrite <-app_assoc in *. simpl in *. split; [done|].
    destruct Hcase as [(-> & Hr & Hnot)|(-> & (c' & Hc' & Hparts') & Hnot)].
    + left. split; [done|]. split; [|done]. by apply needed_directory_below.
    + right. split; [done|]. split; [|done].
      apply elem_of_advance_group in Hc' as (c & Hc & Hparts & _).
      exists c. by rewrite Hparts, Hparts'.
Qed.

Lemma walk_Raise_precise depth cur children acc e :
  (∀ c, c ∈ children → 0 < length (parts c) ≤ depth) → 0 < depth →
  walk_recursive depth cur children acc = Raise e →
  walk_error children cur e.
Proof.
  revert cur children acc.
  induction depth as [|depth IH]; intros cur children acc Hlen Hdepth; [lia|].
  rewrite walk_recursive_S.
  destruct (listing fs cur) as [files|e'] eqn:Hfiles; simpl_result.
  2:{ intros [= <-]. apply listing_Raise_lookup in Hfiles as (-> & n & Hn & Hnot).
      left. exists [], n. rewrite app_nil_r. split_and!; try done. by left. }
  destruct (for_each needed_add children ∅) as [needed|e'] eqn:Hneeded; simpl_result.
  2:{ apply for_each_Raise in Hneeded as (c & s & Hc & Hadd).
      unfold needed_add in Hadd. destruct (parts c) eqn:Hparts; [|done].
      specialize (Hlen c Hc). rewrite Hparts in Hlen. simpl in Hlen. lia. }
  rewrite visit_loop_frame.
  destruct (for_each _ (all_files files needed) (no_changes, []))
    as [[d explore]|e'] eqn:Hloop; simpl_result.
  2:{ intros [= <-]. apply for_each_Raise in Hloop as (file & s & _ & Hvisit).
      by eapply visit_Raise_precise. }
  intros (file & s & Hfile & Hwalk)%for_each_Raise.
  apply visit_loop_Ok in Hloop as (level & Hlevel & _ & ->).
  rewrite app_nil_l in Hfile.
  destruct (elem_of_explore _ _ _ _ _ _ _ _ _ Hneeded Hlevel Hfile)
    as (Hname & Hexplored & Hdirectory & Hgroup).
  pose proof Hdirectory as [(c0 & t0 & Hc0 & Ht0 & Hparts0) Hdir].
  rewrite Hgroup in Hwalk.
  assert (∀ c, c ∈ advance <$> group_of file children → 0 < length (parts c) ≤ depth)
    as Hlen'.
  { intros c' (c & Hc & Hparts & _)%elem_of_advance_group.
    specialize (Hlen c Hc). rewrite Hparts in Hlen. simpl in Hlen.
    destruct (parts c') eqn:Hparts'; [by destruct (Hdir c Hc)|simpl in *; lia]. }
  apply (walk_error_below file); [done| |].
  - intros n Hn Hnot. pose proof (Hlevel file Hname) as Hvisit.
    destruct (level file) as [dl el]. simpl in Hexplored. subst el.
    apply visit_Ok in Hvisit. cbv zeta in Hvisit.
    destruct (needed !! file) as [g|]; [|by destruct Hvisit].
    destruct (forallb _ g); [|by destruct Hvisit as (? & _ & ? & _)].
    destruct Hvisit as [_ Hd]. rewrite Hn in Hd.
    destruct n as [| |]; [by destruct Hd|by destruct (Hnot entries)|by destruct Hd].
  - eapply IH; [exact Hlen'| |exact Hwalk].
    assert (NeededFile t0 (file_content c0) ∈ advance <$> group_of file children) as Hin.
    { apply elem_of_advance_group. exists c0. by rewrite Hparts0. }
    apply Hlen' in Hin. simpl in Hin. lia.
Qed.
End walk_errors_precise.

Lemma compute_changes_raise_walk (fs : option node) (should_delete : bool)
    (output : string) (state : dict state_entry) (e : exn) :
  compute_changes fs should_delete output state = Raise e →
  walk_error fs should_delete output (state_children state) [] e.
Proof.
  rewrite compute_changes_walk. apply walk_Raise_precise; [|lia].
  apply state_children_length.
Qed.


(** ** Nothing to do *)

Lemma empty_list {A} (l : list A) : (∀ x, x ∉ l) → l = [].
Proof. destruct l as [|x l]; [done|]. intros H. destruct (H x). left. Qed.

Lemma needed_directory_in_place (fs : option node) (should_delete : bool)
    (state : dict state_entry) (r : rel_path) :
  in_place fs should_delete state → needed_directory (state_children state) r →
  ∃ entries, fs_lookup fs r = Some (Dir entries).
Proof.
  intros (_ & Hfiles & _) [(c & t & Hc & Ht & Hparts) _].
  apply elem_of_state_children in Hc as (key & e & Hin & Hkey & _).
  destruct (Hfiles key e Hin) as (data & Hdata & _).
  apply fs_kind_Dir. apply (fs_kind_below _ _ t); [done|].
  rewrite <-Hparts, Hkey. apply fs_kind_is_Some. by rewrite Hdata.
Qed.

Lemma in_place_prefix_free (fs : option node) (should_delete : bool)
    (state : dict state_entry) :
  NoDup state.*1 → in_place fs should_delete state →
  prefix_free (parts <$> state_children state).
Proof.
  intros Hnodup (_ & Hfiles & _). unfold state_children. rewrite state_children_parts.
  apply keys_prefix_free; [done|].
  apply Forall_forall. intros k1 ([k1' e1] & -> & H1)%list_elem_of_fmap.
  apply Forall_forall. intros k2 ([k2' e2] & -> & H2)%list_elem_of_fmap.
  simpl. intros [t Ht].
  destruct (Hfiles _ _ H1) as (data1 & Hdata1 & _).
  destruct (Hfiles _ _ H2) as (data2 & Hdata2 & _).
  destruct (decide (t = [])) as [->|Hne]; [by rewrite app_nil_r in Ht|].
  assert (fs_kind fs (split "/" k1') = Some KDir) as Hdir.
  { apply (fs_kind_below _ _ t); [done|]. rewrite <-Ht. apply fs_kind_is_Some.
    by rewrite Hdata2. }
  apply fs_kind_Dir in Hdir as [entries Hdir]. congruence.
Qed.

Lemma no_changes_iff_in_place (fs : option node) (should_delete : bool)
    (output : string) (state : dict state_entry) :
  NoDup state.*1 →
  compute_changes fs should_delete output state = Ok no_changes
  ↔ in_place fs should_delete state.
Proof.
  intros Hnodup. split.
  - intros Hok. pose proof Hok as Hwalk. rewrite compute_changes_walk in Hwalk.
    split_and!.
    + by apply walk_Ok_directory in Hwalk.
    + intros key e Hin.
      destruct (walk_complete _ _ _ _ _ _ _ Hwalk (NeededFile (split "/" key) (content e)))
        as [Hfile _].
      { apply elem_of_state_children. by exists key, e. }
      simpl in Hfile. unfold file_scheduled in Hfile.
      destruct (fs_lookup fs (split "/" key)) as [[data| |]|].
      * exists data. split; [done|]. destruct Hfile as [?|?%elem_of_nil]; done.
      * by destruct Hfile as [?%elem_of_nil _].
      * by destruct Hfile as [?%elem_of_nil _].
      * by apply elem_of_nil in Hfile.
    + intros -> r file Hr Hsome.
      destruct (decide (file ∈ DEFAULT_IGNORE_LIST)) as [|Hignore]; [by left|right].
      destruct (decide (Exists (λ key, (r ++ [file]) `prefix_of` split "/" key) state.*1))
        as [(key & Hkey & Hpre)%Exists_exists|Hnot]; [by exists key|].
      assert (r ++ [file] ∈ to_delete no_changes) as Hin; [|by apply elem_of_nil in Hin].
      apply (walk_deletes _ _ _ _ _ _ Hwalk r file); try done.
      * intros c Hc. apply state_children_length in Hc. lia.
      * lia.
      * intros c (key & e & Hin & -> & _)%elem_of_state_children Hpre.
        apply Hnot. apply Exists_exists. exists key. split; [|done].
        apply list_elem_of_fmap. by exists (key, e).
  - intros Hplace. pose proof Hplace as (Hroot & Hfiles & Hstale).
    assert (∀ c, c ∈ state_children state →
              ∃ data, fs_lookup fs (parts c) = Some (File data)
                      ∧ universal_newlines data = file_content c) as Hchildren.
    { intros c (key & e & Hin & -> & ->)%elem_of_state_children. by apply Hfiles. }
    destruct (compute_changes fs should_delete output state) as [d|e] eqn:Hok.
    2:{ exfalso. pose proof Hok as Hwalk. rewrite compute_changes_walk in Hwalk.
        apply compute_changes_raise_walk in Hok
          as [(r & n & -> & Hr & Hn & Hnot)|[->|(_ & r & n & Hn & Hcase)]]; cbn [app] in *.
        - destruct Hr as [->|[_ Hr]].
          + destruct Hroot as [?|[entries ?]]; [congruence|].
            apply (Hnot entries). congruence.
          + destruct (needed_directory_in_place _ _ _ _ Hplace Hr) as [entries ?].
            apply (Hnot entries). congruence.
        - revert Hwalk. apply walk_no_AssertionError. by apply (in_place_prefix_free fs should_delete).
        - destruct Hcase as [(_ & Hr & Hnot)|(_ & (c & Hc & Hparts) & Hnot)].
          + destruct (needed_directory_in_place _ _ _ _ Hplace Hr) as [entries ?].
            apply (Hnot entries). congruence.
          + destruct (Hchildren c Hc) as (data & Hdata & _). rewrite Hparts in Hdata.
            apply (Hnot data). congruence. }
    f_equal.
    pose proof (compute_changes_sound _ _ _ _ _ Hok) as (Hdel & Hupd & Hcre & Hdir).
    rewrite Forall_forall in Hdel. rewrite Forall_forall in Hupd.
    rewrite Forall_forall in Hcre. rewrite Forall_forall in Hdir.
    destruct d as [del upd cre dirs]. simpl in *. unfold no_changes.
    f_equal; apply empty_list.
    + intros p Hp. destruct (Hdel p Hp) as (r & file & -> & Hsd & Hsome & Hr & _ & Hcase).
      simpl in *. destruct Hcase as [[Hnone Hignore]|[(c & Hc & Hparts) Hnot]].
      * destruct (Hstale Hsd r file Hr Hsome) as [?|(key & Hkey & Hpre)]; [done|].
        apply list_elem_of_fmap in Hkey as ([key' e] & -> & Hin).
        apply (Hnone (NeededFile (split "/" key') (content e))); [|done].
        apply elem_of_state_children. by exists key', e.
      * destruct (Hchildren c Hc) as (data & Hdata & _). rewrite Hparts in Hdata.
        by apply (Hnot data).
    + intros e He. destruct (Hupd e He) as (c & data & Hc & Hpath & _ & Hfile & Hdiff).
      destruct (Hchildren c Hc) as (data' & Hdata' & Hsame). simpl in Hpath.
      rewrite Hpath in Hfile. congruence.
    + intros e He. destruct (Hcre e He) as (c & Hc & Hpath & _ & Hnot).
      destruct (Hchildren c Hc) as (data & Hdata & _). simpl in Hpath.
      apply (Hnot data). congruence.
    + intros p Hp. destruct (Hdir p Hp) as (r & _ & -> & Hnone & Hr). simpl in *.
      destruct (needed_directory_in_place _ _ _ _ Hplace Hr) as [entries ?]. congruence.
Qed.


(** ** The tree after the change set has been applied *)

Lemma universal_newlines_id (s : string) :
  no_carriage_return s = true → universal_newlines s = s.
Proof.
  induction s as [|c s IH]; [done|]. simpl.
  intros [Hc Hs]%andb_true_iff. apply negb_true_iff in Hc. rewrite Hc.
  by rewrite IH.
Qed.

Lemma state_children_functional (state : dict state_entry) (c c' : needed_file) :
  NoDup state.*1 → c ∈ state_children state → c' ∈ state_children state →
  parts c = parts c' → c = c'.
Proof.
  intros Hnodup (key & e & Hin & Hparts & Hcontent)%elem_of_state_children
    (key' & e' & Hin' & Hparts' & Hcontent')%elem_of_state_children Heq.
  rewrite Hparts, Hparts' in Heq. apply split_inj in Heq as ->.
  assert (e = e') as ->.
  { apply list_elem_of_lookup in Hin as [i Hi]. apply list_elem_of_lookup in Hin' as [j Hj].
    assert (i = j) as ->; [|congruence].
    apply (NoDup_lookup state.*1 i j key'); [done|by rewrite list_lookup_fmap, Hi
                                             |by rewrite list_lookup_fmap, Hj]. }
  destruct c, c'. simpl in *. congruence.
Qed.

(** A target path that is a regular file is below no deleted path. *)
Lemma target_file_not_deleted (fs : option node) (should_delete : bool)
    (children : list needed_file) (p : rel_path) (c : needed_file) (data : string) :
  delete_ok fs should_delete children [] p → c ∈ children →
  fs_lookup fs (parts c) = Some (File data) → ¬ p `prefix_of` parts c.
Proof.
  intros Hok Hc Hfile [k Hk].
  destruct (deleted_not_above _ _ _ _ k [] _ Hok Hc) as [-> _].
  { by rewrite app_nil_r. }
  rewrite app_nil_r in Hk. subst p.
  destruct Hok as (r & file & Heq & _ & _ & _ & _ & [[Hnone _]|[_ Hnot]]).
  - apply (Hnone c Hc). simpl in Heq. by rewrite <-Heq.
  - by apply (Hnot data).
Qed.

Section applied.
Context (fs : option node) (should_delete : bool) (output : string).
Context (state : dict state_entry) (d : changes).
Context (Hok : compute_changes fs should_delete output state = Ok d).
Context (Hnodup : NoDup state.*1).

(** After the change set every target path is a regular file: with the
    target content, or left as it was because it reads as the target
    content. *)
Lemma applied_target fs' key e :
  (∀ e, e ∈ files_to_update d ++ files_to_create d →
     fs_kind fs' (path e) = Some (KFile (entry_content e))) →
  (∀ q, q ∉ path <$> files_to_update d → q ∉ path <$> files_to_create d →
     q ∉ directories_to_create d →
     fs_kind fs' q
     = if decide (Exists (λ p, p `prefix_of` q) (to_delete d)) then None
       else fs_kind fs q) →
  (key, e) ∈ state →
  ∃ data, fs_lookup fs' (split "/" key) = Some (File data)
          ∧ (data = content e
             ∨ (fs_lookup fs (split "/" key) = Some (File data)
                ∧ universal_newlines data = content e)).
Proof using Hok Hnodup.
  intros Hwritten Hother Hin.
  pose proof Hok as Hwalk. rewrite compute_changes_walk in Hwalk.
  pose proof (compute_changes_sound _ _ _ _ _ Hok) as (Hdel & Hupd & Hcre & Hdir).
  rewrite Forall_forall in Hdel. rewrite Forall_forall in Hupd.
  rewrite Forall_forall in Hcre. rewrite Forall_forall in Hdir.
  set (c := NeededFile (split "/" key) (content e)).
  assert (c ∈ state_children state) as Hc.
  { apply elem_of_state_children. by exists key, e. }
  destruct (walk_complete _ _ _ _ _ _ _ Hwalk c Hc) as [Hfile _]. simpl in Hfile.
  assert (∀ e', e' ∈ files_to_update d ++ files_to_create d →
            path e' = split "/" key → entry_content e' = content e) as Hcontent.
  { intros e' [He'|He']%elem_of_app Hpath.
    - destruct (Hupd e' He') as (c' & _ & Hc' & Hpath' & -> & _). simpl in Hpath'.
      rewrite (state_children_functional state c' c); [done..|].
      subst c. simpl. congruence.
    - destruct (Hcre e' He') as (c' & Hc' & Hpath' & -> & _). simpl in Hpath'.
      rewrite (state_children_functional state c' c); [done..|].
      subst c. simpl. congruence. }
  assert (∀ e', e' ∈ files_to_update d ++ files_to_create d →
            path e' = split "/" key →
            fs_lookup fs' (split "/" key) = Some (File (content e))) as Hdone.
  { intros e' He' Hpath. apply fs_kind_File.
    by rewrite <-Hpath, (Hwritten e' He'), (Hcontent e' He' Hpath). }
  unfold file_scheduled in Hfile.
  destruct (fs_lookup fs (split "/" key)) as [[data| |]|] eqn:Hl.
  - destruct (decide (split "/" key ∈ path <$> files_to_update d))
      as [(e' & Hpath & He')%list_elem_of_fmap|Hnot_upd].
    { exists (content e). split; [|by left].
      apply (Hdone e'); [apply elem_of_app; by left|done]. }
    destruct Hfile as [Hsame|Hin'].
    2:{ destruct Hnot_upd. apply list_elem_of_fmap. by eexists (Entry _ _). }
    exists data. split; [|by right]. apply fs_kind_File. rewrite Hother.
    + rewrite decide_False; [by apply fs_kind_File|].
      intros (p & Hp & Hpre)%Exists_exists.
      by apply (target_file_not_deleted _ _ _ _ c data (Hdel p Hp) Hc).
    + done.
    + intros (e' & Hpath & He')%list_elem_of_fmap.
      destruct (Hcre e' He') as (_ & _ & _ & _ & Hnot). apply (Hnot data). congruence.
    + intros Hin'. destruct (Hdir _ Hin') as (r & _ & Heq & Hnone & _). simpl in Heq.
      congruence.
  - destruct Hfile as [_ Hin']. exists (content e). split; [|by left].
    apply (Hdone (Entry (split "/" key) (content e))); [apply elem_of_app; by right|done].
  - destruct Hfile as [_ Hin']. exists (content e). split; [|by left].
    apply (Hdone (Entry (split "/" key) (content e))); [apply elem_of_app; by right|done].
  - exists (content e). split; [|by left].
    apply (Hdone (Entry (split "/" key) (content e))); [apply elem_of_app; by right|done].
Qed.
End applied.

Lemma update_files_applied (fs : option node) (should_delete : bool) (output : string)
    (state : dict state_entry) (d : changes) (fs' : option node) (r : result unit) :
  compute_changes fs should_delete output state = Ok d →
  os_path_isdir fs [] = true →
  update_files d fs = (fs', r) →
  r = Ok ()
  ∧ (∀ e, e ∈ files_to_update d ++ files_to_create d →
       fs_kind fs' (path e) = Some (KFile (entry_content e)))
  ∧ (∀ p, p ∈ directories_to_create d → fs_kind fs' p = Some KDir)
  ∧ (∀ q, q ∉ path <$> files_to_update d → q ∉ path <$> files_to_create d →
       q ∉ directories_to_create d →
       fs_kind fs' q
       = if decide (Exists (λ p, p `prefix_of` q) (to_delete d)) then None
         else fs_kind fs q).
Proof.
  intros Hok Hroot%os_path_isdir_kind Hrun.
  destruct (update_files_spec fs d) as (fs1 & Hrun1 & Hspec).
  { by eapply compute_changes_applicable. }
  rewrite Hrun in Hrun1. by injection Hrun1 as -> ->.
Qed.


(** ** What the application changes *)





(** ** A second run *)

Lemma applied_in_place (fs : option node) (should_delete : bool) (output : string)
    (state : dict state_entry) (d : changes) (fs' : option node) (r : result unit) :
  compute_changes fs should_delete output state = Ok d →
  NoDup state.*1 → os_path_isdir fs [] = true →
  (∀ key e, (key, e) ∈ state → no_carriage_return (content e) = true) →
  update_files d fs = (fs', r) →
  in_place fs' should_delete state.
Proof.
  intros Hok Hnodup Hroot Hplain Hrun.
  destruct (update_files_applied _ _ _ _ _ _ _ Hok Hroot Hrun)
    as (_ & Hwritten & Hdirs & Hother).
  pose proof (compute_changes_sound _ _ _ _ _ Hok) as (Hdel & Hupd & Hcre & Hdir).
  rewrite Forall_forall in Hdel. rewrite Forall_forall in Hupd.
  rewrite Forall_forall in Hcre. rewrite Forall_forall in Hdir.
  assert (∀ c, c ∈ state_children state →
            ∃ key, key ∈ state.*1 ∧ parts c = split "/" key) as Hkey.
  { intros c (key & e & Hin & Hparts & _)%elem_of_state_children. exists key.
    split; [|done]. apply list_elem_of_fmap. by exists (key, e). }
  split_and!.
  - right. apply fs_kind_Dir. apply os_path_isdir_kind in Hroot. rewrite Hother.
    + rewrite decide_False; [done|]. intros (p & Hp & Hpre)%Exists_exists.
      apply prefix_nil_inv in Hpre as ->.
      destruct (Hdel _ Hp) as (r0 & file & Heq & _). simpl in Heq. by destruct r0.
    + intros (e & Hpath & He)%list_elem_of_fmap.
      destruct (Hupd e He) as (c & data & Hc & Hpath' & _). simpl in Hpath'.
      pose proof (state_children_length _ _ Hc) as [Hlen _].
      rewrite <-Hpath', <-Hpath in Hlen. simpl in Hlen. lia.
    + intros (e & Hpath & He)%list_elem_of_fmap.
      destruct (Hcre e He) as (c & Hc & Hpath' & _). simpl in Hpath'.
      pose proof (state_children_length _ _ Hc) as [Hlen _].
      rewrite <-Hpath', <-Hpath in Hlen. simpl in Hlen. lia.
    + intros Hin. destruct (Hdir _ Hin) as (r0 & Hr0 & Heq & _). simpl in Heq. by subst r0.
  - intros key e Hin.
    destruct (applied_target _ _ _ _ _ Hok Hnodup fs' key e Hwritten Hother Hin)
      as (data & Hdata & [Heq|[_ Hsame]]); exists data; (split; [done|]); [|done].
    subst data. by apply universal_newlines_id, (Hplain key).
  - intros -> r0 file Hr Hsome.
    destruct (decide (file ∈ DEFAULT_IGNORE_LIST)) as [|Hignore]; [by left|right].
    destruct (decide (Exists (λ key, (r0 ++ [file]) `prefix_of` split "/" key) state.*1))
      as [(key & Hin & Hpre)%Exists_exists|Hnot]; [by exists key|].
    exfalso.
    assert (∀ c, c ∈ state_children state → ¬ (r0 ++ [file]) `prefix_of` parts c) as Hnot'.
    { intros c (key & Hin & ->)%Hkey Hpre. apply Hnot. apply Exists_exists. by exists key. }
    apply fs_kind_is_Some in Hsome. rewrite Hother in Hsome.
    + destruct (decide (Exists _ (to_delete d))) as [|Hkept]; [by destruct Hsome|].
      apply Hkept. apply Exists_exists. exists (r0 ++ [file]). split; [|done].
      rewrite compute_changes_walk in Hok.
      apply (walk_deletes _ _ _ _ _ _ Hok r0 file); try done.
      * intros c Hc. apply state_children_length in Hc. lia.
      * lia.
      * by apply fs_kind_is_Some.
    + intros (e & Hpath & He)%list_elem_of_fmap.
      destruct (Hupd e He) as (c & data & Hc & Hpath' & _). simpl in Hpath'.
      apply (Hnot' c Hc). by rewrite <-Hpath', <-Hpath.
    + intros (e & Hpath & He)%list_elem_of_fmap.
      destruct (Hcre e He) as (c & Hc & Hpath' & _). simpl in Hpath'.
      apply (Hnot' c Hc). by rewrite <-Hpath', <-Hpath.
    + intros Hin. destruct (Hdir _ Hin) as (r1 & _ & Heq & _ & (c & t & Hc & _ & Hparts) & _).
      simpl in Heq. apply (Hnot' c Hc). exists t. by rewrite Hparts, <-Heq.
Qed.


(** ** The whole run *)

(** X21: A dry run returns the tree it was given, whatever the export holds
    and whatever the reconciliation finds. *)
Theorem dry_run_leaves_tree (output : string) (structure : FileStructure)
    (only_scoring : option string) (no_scoring_name no_delete : bool)
    (data : list solution) (fs : option node) :
  (main output structure only_scoring no_scoring_name no_delete true data fs).1 = fs.
Proof.
  unfold main. destruct (compute_final_state _ _ _ _) as [state|]; [|done].
  destruct (compute_changes _ _ _ _) as [d|]; [|done]. by case_bool_decide.
Qed.


(** ** The order of the directories, and a missing output directory *)




